(** * dynamate, docker/seed.py: table provisioning and dataset seeding

    A shallow embedding of the seeding script and the proofs of its
    specification.  The script talks to three things it does not own: the
    DynamoDB service (describe, create, delete, batched puts), the system
    clock and the [random] module.  They are gathered in an environment
    [Env W] over an arbitrary world state [W]; the script itself is a
    computation in a state-and-exception monad over the world and the trace
    of the requests it has issued.  Console output is not part of the
    model. *)

From Stdlib Require Import ZArith QArith Qabs Qround Qpower Lia Lqa ArithRing Ascii String.
From stdpp Require Import base gmap list strings pretty.

Local Open Scope string_scope.
Local Open Scope list_scope.
Local Open Scope Z_scope.

(** ** Python values stored in an item *)

(** [decimal.Decimal]: a coefficient and a power of ten. *)
Record Decimal := mkDecimal { dec_coef : Z; dec_exp : Z }.

Inductive AttrValue :=
| AStr (s : string)
| AInt (z : Z)
| AFloat (f : Q)
| ADec (d : Decimal)
| AList (l : list string).

#[global] Instance Decimal_eq_dec : EqDecision Decimal.
Proof. solve_decision. Defined.

Abbreviation Item := (gmap string AttrValue).

(** ** String formatting *)

(** [f"{z:0{width}d}"]: sign-aware zero padding to [width] characters. *)
Definition py_format_0d (width : nat) (z : Z) : string :=
  let digits := pretty (Z.abs_N z) in
  let sign := if z <? 0 then "-" else "" in
  sign +:+ String.concat "" (replicate (width - String.length sign - String.length digits)%nat "0")
       +:+ digits.

(** [f"{z}"] for an int. *)
Definition py_str_int (z : Z) : string := pretty z.

(** [sep.join(l)] *)
Definition py_join (sep : string) (l : list string) : string := String.concat sep l.

(** ** Binary floating point

    A Python [float] is an IEEE-754 binary64 number.  A finite float is the
    rational it denotes, and an arithmetic operation is the exact operation
    followed by rounding to the nearest number with a 53-bit significand,
    ties to even.  The exponent range is not bounded here: the script's
    floats are prices, quantities, sums of them and timestamps, far from
    overflow and from the subnormal range; infinities, NaN and the sign of
    zero do not occur. *)

Definition pow2 (e : Z) : Q :=
  if 0 <=? e then inject_Z (2 ^ e) else 1 # Z.to_pos (2 ^ (- e)).

Definition pow10 (e : Z) : Q :=
  if 0 <=? e then inject_Z (10 ^ e) else 1 # Z.to_pos (10 ^ (- e)).

(** Nearest integer, ties to the even one. *)
Definition round_half_even (x : Q) : Z :=
  let d := Zpos (Qden x) in
  let q := Qnum x / d in
  let r := Qnum x mod d in
  match 2 * r ?= d with
  | Lt => q
  | Gt => q + 1
  | Eq => if Z.even q then q else q + 1
  end.

(** For [0 < x], the exponent [e] with [2^e <= x < 2^(e+1)]. *)
Definition binade (x : Q) : Z :=
  let e := Z.log2 (Qnum x) - Z.log2 (Zpos (Qden x)) in
  if Qle_bool (pow2 e) x then e else e - 1.

Definition round_pos (x : Q) : Q :=
  let e := binade x in
  inject_Z (round_half_even (x * pow2 (52 - e))) * pow2 (e - 52).

(** Rounding of an exact result to binary64. *)
Definition binary64 (x : Q) : Q :=
  Qred match Qnum x with
       | Z0 => 0
       | Zpos _ => round_pos x
       | Zneg _ => - round_pos (- x)
       end.

Definition fadd (x y : Q) : Q := binary64 (x + y).
Definition fsub (x y : Q) : Q := binary64 (x - y).
Definition fmul (x y : Q) : Q := binary64 (x * y).

(** [float(z)], as in [price * qty] with an int [qty]. *)
Definition float_of_int (z : Z) : Q := binary64 (inject_Z z).

(** [a / b] on ints: true division is correctly rounded. *)
Definition int_truediv (a : Z) (b : positive) : Q := binary64 (a # b).

(** [int(x)]: truncation toward zero. *)
Definition py_int (x : Q) : Z := if Qle_bool 0 x then Qfloor x else Qceiling x.

(** [round(x)]: the nearest int, ties to even. *)
Definition py_round (x : Q) : Z := round_half_even x.

(** [round(x, 2)]: CPython rounds the exact value of [x] to two decimal
    places, ties to even, and converts the decimal back to the nearest
    float. *)
Definition py_round2 (x : Q) : Q := binary64 (round_half_even (x * 100) # 100).

(** *** [str] of a float and [Decimal] of that string

    [str(x)] prints the shortest decimal that reads back as [x], the one
    nearest to [x] if there are several.  [shortest_digits x] is that
    decimal as [(d, e)], denoting [d * 10^e]: the search goes down from an
    exponent above [x] and stops at the first one at which a multiple of
    [10^e] next to [x] rounds to [x]. *)
Fixpoint shortest_from (fuel : nat) (x : Q) (e : Z) : Z * Z :=
  match fuel with
  | O => (0, 0)
  | S fuel =>
      let s := (x / pow10 e)%Q in
      let lo := Qfloor s in
      let hi := Qceiling s in
      let ok c := Qeq_bool (binary64 (inject_Z c * pow10 e)) x in
      match ok lo, ok hi with
      | true, true =>
          match (s - inject_Z lo ?= inject_Z hi - s)%Q with
          | Lt => (lo, e)
          | Gt => (hi, e)
          | Eq => (if Z.even lo then lo else hi, e)
          end
      | true, false => (lo, e)
      | false, true => (hi, e)
      | false, false => shortest_from fuel x (e - 1)
      end
  end.

Definition shortest_digits (x : Q) : Z * Z :=
  let b := Z.max 0 (binade x) in
  shortest_from (Z.to_nat (b + 1100)) x (b / 3 + 1).

(** [Decimal(str(x))].  [str] writes [d * 10^e] positionally when the decimal
    point falls within [-4 < decpt <= 16], with [.0] appended to an integer,
    and in exponent notation otherwise; [Decimal] keeps every digit
    written. *)
Definition decimal_of_pos (x : Q) : Decimal :=
  let '(d, e) := shortest_digits x in
  let decpt := e + Z.of_nat (String.length (pretty (Z.to_N d))) in
  if (-4 <? decpt) && (decpt <=? 16) && (0 <=? e)
  then mkDecimal (d * 10 ^ (e + 1)) (-1)
  else mkDecimal d e.

Definition Decimal_of_float (x : Q) : Decimal :=
  match Qnum x with
  | Z0 => mkDecimal 0 (-1)
  | Zpos _ => decimal_of_pos x
  | Zneg _ => let d := decimal_of_pos (- x) in mkDecimal (- dec_coef d) (dec_exp d)
  end.

(** [Decimal(str(z))] for an int. *)
Definition Decimal_of_int (z : Z) : Decimal := mkDecimal z 0.

(** The number a [Decimal] denotes. *)
Definition dec_value (d : Decimal) : Q := inject_Z (dec_coef d) * pow10 (dec_exp d).

(** ** The DynamoDB API, as far as the script uses it *)

Record KeySchemaElement := mkKey { AttributeName : string; KeyType : string }.

(** An index description of [describe_table]: [IndexName] is always present,
    [KeySchema] is read with [.get("KeySchema", [])]. *)
Record IndexDescription := mkIndexDescription {
  IndexName : string;
  KeySchema : option (list KeySchemaElement)
}.

Record TableDescription := mkTableDescription {
  TableStatus : option string;
  GlobalSecondaryIndexes : option (list IndexDescription);
  LocalSecondaryIndexes : option (list IndexDescription)
}.

(** The response of [describe_table]. *)
Record DescribeTableOutput := mkDescribeTableOutput { Table : option TableDescription }.

Record IndexSpec := mkIndexSpec {
  spec_IndexName : string;
  spec_KeySchema : list KeySchemaElement;
  spec_ProjectionType : string
}.

(** The request of [create_table]. *)
Record CreateTableInput := mkCreateTableInput {
  req_TableName : string;
  req_AttributeDefinitions : list (string * string);
  req_KeySchema : list KeySchemaElement;
  req_GlobalSecondaryIndexes : list IndexSpec;
  req_LocalSecondaryIndexes : list IndexSpec;
  req_BillingMode : string
}.

#[global] Instance KeySchemaElement_eq_dec : EqDecision KeySchemaElement.
Proof. solve_decision. Defined.
#[global] Instance IndexSpec_eq_dec : EqDecision IndexSpec.
Proof. solve_decision. Defined.

Definition ResourceNotFoundException : string := "ResourceNotFoundException".

(** ** Helpers of the script *)

Definition add_index_keys (item : Item) (item_type pk sk : string) (lsi1sk : option string)
  : Item :=
  let item := <["GSI1PK" := AStr ("TYPE#" +:+ item_type)]> item in
  let item := <["GSI1SK" := AStr (pk +:+ "#" +:+ sk)]> item in
  <["LSI1SK" := AStr (match lsi1sk with Some s => s | None => sk end)]> item.

(** The dict comprehension [{k["KeyType"]: k["AttributeName"] for k in ...}]:
    a later element overwrites an earlier one of the same key type. *)
Definition index_key_schema (index : IndexDescription) : gmap string string :=
  foldl (fun m k => <[KeyType k := AttributeName k]> m) ∅ (default [] (KeySchema index)).

(** [{g["IndexName"]: g for g in indexes}] *)
Definition by_index_name (indexes : list IndexDescription) : gmap string IndexDescription :=
  foldl (fun m g => <[IndexName g := g]> m) ∅ indexes.

Definition GSI1_schema : gmap string string := <["RANGE" := "GSI1SK"]> {["HASH" := "GSI1PK"]}.
Definition LSI1_schema : gmap string string := <["RANGE" := "LSI1SK"]> {["HASH" := "PK"]}.

(** [not idx or index_key_schema(idx) != expected] *)
Definition index_mismatch (idx : option IndexDescription) (expected : gmap string string) : bool :=
  match idx with
  | None => true
  | Some i => bool_decide (index_key_schema i ≠ expected)
  end.

Definition missing_indexes (desc : DescribeTableOutput) : list string :=
  let gsis := by_index_name (default [] (Table desc ≫= GlobalSecondaryIndexes)) in
  let lsis := by_index_name (default [] (Table desc ≫= LocalSecondaryIndexes)) in
  let missing : list string := [] in
  let missing :=
    if index_mismatch (gsis !! "GSI1") GSI1_schema then missing ++ ["GSI1"] else missing in
  let missing :=
    if index_mismatch (lsis !! "LSI1") LSI1_schema then missing ++ ["LSI1"] else missing in
  missing.

(** The request issued by [ensure_table]. *)
Definition table_request (table_name : string) : CreateTableInput :=
  {| req_TableName := table_name;
     req_AttributeDefinitions :=
       [("PK", "S"); ("SK", "S"); ("GSI1PK", "S"); ("GSI1SK", "S"); ("LSI1SK", "S")];
     req_KeySchema := [mkKey "PK" "HASH"; mkKey "SK" "RANGE"];
     req_GlobalSecondaryIndexes :=
       [mkIndexSpec "GSI1" [mkKey "GSI1PK" "HASH"; mkKey "GSI1SK" "RANGE"] "ALL"];
     req_LocalSecondaryIndexes :=
       [mkIndexSpec "LSI1" [mkKey "PK" "HASH"; mkKey "LSI1SK" "RANGE"] "ALL"];
     req_BillingMode := "PAY_PER_REQUEST" |}.

(** ** The environment

    What the script calls and does not define.  A service call answers with
    an error code, which botocore raises as [ClientError], or with its
    result; every call may change the world.  [env_put_item] is
    [put_item] of the table's batch writer and [env_writer_exit] the flush
    at the end of the [with] block.  [env_clock] is the system clock in
    microseconds since the epoch, read by [time.time()] and
    [datetime.now(timezone.utc)]; [env_random] is one draw of the random
    source. *)
Record Env (W : Type) := mkEnv {
  env_describe_table : string → W → (string + DescribeTableOutput) * W;
  env_delete_table : string → W → option string * W;
  env_create_table : CreateTableInput → W → option string * W;
  env_put_item : string → Item → W → option string * W;
  env_writer_exit : string → W → option string * W;
  env_clock : W → Z;
  env_sleep : Z → W → W;
  env_random : W → Z * W
}.
Arguments env_describe_table {W}.
Arguments env_delete_table {W}.
Arguments env_create_table {W}.
Arguments env_put_item {W}.
Arguments env_writer_exit {W}.
Arguments env_clock {W}.
Arguments env_sleep {W}.
Arguments env_random {W}.

(** The requests issued to the service, each with its answer. *)
Inductive event :=
| EvDescribe (table_name : string) (r : string + DescribeTableOutput)
| EvDelete (table_name : string) (r : option string)
| EvCreate (req : CreateTableInput) (r : option string)
| EvPut (table_name : string) (item : Item) (r : option string)
| EvWriterExit (table_name : string) (r : option string).

Inductive exn :=
| ClientError (code : string)
| RuntimeError (msg : string)
| TimeoutError (msg : string)
| KeyError (key : string)
| IndexError
| ValueError.

(** The result of a computation: a value, a raised exception, or a polling
    loop that used up its iteration budget. *)
Inductive result (A : Type) :=
| Ret (a : A)
| Raise (e : exn)
| OutOfFuel.
Arguments Ret {A}.
Arguments Raise {A}.
Arguments OutOfFuel {A}.

Record state (W : Type) := mkState { world : W; trace : list event }.
Arguments mkState {W}.
Arguments world {W}.
Arguments trace {W}.

Definition M (W A : Type) : Type := state W → result A * state W.

Definition ret {W A} (a : A) : M W A := fun s => (Ret a, s).

Definition bind {W A B} (m : M W A) (k : A → M W B) : M W B :=
  fun s => match m s with
           | (Ret a, s') => k a s'
           | (Raise e, s') => (Raise e, s')
           | (OutOfFuel, s') => (OutOfFuel, s')
           end.

Definition raise {W A} (e : exn) : M W A := fun s => (Raise e, s).

Definition out_of_fuel {W A} : M W A := fun s => (OutOfFuel, s).

(** [try: m  except: h] *)
Definition catch {W A} (m : M W A) (h : exn → M W A) : M W A :=
  fun s => match m s with
           | (Raise e, s') => h e s'
           | r => r
           end.

Declare Scope script_scope.
Delimit Scope script_scope with script.
Notation "x <- m ;; k" := (bind m (fun x => k))
  (at level 100, m at next level, right associativity) : script_scope.
Notation "m ;;; k" := (bind m (fun _ => k))
  (at level 100, right associativity) : script_scope.
Local Open Scope script_scope.

(** [except ClientError as e: if code != "ResourceNotFoundException": raise],
    with [absent] the value of the block when the code is that one. *)
Definition unless_not_found {W A} (absent : M W A) (e : exn) : M W A :=
  match e with
  | ClientError code =>
      if bool_decide (code ≠ ResourceNotFoundException) then raise e else absent
  | _ => raise e
  end.

(** [d[key]] on a dict that may lack the key. *)
Definition subscript {W A} (key : string) (o : option A) : M W A :=
  match o with
  | Some a => ret a
  | None => raise (KeyError key)
  end.

(** [for i in range(lo, lo + n)], threading the variables [a] the body updates. *)
Fixpoint for_loop {W A} (body : Z → A → M W A) (i : Z) (n : nat) (a : A) : M W A :=
  match n with
  | O => ret a
  | S n => a' <- body i a ;; for_loop body (i + 1) n a'
  end.

Definition for_range {W A} (lo hi : Z) (body : Z → A → M W A) (a : A) : M W A :=
  for_loop body lo (Z.to_nat (hi - lo)) a.

(** ** Constants and small helpers of the generators *)

Definition ARTIST_NAMES : list string :=
  ["The Meteors"; "Sonic Avenue"; "Neon Fields"; "Crimson Tide"; "Blue Horizon";
   "The Wanderers"; "Velvet Echo"; "Golden Owls"; "Stone Harbor"; "Silver Lining";
   "Paper Tigers"; "Echo Beach"; "Analog Youth"; "Glass Engine"; "Static Ritual"].
Definition ALBUM_WORDS : list string :=
  ["Echoes"; "Horizons"; "Reflections"; "Neon"; "Fragments"; "Voyager";
   "Midnight"; "Catalyst"; "Blueprints"; "Origins"; "Spectra"; "Signals"].
Definition GENRES : list string :=
  ["Rock"; "Pop"; "Indie"; "Jazz"; "Blues"; "Classical"; "Electronic"; "Hip-Hop"].
Definition INSTRUMENTS : list string :=
  ["Guitar"; "Bass"; "Drums"; "Keys"; "Synth"; "Violin"; "Sax"; "Trumpet"].
Definition CITIES : list string :=
  ["Seattle"; "Berlin"; "Madrid"; "Reykjavik"; "Austin"; "Dublin"; "Sydney"; "Tokyo"].

(** [string.ascii_uppercase + string.digits] *)
Definition id_alphabet : list ascii :=
  list_ascii_of_string "ABCDEFGHIJKLMNOPQRSTUVWXYZ0123456789".

(** [str.lower] and [str.replace] of one character, on ASCII text. *)
Definition ascii_lower (c : ascii) : ascii :=
  let n := nat_of_ascii c in
  if (65 <=? n)%nat && (n <=? 90)%nat then ascii_of_nat (n + 32) else c.

Fixpoint string_map (f : ascii → ascii) (s : string) : string :=
  match s with
  | EmptyString => EmptyString
  | String c s => String (f c) (string_map f s)
  end.

Definition py_lower (s : string) : string := string_map ascii_lower s.

Definition py_replace_char (old new : ascii) (s : string) : string :=
  string_map (fun c => if Ascii.eqb c old then new else c) s.

(** A dict literal. *)
Definition dict (l : list (string * AttrValue)) : Item := list_to_map l.

(** The items [seed_data] builds: each dict literal followed by its call of
    [add_index_keys]. *)

Definition artist_item (artist_id name city : string) (formed : Z) (members : list string)
  : Item :=
  let item := dict [("PK", AStr artist_id);
                    ("SK", AStr artist_id);
                    ("type", AStr "Artist");
                    ("name", AStr name);
                    ("city", AStr city);
                    ("formed", AInt formed);
                    ("members", AList members)] in
  let artist_lsi := "PROFILE#" +:+ name in
  add_index_keys item "Artist" artist_id artist_id (Some artist_lsi).

Definition album_item (artist_id album_id title : string) (year : Z) (genre : string) : Item :=
  let item := dict [("PK", AStr artist_id);
                    ("SK", AStr album_id);
                    ("type", AStr "Album");
                    ("album_id", AStr album_id);
                    ("title", AStr title);
                    ("year", AInt year);
                    ("genre", AStr genre)] in
  let album_lsi := "ALBUM#" +:+ py_format_0d 4 year +:+ "#" +:+ album_id in
  add_index_keys item "Album" artist_id album_id (Some album_lsi).

Definition track_item (album_id track_id name : string) (milliseconds bytes : Z)
           (unit_price : Decimal) : Item :=
  let item := dict [("PK", AStr album_id);
                    ("SK", AStr track_id);
                    ("type", AStr "Track");
                    ("track_id", AStr track_id);
                    ("name", AStr name);
                    ("milliseconds", AInt milliseconds);
                    ("bytes", AInt bytes);
                    ("unit_price", ADec unit_price)] in
  let track_lsi := "TRACK#" +:+ name +:+ "#" +:+ track_id in
  add_index_keys item "Track" album_id track_id (Some track_lsi).

Definition customer_item (cust_id name email city : string) : Item :=
  let item := dict [("PK", AStr cust_id);
                    ("SK", AStr "PROFILE");
                    ("type", AStr "Customer");
                    ("name", AStr name);
                    ("email", AStr email);
                    ("city", AStr city)] in
  let customer_lsi := "PROFILE#" +:+ name in
  add_index_keys item "Customer" cust_id "PROFILE" (Some customer_lsi).

(** The invoice as first inserted. *)
Definition invoice_item (cust_id inv_id : string) (ts : Z) (invoice_lsi : string) : Item :=
  let item := dict [("PK", AStr cust_id);
                    ("SK", AStr inv_id);
                    ("type", AStr "Invoice");
                    ("invoice_id", AStr inv_id);
                    ("ts", AInt ts)] in
  add_index_keys item "Invoice" cust_id inv_id (Some invoice_lsi).

(** The invoice of the final upsert, with its total. *)
Definition invoice_total_item (cust_id inv_id : string) (ts : Z) (total : Decimal)
           (invoice_lsi : string) : Item :=
  let item := dict [("PK", AStr cust_id);
                    ("SK", AStr inv_id);
                    ("type", AStr "Invoice");
                    ("invoice_id", AStr inv_id);
                    ("ts", AInt ts);
                    ("total", ADec total)] in
  add_index_keys item "Invoice" cust_id inv_id (Some invoice_lsi).

Definition line_item (inv_id : string) (line_ix : Z) (trk : string)
           (unit_price quantity : Decimal) (price_cents : Z) : Item :=
  let item := dict [("PK", AStr inv_id);
                    ("SK", AStr ("LINE#" +:+ py_str_int line_ix));
                    ("type", AStr "InvoiceLine");
                    ("track_id", AStr trk);
                    ("unit_price", ADec unit_price);
                    ("quantity", ADec quantity)] in
  let line_lsi := "PRICE#" +:+ py_format_0d 5 price_cents
                           +:+ "#LINE#" +:+ py_format_0d 3 line_ix in
  add_index_keys item "InvoiceLine" inv_id ("LINE#" +:+ py_str_int line_ix) (Some line_lsi).

(** The float literals [0.49] and [1.99]. *)
Definition price_lo : Q := binary64 (49 # 100).
Definition price_hi : Q := binary64 (199 # 100).

(** The three lists of identifiers [seed_data] accumulates. *)
Record Ids := mkIds {
  artist_ids : list string;
  album_ids : list string;
  track_ids : list string
}.

(** The six size parameters. *)
Record Sizes := mkSizes {
  artists : Z;
  albums_per_artist : Z;
  tracks_per_album : Z;
  customers : Z;
  invoices_per_customer : Z;
  lines_per_invoice : Z
}.

(** The command line, as [main] uses it ([--endpoint-url] and [--region]
    select the service, which is the environment here). *)
Record Args := mkArgs {
  arg_table : string;
  arg_recreate : bool;
  arg_recreate_if_missing_indexes : bool;
  arg_skip_if_exists : bool;
  arg_sizes : Sizes
}.

(** How the process ends. *)
Inductive outcome :=
| Exit (code : Z)
| Uncaught (e : exn)
| Hang.

Definition exit_code (o : outcome) : option Z :=
  match o with
  | Exit c => Some c
  | Uncaught _ => Some 1
  | Hang => None
  end.

Section Script.
Context {W : Type} (E : Env W).

Definition call {R A} (f : W → R * W) (ev : R → event) (k : R → result A) : M W A :=
  fun s => let '(r, w) := f (world s) in
           (k r, mkState w (trace s ++ [ev r])).

Definition client_result (r : option string) : result unit :=
  match r with
  | Some code => Raise (ClientError code)
  | None => Ret tt
  end.

Definition describe_table (table_name : string) : M W DescribeTableOutput :=
  call (env_describe_table E table_name) (EvDescribe table_name)
       (fun r => match r with inl code => Raise (ClientError code) | inr d => Ret d end).

Definition delete_table (table_name : string) : M W unit :=
  call (env_delete_table E table_name) (EvDelete table_name) client_result.

Definition create_table (req : CreateTableInput) : M W unit :=
  call (env_create_table E req) (EvCreate req) client_result.

Definition put_item (table_name : string) (item : Item) : M W unit :=
  call (env_put_item E table_name item) (EvPut table_name item) client_result.

Definition writer_exit (table_name : string) : M W unit :=
  call (env_writer_exit E table_name) (EvWriterExit table_name) client_result.

(** [time.time()], in microseconds *)
Definition time_time : M W Z := fun s => (Ret (env_clock E (world s)), s).

(** [time.sleep], in microseconds *)
Definition time_sleep (us : Z) : M W unit :=
  fun s => (Ret tt, mkState (env_sleep E us (world s)) (trace s)).

Definition random_draw : M W Z :=
  fun s => let '(d, w) := env_random E (world s) in (Ret d, mkState w (trace s)).

(** *** Waiting for a table state *)

(** One round of the [try] block of [wait_table_active]: [true] when the
    function returns. *)
Definition poll_active (table_name : string) : M W bool :=
  catch (desc <- describe_table table_name ;;
         table <- subscript "Table" (Table desc) ;;
         status <- subscript "TableStatus" (TableStatus table) ;;
         ret (bool_decide (status = "ACTIVE")))
        (unless_not_found (ret false)).

Fixpoint wait_table_active_loop (fuel : nat) (table_name : string) (timeout_s start : Z)
  : M W unit :=
  match fuel with
  | O => out_of_fuel
  | S fuel =>
      finished <- poll_active table_name ;;
      if finished : bool then ret tt else
      now <- time_time ;;
      if timeout_s * 1000000 <? now - start
      then raise (TimeoutError
                    ("Table " +:+ table_name +:+ " not ACTIVE after "
                              +:+ py_str_int timeout_s +:+ "s"))
      else time_sleep 500000 ;;;
           wait_table_active_loop fuel table_name timeout_s start
  end.

Definition wait_table_active (fuel : nat) (table_name : string) (timeout_s : Z) : M W unit :=
  start <- time_time ;;
  wait_table_active_loop fuel table_name timeout_s start.

(** One round of the [try] block of [wait_deleted]: [true] when the
    function returns. *)
Definition poll_deleted (table_name : string) : M W bool :=
  catch (describe_table table_name ;;; ret false)
        (unless_not_found (ret true)).

Fixpoint wait_deleted_loop (fuel : nat) (table_name : string) (timeout_s start : Z)
  : M W unit :=
  match fuel with
  | O => out_of_fuel
  | S fuel =>
      finished <- poll_deleted table_name ;;
      if finished : bool then ret tt else
      now <- time_time ;;
      if timeout_s * 1000000 <? now - start
      then raise (TimeoutError
                    ("Table " +:+ table_name +:+ " not deleted after "
                              +:+ py_str_int timeout_s +:+ "s"))
      else time_sleep 500000 ;;;
           wait_deleted_loop fuel table_name timeout_s start
  end.

Definition wait_deleted (fuel : nat) (table_name : string) (timeout_s : Z) : M W unit :=
  start <- time_time ;;
  wait_deleted_loop fuel table_name timeout_s start.

(** *** ensure_table

    [desc] is [Some] exactly when the source's [exists] is set by the first
    [describe_table]. *)
Definition ensure_table (fuel : nat) (table_name : string)
           (recreate recreate_if_missing_indexes : bool) : M W bool :=
  desc <- catch (d <- describe_table table_name ;; ret (Some d))
                (unless_not_found (ret None)) ;;
  let exists_ := bool_decide (is_Some desc) in
  exists_ <-
    match desc with
    | Some desc =>
        if negb recreate then
          let missing := missing_indexes desc in
          if bool_decide (missing ≠ []) then
            let msg := "Existing table " +:+ table_name +:+ " missing indexes: "
                                         +:+ py_join ", " missing +:+ "." in
            if recreate_if_missing_indexes then
              delete_table table_name ;;;
              wait_deleted fuel table_name 60 ;;;
              ret false
            else
              raise (RuntimeError
                       (msg +:+ " Re-run with --recreate (or --recreate-if-missing-indexes)."))
          else ret exists_
        else ret exists_
    | None => ret exists_
    end ;;
  (if exists_ && recreate
   then delete_table table_name ;;; wait_deleted fuel table_name 60
   else ret tt) ;;;
  (if negb exists_ || recreate
   then create_table (table_request table_name)
   else ret tt) ;;;
  wait_table_active fuel table_name 60 ;;;
  ret exists_.

(** *** The [random] module, over the draws of the environment *)

Definition random_below (n : Z) : M W Z :=
  d <- random_draw ;; ret (d mod n).

(** [random.choice(seq)] *)
Definition random_choice {A} (seq : list A) : M W A :=
  match seq with
  | [] => raise IndexError
  | x :: _ => i <- random_below (Z.of_nat (length seq)) ;; ret (nth (Z.to_nat i) seq x)
  end.

(** [random.choices(seq, k=k)] *)
Fixpoint random_choices {A} (seq : list A) (k : nat) : M W (list A) :=
  match k with
  | O => ret []
  | S k => x <- random_choice seq ;; xs <- random_choices seq k ;; ret (x :: xs)
  end.

(** [random.randint(a, b)] *)
Definition random_randint (a b : Z) : M W Z :=
  d <- random_below (b - a + 1) ;; ret (a + d).

(** [random.random()]: a multiple of [2^-53] in [[0, 1)]. *)
Definition random_random : M W Q :=
  d <- random_below (2 ^ 53) ;; ret (d # Z.to_pos (2 ^ 53)).

(** [random.uniform(a, b)] is [a + (b - a) * random()]. *)
Definition random_uniform (a b : Q) : M W Q :=
  r <- random_random ;; ret (fadd a (fmul (fsub b a) r)).

(** [random.sample(population, k=k)]: [k] picks without replacement; the
    last element of the pool moves into the place of the one picked. *)
Fixpoint random_sample {A} (pool : list A) (k : nat) : M W (list A) :=
  match k with
  | O => ret []
  | S k =>
      match pool with
      | [] => raise ValueError
      | x :: _ =>
          let n := length pool in
          j <- random_below (Z.of_nat n) ;;
          let j := Z.to_nat j in
          let pool' := take (n - 1) (<[j := nth (n - 1) pool x]> pool) in
          xs <- random_sample pool' k ;;
          ret (nth j pool x :: xs)
      end
  end.

(** *** Generators *)

Definition rand_id (prefix : string) : M W string :=
  cs <- random_choices id_alphabet 8 ;;
  ret (prefix +:+ "#" +:+ string_of_list_ascii cs).

Definition rand_title : M W string :=
  a <- random_choice ALBUM_WORDS ;;
  b <- random_choice ALBUM_WORDS ;;
  ret (a +:+ " " +:+ b).

Definition rand_track_name : M W string :=
  a <- random_choice ["Lost"; "Found"; "Faded"; "Bright"; "Hidden"; "Open"] ;;
  b <- random_choice ["Waves"; "Lines"; "Skies"; "Rooms"; "Streets"; "Windows"] ;;
  ret (a +:+ " " +:+ b).

Definition rand_name : M W string :=
  first <- random_choice ["Alex"; "Sam"; "Charlie"; "Taylor"; "Morgan"; "Riley"; "Jordan";
                          "Casey"; "Avery"; "Quinn"] ;;
  last <- random_choice ["Smith"; "Lee"; "Martinez"; "Kim"; "Nguyen"; "Garcia"; "Patel";
                         "Cohen"; "Novak"; "Khan"] ;;
  ret (first +:+ " " +:+ last).

Definition rand_email (name : string) : M W string :=
  let handle := py_replace_char " " "." (py_lower name) in
  domain <- random_choice ["example.com"; "mail.test"; "demo.local"] ;;
  ret (handle +:+ "@" +:+ domain).

(** *** seed_data

    The bodies of the nested loops, innermost first.  [b] is the table of the
    batch writer, [ids] are the three lists of generated identifiers and
    [pool] is [track_ids] as the customer loop finds it. *)

Definition seed_track (b album_id : string) (ids : Ids) : M W Ids :=
  track_id <- rand_id "TRACK" ;;
  let ids := mkIds (artist_ids ids) (album_ids ids) (track_ids ids ++ [track_id]) in
  name <- rand_track_name ;;
  milliseconds <- random_randint 90000 360000 ;;
  bytes <- random_randint 512000 8000000 ;;
  price <- random_uniform price_lo price_hi ;;
  let unit_price := Decimal_of_float (py_round2 price) in
  let item := track_item album_id track_id name milliseconds bytes unit_price in
  put_item b item ;;;
  ret ids.

Definition seed_album (b artist_id : string) (tracks_per_album : Z) (ids : Ids) : M W Ids :=
  album_id <- rand_id "ALBUM" ;;
  let ids := mkIds (artist_ids ids) (album_ids ids ++ [album_id]) (track_ids ids) in
  title <- rand_title ;;
  year <- random_randint 1995 2024 ;;
  genre <- random_choice GENRES ;;
  let item := album_item artist_id album_id title year genre in
  put_item b item ;;;
  for_range 0 tracks_per_album (fun _ => seed_track b album_id) ids.

Definition seed_artist (b : string) (albums_per_artist tracks_per_album : Z) (ids : Ids)
  : M W Ids :=
  artist_id <- rand_id "ARTIST" ;;
  let ids := mkIds (artist_ids ids ++ [artist_id]) (album_ids ids) (track_ids ids) in
  name <- random_choice ARTIST_NAMES ;;
  city <- random_choice CITIES ;;
  formed <- random_randint 1970 2020 ;;
  k <- random_randint 2 4 ;;
  members <- random_sample INSTRUMENTS (Z.to_nat k) ;;
  let item := artist_item artist_id name city formed members in
  put_item b item ;;;
  for_range 0 albums_per_artist (fun _ => seed_album b artist_id tracks_per_album) ids.

Definition seed_line (b inv_id : string) (pool : list string) (line_ix : Z) (total : Q)
  : M W Q :=
  trk <- (if bool_decide (pool ≠ []) then random_choice pool else rand_id "TRACK") ;;
  x <- random_uniform price_lo price_hi ;;
  let price := py_round2 x in
  qty <- random_randint 1 3 ;;
  let total := fadd total (fmul price (float_of_int qty)) in
  let price_cents := py_round (fmul price (float_of_int 100)) in
  let item := line_item inv_id line_ix trk (Decimal_of_float price) (Decimal_of_int qty)
                        price_cents in
  put_item b item ;;;
  ret total.

Definition seed_invoice (b cust_id : string) (pool : list string) (lines_per_invoice : Z)
  : M W unit :=
  inv_id <- rand_id "INVOICE" ;;
  now <- time_time ;;
  days <- random_randint 0 365 ;;
  let dt := now - days * 86400000000 in
  let ts := py_int (int_truediv dt 1000000) in
  let invoice_lsi := "INVOICE#" +:+ py_format_0d 10 ts +:+ "#" +:+ inv_id in
  let total := 0%Q in
  let item := invoice_item cust_id inv_id ts invoice_lsi in
  put_item b item ;;;
  total <- for_range 1 (lines_per_invoice + 1) (seed_line b inv_id pool) total ;;
  let item := invoice_total_item cust_id inv_id ts (Decimal_of_float (py_round2 total))
                                 invoice_lsi in
  put_item b item.

Definition seed_customer (b : string) (pool : list string)
           (invoices_per_cust lines_per_invoice : Z) : M W unit :=
  cust_id <- rand_id "CUSTOMER" ;;
  name <- rand_name ;;
  email <- rand_email name ;;
  city <- random_choice CITIES ;;
  let item := customer_item cust_id name email city in
  put_item b item ;;;
  for_range 0 invoices_per_cust
            (fun _ _ => seed_invoice b cust_id pool lines_per_invoice) tt.

(** [with table.batch_writer(...) as b: body]: the writer flushes on the
    way out, also when the body raised; an error of that flush replaces
    the exception of the body. *)
Definition with_batch_writer {A} (b : string) (body : M W A) : M W A :=
  fun s => match body s with
           | (Ret a, s') => (writer_exit b ;;; ret a) s'
           | (Raise e, s') => (writer_exit b ;;; raise e) s'
           | (OutOfFuel, s') => (OutOfFuel, s')
           end.

Definition seed_data (table : string) (sizes : Sizes) : M W unit :=
  with_batch_writer table (
    ids <- for_range 0 (artists sizes)
             (fun _ => seed_artist table (albums_per_artist sizes) (tracks_per_album sizes))
             (mkIds [] [] []) ;;
    for_range 0 (customers sizes)
      (fun _ _ => seed_customer table (track_ids ids)
                                (invoices_per_customer sizes) (lines_per_invoice sizes)) tt).

(** *** main

    [sys.exit(1)] and the return from [main] end the process with that
    code; an exception that [main] does not catch ends it with a
    traceback. *)
Definition main (fuel : nat) (args : Args) : state W → outcome * state W :=
  fun s =>
    match ensure_table fuel (arg_table args) (arg_recreate args)
                       (arg_recreate_if_missing_indexes args) s with
    | (Raise (ClientError _), s') => (Exit 1, s')
    | (Raise (RuntimeError _), s') => (Exit 1, s')
    | (Raise (TimeoutError _), s') => (Exit 1, s')
    | (Raise e, s') => (Uncaught e, s')
    | (OutOfFuel, s') => (Hang, s')
    | (Ret existed, s') =>
        if existed && arg_skip_if_exists args && negb (arg_recreate args)
        then (Exit 0, s')
        else match seed_data (arg_table args) (arg_sizes args) s' with
             | (Ret _, s'') => (Exit 0, s'')
             | (Raise e, s'') => (Uncaught e, s'')
             | (OutOfFuel, s'') => (Hang, s'')
             end
    end.

End Script.

(** ** A simulated service

    A small in-memory environment on which the script can be run: the tables
    of the service with their items, a clock, and a tape of random draws.  A
    created table is ACTIVE at once and carries the indexes of the request;
    a deleted table is gone at once. *)
Module Sim.

Record t := mk {
  tables : gmap string TableDescription;
  items : list (string * Item);
  now : Z;
  tape : list Z
}.

Definition describe_index (i : IndexSpec) : IndexDescription :=
  mkIndexDescription (spec_IndexName i) (Some (spec_KeySchema i)).

Definition describe (name : string) (w : t) : (string + DescribeTableOutput) * t :=
  match tables w !! name with
  | Some d => (inr (mkDescribeTableOutput (Some d)), w)
  | None => (inl ResourceNotFoundException, w)
  end.

Definition delete (name : string) (w : t) : option string * t :=
  match tables w !! name with
  | Some _ => (None, mk (base.delete name (tables w)) (items w) (now w) (tape w))
  | None => (Some ResourceNotFoundException, w)
  end.

Definition create (req : CreateTableInput) (w : t) : option string * t :=
  match tables w !! req_TableName req with
  | Some _ => (Some "ResourceInUseException", w)
  | None =>
      let d := mkTableDescription (Some "ACTIVE")
                 (Some (describe_index <$> req_GlobalSecondaryIndexes req))
                 (Some (describe_index <$> req_LocalSecondaryIndexes req)) in
      (None, mk (<[req_TableName req := d]> (tables w)) (items w) (now w) (tape w))
  end.

Definition put (name : string) (item : Item) (w : t) : option string * t :=
  (None, mk (tables w) (items w ++ [(name, item)]) (now w) (tape w)).

Definition flush (name : string) (w : t) : option string * t := (None, w).

Definition sleep (us : Z) (w : t) : t :=
  mk (tables w) (items w) (now w + us) (tape w).

Definition draw (w : t) : Z * t :=
  match tape w with
  | [] => (0, w)
  | d :: tape' => (d, mk (tables w) (items w) (now w) tape')
  end.

Definition env : Env t :=
  {| env_describe_table := describe;
     env_delete_table := delete;
     env_create_table := create;
     env_put_item := put;
     env_writer_exit := flush;
     env_clock := now;
     env_sleep := sleep;
     env_random := draw |}.

(** A world with no table, at the given time. *)
Definition fresh (time : Z) (draws : list Z) : t := mk ∅ [] time draws.

(** A world whose table [name] exists without any secondary index. *)
Definition bare (name : string) (time : Z) (draws : list Z) : t :=
  mk {[name := mkTableDescription (Some "ACTIVE") None None]} [] time draws.

End Sim.

(** ** Observations on traces and items *)

(** The items of the put requests of a trace, in order. *)
Definition puts (tr : list event) : list Item :=
  omap (fun ev => match ev with EvPut _ item _ => Some item | _ => None end) tr.

(** The answer of the service to a request that writes; [None] is success. *)
Definition write_answer (ev : event) : option string :=
  match ev with
  | EvDescribe _ _ => None
  | EvDelete _ r | EvCreate _ r | EvPut _ _ r | EvWriterExit _ r => r
  end.

(** Every write of the trace was accepted. *)
Definition accepted (tr : list event) : Prop := Forall (fun ev => write_answer ev = None) tr.

(** A request that changes the service: anything but [describe_table]. *)
Definition is_write (ev : event) : bool :=
  match ev with
  | EvDescribe _ _ => false
  | _ => true
  end.

Definition attr_str (key : string) (item : Item) : option string :=
  match item !! key with
  | Some (AStr s) => Some s
  | _ => None
  end.

Definition attr_dec (key : string) (item : Item) : option Decimal :=
  match item !! key with
  | Some (ADec d) => Some d
  | _ => None
  end.

Definition item_type (item : Item) : option string := attr_str "type" item.

Definition has_type (t : string) (item : Item) : bool :=
  bool_decide (item_type item = Some t).

(** The primary key of an item. *)
Definition primary_key (item : Item) : option (string * string) :=
  pk ← attr_str "PK" item; sk ← attr_str "SK" item; Some (pk, sk).

(** The identifiers of the tracks among [items]. *)
Definition track_pool (items : list Item) : list string :=
  omap (fun item => if has_type "Track" item then attr_str "track_id" item else None) items.

(** What [rand_id prefix] can return. *)
Definition is_rand_id (prefix s : string) : Prop :=
  ∃ cs : list ascii,
    length cs = 8%nat ∧ Forall (fun c => c ∈ id_alphabet) cs ∧
    s = prefix +:+ "#" +:+ string_of_list_ascii cs.

(** ** Relational specifications

    What a computation can emit and return, whatever the environment answers:
    a predicate on the result and on the events appended to the trace. *)

Definition Spec (A : Type) : Type := result A → list event → Prop.

(** A computation followed by another one. *)
Definition seqS {A B} (S1 : Spec A) (S2 : A → Spec B) : Spec B :=
  fun r evs =>
    ∃ r1 evs1, S1 r1 evs1 ∧
      match r1 with
      | Ret a => ∃ evs2, S2 a r evs2 ∧ evs = evs1 ++ evs2
      | Raise e => r = Raise e ∧ evs = evs1
      | OutOfFuel => r = OutOfFuel ∧ evs = evs1
      end.

(** [n] rounds of a loop body, from index [i] and variables [a]. *)
Fixpoint loopS {A} (body : Z → A → Spec A) (i : Z) (n : nat) (a : A) : Spec A :=
  match n with
  | O => fun r evs => r = Ret a ∧ evs = []
  | S n => seqS (body i a) (loopS body (i + 1) n)
  end.

(** One put, then [a]. *)
Definition putS {A} (b : string) (item : Item) (a : A) : Spec A :=
  fun r evs =>
    ∃ pr, evs = [EvPut b item pr] ∧
          r = match pr with None => Ret a | Some code => Raise (ClientError code) end.

Definition add_track (ids : Ids) (track_id : string) : Ids :=
  mkIds (artist_ids ids) (album_ids ids) (track_ids ids ++ [track_id]).

Definition trackS (b album_id : string) (ids : Ids) : Spec Ids :=
  fun r evs =>
    ∃ track_id name milliseconds bytes unit_price,
      is_rand_id "TRACK" track_id ∧
      putS b (track_item album_id track_id name milliseconds bytes unit_price)
           (add_track ids track_id) r evs.

Definition albumS (b artist_id : string) (tracks_per_album : Z) (ids : Ids) : Spec Ids :=
  fun r evs =>
    ∃ album_id title year genre,
      is_rand_id "ALBUM" album_id ∧
      seqS (putS b (album_item artist_id album_id title year genre) tt)
           (fun _ =>
              loopS (fun _ => trackS b album_id) 0 (Z.to_nat tracks_per_album)
                    (mkIds (artist_ids ids) (album_ids ids ++ [album_id]) (track_ids ids)))
           r evs.

Definition artistS (b : string) (albums_per_artist tracks_per_album : Z) (ids : Ids) : Spec Ids :=
  fun r evs =>
    ∃ artist_id name city formed members,
      is_rand_id "ARTIST" artist_id ∧
      seqS (putS b (artist_item artist_id name city formed members) tt)
           (fun _ =>
              loopS (fun _ => albumS b artist_id tracks_per_album) 0
                    (Z.to_nat albums_per_artist)
                    (mkIds (artist_ids ids ++ [artist_id]) (album_ids ids) (track_ids ids)))
           r evs.

(** The float [random.uniform(0.49, 1.99)] returns on the draw [d]. *)
Definition uniform_price (d : Z) : Q :=
  fadd price_lo (fmul (fsub price_hi price_lo) (d # Z.to_pos (2 ^ 53))).

(** The track reference of a line: from the pool, or a placeholder when the
    pool is empty. *)
Definition track_ref (pool : list string) (trk : string) : Prop :=
  if bool_decide (pool ≠ []) then trk ∈ pool else is_rand_id "TRACK" trk.

Definition lineS (b inv_id : string) (pool : list string) (line_ix : Z) (total : Q) : Spec Q :=
  fun r evs =>
    ∃ trk d qty,
      track_ref pool trk ∧ 0 ≤ d < 2 ^ 53 ∧ 1 ≤ qty ≤ 3 ∧
      let price := py_round2 (uniform_price d) in
      putS b (line_item inv_id line_ix trk (Decimal_of_float price) (Decimal_of_int qty)
                        (py_round (fmul price (float_of_int 100))))
           (fadd total (fmul price (float_of_int qty))) r evs.

Definition invoiceS (b cust_id : string) (pool : list string) (lines_per_invoice : Z)
  : Spec unit :=
  fun r evs =>
    ∃ inv_id ts,
      is_rand_id "INVOICE" inv_id ∧
      let invoice_lsi := "INVOICE#" +:+ py_format_0d 10 ts +:+ "#" +:+ inv_id in
      seqS (putS b (invoice_item cust_id inv_id ts invoice_lsi) tt)
           (fun _ =>
              seqS (loopS (lineS b inv_id pool) 1 (Z.to_nat lines_per_invoice) 0%Q)
                   (fun total =>
                      putS b (invoice_total_item cust_id inv_id ts
                                (Decimal_of_float (py_round2 total)) invoice_lsi) tt))
           r evs.

Definition customerS (b : string) (pool : list string)
           (invoices_per_cust lines_per_invoice : Z) : Spec unit :=
  fun r evs =>
    ∃ cust_id name email city,
      is_rand_id "CUSTOMER" cust_id ∧
      seqS (putS b (customer_item cust_id name email city) tt)
           (fun _ =>
              loopS (fun _ _ => invoiceS b cust_id pool lines_per_invoice) 0
                    (Z.to_nat invoices_per_cust) tt)
           r evs.

(** The body of the [with] block of [seed_data]. *)
Definition seed_bodyS (table : string) (sizes : Sizes) : Spec unit :=
  seqS (loopS (fun _ => artistS table (albums_per_artist sizes) (tracks_per_album sizes)) 0
              (Z.to_nat (artists sizes)) (mkIds [] [] []))
       (fun ids =>
          loopS (fun _ _ => customerS table (track_ids ids)
                                      (invoices_per_customer sizes) (lines_per_invoice sizes))
                0 (Z.to_nat (customers sizes)) tt).

(** The block, then the flush of the writer. *)
Definition seedS (table : string) (sizes : Sizes) : Spec unit :=
  fun r evs =>
    ∃ r0 evs0 pr,
      seed_bodyS table sizes r0 evs0 ∧ r0 ≠ OutOfFuel ∧
      evs = evs0 ++ [EvWriterExit table pr] ∧
      r = match pr with None => r0 | Some code => Raise (ClientError code) end.

(** *** Waiting

    How a polling round reads the answer of [describe_table]: [Ret true]
    ends the wait, [Ret false] goes on polling, an exception leaves the
    wait. *)

Definition deleted_answer (a : string + DescribeTableOutput) : result bool :=
  match a with
  | inr _ => Ret false
  | inl code =>
      if bool_decide (code ≠ ResourceNotFoundException) then Raise (ClientError code)
      else Ret true
  end.

Definition active_answer (a : string + DescribeTableOutput) : result bool :=
  match a with
  | inr desc =>
      match Table desc with
      | None => Raise (KeyError "Table")
      | Some table =>
          match TableStatus table with
          | None => Raise (KeyError "TableStatus")
          | Some status => Ret (bool_decide (status = "ACTIVE"))
          end
      end
  | inl code =>
      if bool_decide (code ≠ ResourceNotFoundException) then Raise (ClientError code)
      else Ret false
  end.

(** A wait on [table_name] issues [describe_table] requests only.  It returns
    when an answer ends the wait, raises what an answer raises, raises
    [TimeoutError msg] after a round that goes on polling, or runs out of
    rounds; every answer before the last one goes on polling. *)
Definition waitS (classify : string + DescribeTableOutput → result bool)
           (table_name msg : string) : Spec unit :=
  fun r evs =>
    ∃ answers, evs = EvDescribe table_name <$> answers ∧
      match r with
      | Ret _ =>
          ∃ init a, answers = init ++ [a] ∧ classify a = Ret true ∧
                    Forall (fun a => classify a = Ret false) init
      | Raise e =>
          (e = TimeoutError msg ∧ answers ≠ [] ∧
           Forall (fun a => classify a = Ret false) answers) ∨
          (∃ init a, answers = init ++ [a] ∧ classify a = Raise e ∧
                     Forall (fun a => classify a = Ret false) init)
      | OutOfFuel => Forall (fun a => classify a = Ret false) answers
      end.

Definition not_deleted_msg (table_name : string) : string :=
  "Table " +:+ table_name +:+ " not deleted after " +:+ py_str_int 60 +:+ "s".

Definition not_active_msg (table_name : string) : string :=
  "Table " +:+ table_name +:+ " not ACTIVE after " +:+ py_str_int 60 +:+ "s".

(** Time does not run backwards while the service answers, and a sleep
    lasts at least as long as asked. *)
Record ClockLaws {W : Type} (E : Env W) : Prop := mkClockLaws {
  describe_clock : ∀ name w, env_clock E w ≤ env_clock E (env_describe_table E name w).2;
  sleep_clock : ∀ us w, env_clock E w + us ≤ env_clock E (env_sleep E us w)
}.

(** ** Runs against the simulated service *)

Definition music_args (recreate rimi skip : bool) (sizes : Sizes) : Args :=
  mkArgs "music" recreate rimi skip sizes.

(** The draws of a run of the small sizes: all zero, but for the first
    character of the second artist, album and track identifiers. *)
Definition demo_tape : list Z :=
  replicate 39 0 ++ [1] ++ replicate 13 0 ++ [1] ++ replicate 11 0 ++ [1].

Definition demo_world : Sim.t := Sim.fresh 1700000000000000 demo_tape.

Definition demo_seed : result unit * state Sim.t :=
  seed_data Sim.env "music" (mkSizes 2 1 1 1 1 2) (mkState demo_world []).

Definition demo_items : list Item := puts (trace demo_seed.2).

(** The last put of that run, the invoice with its total, and its first
    invoice line. *)
Definition demo_upsert : Item := default ∅ (demo_items !! 10%nat).

Definition demo_line : Item := default ∅ (demo_items !! 8%nat).

(** The table left by a first run of the process, and its description. *)
Definition first_run : outcome * state Sim.t :=
  main Sim.env 122 (music_args false false false (mkSizes 2 1 1 1 1 2)) (mkState demo_world []).

Definition seeded_world : Sim.t := world first_run.2.

Definition bare_description : DescribeTableOutput :=
  mkDescribeTableOutput (Some (mkTableDescription (Some "ACTIVE") None None)).

Definition seeded_description : DescribeTableOutput :=
  mkDescribeTableOutput
    (Some (mkTableDescription (Some "ACTIVE")
             (Some (Sim.describe_index <$> req_GlobalSecondaryIndexes (table_request "music")))
             (Some (Sim.describe_index <$> req_LocalSecondaryIndexes (table_request "music"))))).

(** * Proofs *)

(** ** The computations meet their relational specifications *)

Section Emits.
Context {W : Type} (E : Env W).

(** [m] appends to the trace events that, with its result, satisfy [Φ]. *)
Definition emits {A} (m : M W A) (Φ : Spec A) : Prop :=
  ∀ s, ∃ evs, trace (m s).2 = trace s ++ evs ∧ Φ (m s).1 evs.

(** [m] issues no request and returns a value satisfying [P]. *)
Definition silent {A} (m : M W A) (P : A → Prop) : Prop :=
  emits m (fun r evs => evs = [] ∧ ∃ a, r = Ret a ∧ P a).

Lemma emits_mono {A} (m : M W A) (Ψ Φ : Spec A) :
  emits m Ψ → (∀ r evs, Ψ r evs → Φ r evs) → emits m Φ.
Proof.
  intros Hm HΨ s. destruct (Hm s) as (evs & Htr & H). exists evs. auto.
Qed.

Lemma emits_ret {A} (a : A) (Φ : Spec A) : Φ (Ret a) [] → emits (ret a) Φ.
Proof. intros H s. exists []. cbn. rewrite app_nil_r. auto. Qed.

Lemma emits_bind {A B} (m : M W A) (k : A → M W B) (S1 : Spec A) (S2 : A → Spec B) :
  emits m S1 → (∀ a, emits (k a) (S2 a)) → emits (bind m k) (seqS S1 S2).
Proof.
  intros Hm Hk s. unfold bind. destruct (Hm s) as (evs1 & Htr1 & H1).
  destruct (m s) as [[a|e|] s1]; cbn in *.
  - destruct (Hk a s1) as (evs2 & Htr2 & H2).
    exists (evs1 ++ evs2). rewrite Htr2, Htr1, app_assoc. split; [done|].
    exists (Ret a), evs1. split; [done|]. by exists evs2.
  - exists evs1. split; [done|]. by exists (Raise e), evs1.
  - exists evs1. split; [done|]. by exists OutOfFuel, evs1.
Qed.

Lemma silent_ret {A} (a : A) (P : A → Prop) : P a → silent (ret a) P.
Proof. intros H. apply emits_ret. eauto. Qed.

Lemma silent_mono {A} (m : M W A) (P Q : A → Prop) :
  silent m P → (∀ a, P a → Q a) → silent m Q.
Proof.
  intros Hm HPQ. eapply emits_mono; [exact Hm|].
  intros r evs (-> & a & -> & Ha). eauto.
Qed.

(** A silent computation in front of another one leaves its events alone. *)
Lemma emits_bind_silent {A B} (m : M W A) (k : A → M W B) (P : A → Prop) (Φ : Spec B) :
  silent m P → (∀ a, P a → emits (k a) Φ) → emits (bind m k) Φ.
Proof.
  intros Hm Hk s. unfold bind. destruct (Hm s) as (evs1 & Htr1 & -> & a & Hr & Ha).
  destruct (m s) as [r s1]; cbn in *. subst r.
  destruct (Hk a Ha s1) as (evs2 & Htr2 & H2).
  exists evs2. rewrite Htr2, Htr1, app_nil_r. done.
Qed.

Lemma silent_bind {A B} (m : M W A) (k : A → M W B) (P : A → Prop) (Q : B → Prop) :
  silent m P → (∀ a, P a → silent (k a) Q) → silent (bind m k) Q.
Proof. apply emits_bind_silent. Qed.

Lemma emits_for_loop {A} (body : Z → A → M W A) (S : Z → A → Spec A) :
  (∀ i a, emits (body i a) (S i a)) →
  ∀ n i a, emits (for_loop body i n a) (loopS S i n a).
Proof.
  intros Hbody. induction n as [|n IH]; intros i a; cbn.
  - by apply emits_ret.
  - apply emits_bind; [apply Hbody|]. intros a'. apply IH.
Qed.

Lemma emits_put_item {A} (b : string) (item : Item) (a : A) (k : M W A) :
  (∀ s, k s = (Ret a, s)) →
  emits (bind (put_item E b item) (fun _ => k)) (putS b item a).
Proof.
  intros Hk s. unfold bind, put_item, call.
  destruct (env_put_item E b item (world s)) as [pr w]. cbn.
  exists [EvPut b item pr]. destruct pr as [code|]; cbn.
  - split; [done|]. by exists (Some code).
  - rewrite Hk. cbn. split; [done|]. by exists None.
Qed.

Lemma emits_put_item_last (b : string) (item : Item) :
  emits (put_item E b item) (putS b item tt).
Proof.
  intros s. unfold put_item, call.
  destruct (env_put_item E b item (world s)) as [pr w]. cbn.
  exists [EvPut b item pr]. split; [done|]. exists pr. split; [done|].
  by destruct pr.
Qed.

(** *** The random module and the generators are silent *)

Lemma silent_time_time : silent (time_time E) (fun _ => True).
Proof. intros s. exists []. cbn. rewrite app_nil_r. eauto. Qed.

Lemma silent_random_draw : silent (random_draw E) (fun _ => True).
Proof.
  intros s. exists []. unfold random_draw.
  destruct (env_random E (world s)) as [d w]. cbn. rewrite app_nil_r. eauto.
Qed.

Lemma silent_random_below (n : Z) :
  0 < n → silent (random_below E n) (fun d => 0 ≤ d < n).
Proof.
  intros Hn. unfold random_below.
  eapply silent_bind; [apply silent_random_draw|]. intros d _.
  apply silent_ret. by apply Z.mod_pos_bound.
Qed.

Lemma silent_random_choice {A} (seq : list A) :
  seq ≠ [] → silent (random_choice E seq) (fun x => x ∈ seq).
Proof.
  intros Hne. destruct seq as [|x seq]; [done|]. unfold random_choice.
  eapply silent_bind; [apply silent_random_below; cbn; lia|]. intros i Hi.
  cbn beta in Hi. apply silent_ret. apply list_elem_of_In, nth_In. lia.
Qed.

Lemma silent_random_choices {A} (seq : list A) (k : nat) :
  seq ≠ [] →
  silent (random_choices E seq k) (fun xs => length xs = k ∧ Forall (fun x => x ∈ seq) xs).
Proof.
  intros Hne. induction k as [|k IH]; cbn.
  - by apply silent_ret.
  - eapply silent_bind; [by apply silent_random_choice|]. intros x Hx.
    eapply silent_bind; [apply IH|]. intros xs [Hlen Hxs].
    apply silent_ret. cbn. auto.
Qed.

Lemma silent_random_randint (a b : Z) :
  a ≤ b → silent (random_randint E a b) (fun z => a ≤ z ≤ b).
Proof.
  intros Hab. unfold random_randint.
  eapply silent_bind; [apply silent_random_below; lia|]. intros d Hd.
  cbn beta in Hd. apply silent_ret. lia.
Qed.

Lemma silent_random_random :
  silent (random_random E) (fun r => ∃ d, 0 ≤ d < 2 ^ 53 ∧ r = d # Z.to_pos (2 ^ 53)).
Proof.
  unfold random_random.
  eapply silent_bind; [apply silent_random_below; lia|]. intros d Hd.
  cbn beta in Hd. apply silent_ret. by exists d.
Qed.

Lemma silent_random_uniform_price :
  silent (random_uniform E price_lo price_hi)
         (fun x => ∃ d, 0 ≤ d < 2 ^ 53 ∧ x = uniform_price d).
Proof.
  unfold random_uniform.
  eapply silent_bind; [apply silent_random_random|].
  intros r (d & Hd & ->). apply silent_ret. by exists d.
Qed.

Lemma silent_random_sample {A} (k : nat) :
  ∀ pool : list A, (k ≤ length pool)%nat → silent (random_sample E pool k) (fun _ => True).
Proof.
  induction k as [|k IH]; intros pool Hk; cbn.
  - by apply silent_ret.
  - destruct pool as [|x pool]; [cbn in Hk; lia|].
    eapply silent_bind; [apply silent_random_below; cbn; lia|]. intros j Hj.
    cbn beta in Hj. eapply silent_bind.
    + apply IH. rewrite length_take, length_insert. cbn in *. lia.
    + intros xs _. by apply silent_ret.
Qed.

Lemma silent_rand_id (prefix : string) : silent (rand_id E prefix) (is_rand_id prefix).
Proof.
  unfold rand_id.
  eapply silent_bind; [by apply silent_random_choices|]. intros cs [Hlen Hcs].
  apply silent_ret. by exists cs.
Qed.

Lemma silent_rand_title : silent (rand_title E) (fun _ => True).
Proof.
  unfold rand_title.
  eapply silent_bind; [by apply silent_random_choice|]. intros a _.
  eapply silent_bind; [by apply silent_random_choice|]. intros b _.
  by apply silent_ret.
Qed.

Lemma silent_rand_track_name : silent (rand_track_name E) (fun _ => True).
Proof.
  unfold rand_track_name.
  eapply silent_bind; [by apply silent_random_choice|]. intros a _.
  eapply silent_bind; [by apply silent_random_choice|]. intros b _.
  by apply silent_ret.
Qed.

Lemma silent_rand_name : silent (rand_name E) (fun _ => True).
Proof.
  unfold rand_name.
  eapply silent_bind; [by apply silent_random_choice|]. intros a _.
  eapply silent_bind; [by apply silent_random_choice|]. intros b _.
  by apply silent_ret.
Qed.

Lemma silent_rand_email (name : string) : silent (rand_email E name) (fun _ => True).
Proof.
  unfold rand_email.
  eapply silent_bind; [by apply silent_random_choice|]. intros a _.
  by apply silent_ret.
Qed.

(** *** The loop bodies of [seed_data] *)

Lemma seed_track_spec (b album_id : string) (ids : Ids) :
  emits (seed_track E b album_id ids) (trackS b album_id ids).
Proof.
  unfold seed_track.
  eapply emits_bind_silent; [apply silent_rand_id|]. intros track_id Hid.
  eapply emits_bind_silent; [apply silent_rand_track_name|]. intros name _.
  eapply emits_bind_silent; [by apply silent_random_randint|]. intros ms _.
  eapply emits_bind_silent; [by apply silent_random_randint|]. intros bytes _.
  eapply emits_bind_silent; [apply silent_random_uniform_price|]. intros price _.
  cbn zeta. eapply emits_mono; [by apply emits_put_item|].
  intros r evs H. unfold trackS. eauto 10.
Qed.

Lemma emits_for_range {A} (lo hi : Z) (n : nat) (body : Z → A → M W A) (S : Z → A → Spec A)
      (a : A) :
  Z.to_nat (hi - lo) = n →
  (∀ i a, emits (body i a) (S i a)) →
  emits (for_range lo hi body a) (loopS S lo n a).
Proof. intros <- Hbody. by apply emits_for_loop. Qed.

Lemma seed_album_spec (b artist_id : string) (tracks_per_album : Z) (ids : Ids) :
  emits (seed_album E b artist_id tracks_per_album ids)
        (albumS b artist_id tracks_per_album ids).
Proof.
  unfold seed_album.
  eapply emits_bind_silent; [apply silent_rand_id|]. intros album_id Hid.
  eapply emits_bind_silent; [apply silent_rand_title|]. intros title _.
  eapply emits_bind_silent; [by apply silent_random_randint|]. intros year _.
  eapply emits_bind_silent; [by apply silent_random_choice|]. intros genre _.
  cbn zeta. eapply emits_mono.
  - apply emits_bind; [apply emits_put_item_last|]. intros u.
    apply emits_for_range with (n := Z.to_nat tracks_per_album); [f_equal; lia|].
    intros i ids'. apply seed_track_spec.
  - intros r evs H. exists album_id, title, year, genre. by split.
Qed.

Lemma seed_artist_spec (b : string) (albums_per_artist tracks_per_album : Z) (ids : Ids) :
  emits (seed_artist E b albums_per_artist tracks_per_album ids)
        (artistS b albums_per_artist tracks_per_album ids).
Proof.
  unfold seed_artist.
  eapply emits_bind_silent; [apply silent_rand_id|]. intros artist_id Hid.
  eapply emits_bind_silent; [by apply silent_random_choice|]. intros name _.
  eapply emits_bind_silent; [by apply silent_random_choice|]. intros city _.
  eapply emits_bind_silent; [by apply silent_random_randint|]. intros formed _.
  eapply emits_bind_silent; [by apply silent_random_randint|]. intros k Hk.
  cbn beta in Hk.
  eapply emits_bind_silent; [apply silent_random_sample; cbn; lia|]. intros members _.
  cbn zeta. eapply emits_mono.
  - apply emits_bind; [apply emits_put_item_last|]. intros u.
    apply emits_for_range with (n := Z.to_nat albums_per_artist); [f_equal; lia|].
    intros i ids'. apply seed_album_spec.
  - intros r evs H. exists artist_id, name, city, formed, members. by split.
Qed.

Lemma seed_line_spec (b inv_id : string) (pool : list string) (line_ix : Z) (total : Q) :
  emits (seed_line E b inv_id pool line_ix total) (lineS b inv_id pool line_ix total).
Proof.
  unfold seed_line.
  apply emits_bind_silent with (P := track_ref pool).
  { unfold track_ref. case_bool_decide as Hpool.
    - by apply silent_random_choice.
    - apply silent_rand_id. }
  intros trk Htrk.
  eapply emits_bind_silent; [apply silent_random_uniform_price|]. intros x (d & Hd & ->).
  eapply emits_bind_silent; [by apply silent_random_randint|]. intros qty Hqty.
  cbn beta in Hqty. cbn zeta. eapply emits_mono; [by apply emits_put_item|].
  intros r evs H. exists trk, d, qty. done.
Qed.

Lemma seed_invoice_spec (b cust_id : string) (pool : list string) (lines_per_invoice : Z) :
  emits (seed_invoice E b cust_id pool lines_per_invoice)
        (invoiceS b cust_id pool lines_per_invoice).
Proof.
  unfold seed_invoice.
  eapply emits_bind_silent; [apply silent_rand_id|]. intros inv_id Hid.
  eapply emits_bind_silent; [apply silent_time_time|]. intros now _.
  eapply emits_bind_silent; [by apply silent_random_randint|]. intros days _.
  cbn zeta. eapply emits_mono.
  - apply emits_bind; [apply emits_put_item_last|]. intros u.
    apply emits_bind.
    + apply emits_for_range with (n := Z.to_nat lines_per_invoice); [f_equal; lia|].
      intros i total. apply seed_line_spec.
    + intros total. apply emits_put_item_last.
  - intros r evs H. eexists inv_id, _. split; [done|]. exact H.
Qed.

Lemma seed_customer_spec (b : string) (pool : list string)
      (invoices_per_cust lines_per_invoice : Z) :
  emits (seed_customer E b pool invoices_per_cust lines_per_invoice)
        (customerS b pool invoices_per_cust lines_per_invoice).
Proof.
  unfold seed_customer.
  eapply emits_bind_silent; [apply silent_rand_id|]. intros cust_id Hid.
  eapply emits_bind_silent; [apply silent_rand_name|]. intros name _.
  eapply emits_bind_silent; [apply silent_rand_email|]. intros email _.
  eapply emits_bind_silent; [by apply silent_random_choice|]. intros city _.
  cbn zeta. eapply emits_mono.
  - apply emits_bind; [apply emits_put_item_last|]. intros u.
    apply emits_for_range
      with (n := Z.to_nat invoices_per_cust)
           (S := fun _ _ => invoiceS b cust_id pool lines_per_invoice); [f_equal; lia|].
    intros i []. apply seed_invoice_spec.
  - intros r evs H. exists cust_id, name, email, city. by split.
Qed.

(** A relational specification without [OutOfFuel]. *)
Definition fueled {A} (S : Spec A) : Prop := ∀ evs, ¬ S OutOfFuel evs.

Lemma fueled_seqS {A B} (S1 : Spec A) (S2 : A → Spec B) :
  fueled S1 → (∀ a, fueled (S2 a)) → fueled (seqS S1 S2).
Proof.
  intros H1 H2 evs (r1 & evs1 & HS1 & H). destruct r1 as [a|e|].
  - destruct H as (evs2 & HS2 & _). by eapply H2.
  - by destruct H.
  - by eapply H1.
Qed.

Lemma fueled_loopS {A} (body : Z → A → Spec A) :
  (∀ i a, fueled (body i a)) → ∀ n i a, fueled (loopS body i n a).
Proof.
  intros Hbody. induction n as [|n IH]; intros i a; cbn.
  - by intros evs [? _].
  - apply fueled_seqS; auto.
Qed.

Lemma fueled_putS {A} (b : string) (item : Item) (a : A) : fueled (putS b item a).
Proof. intros evs (pr & _ & H). by destruct pr. Qed.

Lemma fueled_trackS b album_id ids : fueled (trackS b album_id ids).
Proof. intros evs (? & ? & ? & ? & ? & _ & H). by eapply fueled_putS. Qed.

Lemma fueled_albumS b artist_id n ids : fueled (albumS b artist_id n ids).
Proof.
  intros evs (? & ? & ? & ? & _ & H). revert H. apply fueled_seqS.
  - apply fueled_putS.
  - intros _. apply fueled_loopS. intros. apply fueled_trackS.
Qed.

Lemma fueled_artistS b n1 n2 ids : fueled (artistS b n1 n2 ids).
Proof.
  intros evs (? & ? & ? & ? & ? & _ & H). revert H. apply fueled_seqS.
  - apply fueled_putS.
  - intros _. apply fueled_loopS. intros. apply fueled_albumS.
Qed.

Lemma fueled_lineS b inv_id pool i total : fueled (lineS b inv_id pool i total).
Proof. intros evs (? & ? & ? & _ & _ & _ & H). by eapply fueled_putS. Qed.

Lemma fueled_invoiceS b cust_id pool n : fueled (invoiceS b cust_id pool n).
Proof.
  intros evs (? & ? & _ & H). revert H. apply fueled_seqS; [apply fueled_putS|].
  intros _. apply fueled_seqS.
  - apply fueled_loopS. intros. apply fueled_lineS.
  - intros. apply fueled_putS.
Qed.

Lemma fueled_customerS b pool n1 n2 : fueled (customerS b pool n1 n2).
Proof.
  intros evs (? & ? & ? & ? & _ & H). revert H. apply fueled_seqS.
  - apply fueled_putS.
  - intros _. apply fueled_loopS. intros. apply fueled_invoiceS.
Qed.

Lemma fueled_seed_bodyS table sizes : fueled (seed_bodyS table sizes).
Proof.
  apply fueled_seqS.
  - apply fueled_loopS. intros. apply fueled_artistS.
  - intros ids. apply fueled_loopS. intros. apply fueled_customerS.
Qed.

Lemma seed_body_spec (table : string) (sizes : Sizes) :
  emits (ids <- for_range 0 (artists sizes)
                  (fun _ => seed_artist E table (albums_per_artist sizes)
                                        (tracks_per_album sizes))
                  (mkIds [] [] []) ;;
         for_range 0 (customers sizes)
           (fun _ _ => seed_customer E table (track_ids ids)
                                     (invoices_per_customer sizes)
                                     (lines_per_invoice sizes)) tt)
        (seed_bodyS table sizes).
Proof.
  apply emits_bind.
  - apply emits_for_range with (n := Z.to_nat (artists sizes)); [f_equal; lia|].
    intros i ids. apply seed_artist_spec.
  - intros ids.
    apply emits_for_range
      with (n := Z.to_nat (customers sizes))
           (S := fun _ _ => customerS table (track_ids ids) (invoices_per_customer sizes)
                                      (lines_per_invoice sizes)); [f_equal; lia|].
    intros i []. apply seed_customer_spec.
Qed.

Lemma seed_data_spec (table : string) (sizes : Sizes) :
  emits (seed_data E table sizes) (seedS table sizes).
Proof.
  intros s. unfold seed_data, with_batch_writer.
  destruct (seed_body_spec table sizes s) as (evs0 & Htr & H). revert Htr H.
  match goal with |- context [match ?m s with _ => _ end] => destruct (m s) as [r0 s0] end.
  cbn [fst snd]. intros Htr H.
  assert (r0 ≠ OutOfFuel) as Hfuel.
  { intros ->. exact (fueled_seed_bodyS _ _ _ H). }
  unfold bind, writer_exit, call.
  destruct r0 as [a|e|]; [| |done];
    destruct (env_writer_exit E table (world s0)) as [pr w];
    exists (evs0 ++ [EvWriterExit table pr]);
    (split; [destruct pr; cbn; by rewrite Htr, app_assoc|]);
    eexists _, evs0, pr; (split; [exact H|]); (split; [done|]); (split; [done|]);
    by destruct pr.
Qed.

End Emits.

(** ** Waiting for a table state *)

Section Waiting.
Context {W : Type} (E : Env W).

(** The state after one [describe_table]. *)
Definition described (table_name : string) (s : state W) : state W :=
  let '(a, w) := env_describe_table E table_name (world s) in
  mkState w (trace s ++ [EvDescribe table_name a]).

Definition answer (table_name : string) (s : state W) : string + DescribeTableOutput :=
  (env_describe_table E table_name (world s)).1.

Lemma poll_deleted_eq (table_name : string) (s : state W) :
  poll_deleted E table_name s
  = (deleted_answer (answer table_name s), described table_name s).
Proof.
  unfold poll_deleted, catch, bind, describe_table, call, described, answer.
  destruct (env_describe_table E table_name (world s)) as [[code|desc] w]; cbn; [|done].
  unfold raise, ret. by case_bool_decide.
Qed.

Lemma poll_active_eq (table_name : string) (s : state W) :
  poll_active E table_name s
  = (active_answer (answer table_name s), described table_name s).
Proof.
  unfold poll_active, catch, bind, describe_table, call, described, answer.
  destruct (env_describe_table E table_name (world s)) as [[code|desc] w]; cbn.
  - unfold raise, ret. by case_bool_decide.
  - destruct (Table desc) as [table|]; cbn; [|done].
    by destruct (TableStatus table).
Qed.

(** The two polling loops are one loop, up to the reading of the answer and
    the message of the timeout. *)
Fixpoint wait_loop (classify : string + DescribeTableOutput → result bool)
         (msg table_name : string) (fuel : nat) (limit start : Z) (s : state W)
  : result unit * state W :=
  match fuel with
  | O => (OutOfFuel, s)
  | S fuel =>
      let s1 := described table_name s in
      match classify (answer table_name s) with
      | Ret true => (Ret tt, s1)
      | Ret false =>
          if limit <? env_clock E (world s1) - start
          then (Raise (TimeoutError msg), s1)
          else wait_loop classify msg table_name fuel limit start
                         (mkState (env_sleep E 500000 (world s1)) (trace s1))
      | Raise e => (Raise e, s1)
      | OutOfFuel => (OutOfFuel, s1)
      end
  end.

Lemma wait_deleted_loop_eq (table_name : string) (timeout_s start : Z) (fuel : nat) :
  ∀ s, wait_deleted_loop E fuel table_name timeout_s start s
       = wait_loop deleted_answer
                   ("Table " +:+ table_name +:+ " not deleted after "
                             +:+ py_str_int timeout_s +:+ "s")
                   table_name fuel (timeout_s * 1000000) start s.
Proof.
  induction fuel as [|fuel IH]; intros s; [done|].
  cbn [wait_deleted_loop wait_loop]. unfold bind at 1. rewrite poll_deleted_eq.
  destruct (deleted_answer _) as [[|]|e|]; try done.
  unfold bind, time_time, time_sleep, raise. cbn.
  destruct (_ <? _); [done|]. apply IH.
Qed.

Lemma wait_active_loop_eq (table_name : string) (timeout_s start : Z) (fuel : nat) :
  ∀ s, wait_table_active_loop E fuel table_name timeout_s start s
       = wait_loop active_answer
                   ("Table " +:+ table_name +:+ " not ACTIVE after "
                             +:+ py_str_int timeout_s +:+ "s")
                   table_name fuel (timeout_s * 1000000) start s.
Proof.
  induction fuel as [|fuel IH]; intros s; [done|].
  cbn [wait_table_active_loop wait_loop]. unfold bind at 1. rewrite poll_active_eq.
  destruct (active_answer _) as [[|]|e|]; try done.
  unfold bind, time_time, time_sleep, raise. cbn.
  destruct (_ <? _); [done|]. apply IH.
Qed.

Lemma wait_deleted_eq (table_name : string) (fuel : nat) (s : state W) :
  wait_deleted E fuel table_name 60 s
  = wait_loop deleted_answer (not_deleted_msg table_name) table_name fuel 60000000
              (env_clock E (world s)) s.
Proof. unfold wait_deleted, bind, time_time. apply wait_deleted_loop_eq. Qed.

Lemma wait_table_active_eq (table_name : string) (fuel : nat) (s : state W) :
  wait_table_active E fuel table_name 60 s
  = wait_loop active_answer (not_active_msg table_name) table_name fuel 60000000
              (env_clock E (world s)) s.
Proof. unfold wait_table_active, bind, time_time. apply wait_active_loop_eq. Qed.

Section Loop.
Variable classify : string + DescribeTableOutput → result bool.
Variables msg table_name : string.
Variables limit start : Z.
Hypothesis classify_fueled : ∀ a, classify a ≠ OutOfFuel.
Hypothesis classify_no_timeout : ∀ a m, classify a ≠ Raise (TimeoutError m).

Lemma described_trace (s : state W) :
  trace (described table_name s) = trace s ++ [EvDescribe table_name (answer table_name s)].
Proof.
  unfold described, answer. by destruct (env_describe_table E table_name (world s)).
Qed.

Lemma wait_loop_spec (fuel : nat) :
  ∀ s, let '(r, s') := wait_loop classify msg table_name fuel limit start s in
       ∃ evs, trace s' = trace s ++ evs ∧ waitS classify table_name msg r evs.
Proof.
  induction fuel as [|fuel IH]; intros s; cbn [wait_loop].
  { exists []. rewrite app_nil_r. split; [done|]. by exists []. }
  pose proof (described_trace s) as Htr.
  destruct (classify (answer table_name s)) as [[|]|e|] eqn:Hc.
  - eexists. split; [exact Htr|]. exists [answer table_name s]. split; [done|].
    by exists [], (answer table_name s).
  - destruct (_ <? _).
    + eexists. split; [exact Htr|]. exists [answer table_name s]. split; [done|].
      left. repeat split; [done|]. by constructor.
    + specialize (IH (mkState (env_sleep E 500000 (world (described table_name s)))
                              (trace (described table_name s)))).
      destruct (wait_loop _ _ _ _ _ _ _) as [r s'].
      destruct IH as (evs & Htr' & answers & -> & H). cbn [trace] in Htr'.
      exists (EvDescribe table_name (answer table_name s) :: (EvDescribe table_name <$> answers)).
      split; [by rewrite Htr', Htr, <- app_assoc|].
      exists (answer table_name s :: answers). split; [done|].
      destruct r as [[]|e|].
      * destruct H as (init & a & -> & Ha & Hinit).
        exists (answer table_name s :: init), a. by repeat split; [|constructor].
      * destruct H as [(-> & Hne & Hall)|(init & a & -> & Ha & Hinit)].
        -- left. by repeat split; [|constructor].
        -- right. exists (answer table_name s :: init), a. by repeat split; [|constructor].
      * by constructor.
  - eexists. split; [exact Htr|]. exists [answer table_name s]. split; [done|].
    right. by exists [], (answer table_name s).
  - by destruct (classify_fueled (answer table_name s)).
Qed.

(** The rounds still needed when the clock shows [c]. *)
Definition rounds_left (c : Z) : Z :=
  if limit <? c - start then 1 else (limit - (c - start)) / 500000 + 2.

Lemma wait_loop_terminates (laws : ClockLaws E) (fuel : nat) :
  ∀ s, rounds_left (env_clock E (world s)) ≤ Z.of_nat fuel →
       (wait_loop classify msg table_name fuel limit start s).1 ≠ OutOfFuel.
Proof.
  induction fuel as [|fuel IH]; intros s Hfuel.
  { unfold rounds_left in Hfuel. destruct (_ <? _) eqn:Hlt; [lia|].
    apply Z.ltb_ge in Hlt. assert (0 ≤ (limit - (env_clock E (world s) - start)) / 500000).
    { apply Z.div_pos; lia. }
    lia. }
  cbn [wait_loop].
  destruct (classify (answer table_name s)) as [[|]|e|] eqn:Hc; try done.
  2: by destruct (classify_fueled (answer table_name s)).
  destruct (_ <? _) eqn:Hlt; [done|]. apply Z.ltb_ge in Hlt.
  apply IH. cbn [world].
  pose proof (describe_clock E laws table_name (world s)) as Hd.
  pose proof (sleep_clock E laws 500000 (world (described table_name s))) as Hs.
  assert (world (described table_name s) = (env_describe_table E table_name (world s)).2) as Hw.
  { unfold described. by destruct (env_describe_table E table_name (world s)). }
  rewrite Hw in *.
  set (c0 := env_clock E (world s)) in *.
  set (c1 := env_clock E (env_describe_table E table_name (world s)).2) in *.
  set (c2 := env_clock E (env_sleep E 500000 (env_describe_table E table_name (world s)).2)) in *.
  unfold rounds_left in *.
  destruct (limit <? c0 - start) eqn:H0; [apply Z.ltb_lt in H0; lia|].
  apply Z.ltb_ge in H0.
  assert (0 ≤ (limit - (c0 - start)) / 500000) by (apply Z.div_pos; lia).
  destruct (limit <? c2 - start) eqn:H2; [lia|]. apply Z.ltb_ge in H2.
  assert ((limit - (c2 - start)) / 500000 ≤ (limit - (c0 - start) + (-1) * 500000) / 500000)
    as Hdiv.
  { apply Z.div_le_mono; lia. }
  rewrite Z.div_add in Hdiv by lia. lia.
Qed.

Lemma wait_loop_timeout (fuel : nat) :
  ∀ s m, (wait_loop classify msg table_name fuel limit start s).1 = Raise (TimeoutError m) →
         limit < env_clock E (world (wait_loop classify msg table_name fuel limit start s).2)
                 - start.
Proof.
  induction fuel as [|fuel IH]; intros s m; cbn [wait_loop]; [done|].
  destruct (classify (answer table_name s)) as [[|]|e|] eqn:Hc; try done.
  - destruct (_ <? _) eqn:Hlt; [|apply IH]. intros _. by apply Z.ltb_lt in Hlt.
  - cbn. intros [= ->]. by destruct (classify_no_timeout (answer table_name s) m).
Qed.

End Loop.
End Waiting.

(** ** ensure_table, once the first [describe_table] has answered *)

Section Provisioning.
Context {W : Type} (E : Env W).

Definition missing_msg (table_name : string) (desc : DescribeTableOutput) : string :=
  ("Existing table " +:+ table_name +:+ " missing indexes: "
                     +:+ py_join ", " (missing_indexes desc) +:+ ".")
    +:+ " Re-run with --recreate (or --recreate-if-missing-indexes).".

(** The table lacks an index, and no flag allows to recreate it. *)
Lemma ensure_table_missing (fuel : nat) (table_name : string) (w w1 : W)
      (tr : list event) (desc : DescribeTableOutput) :
  env_describe_table E table_name w = (inr desc, w1) →
  missing_indexes desc ≠ [] →
  ensure_table E fuel table_name false false (mkState w tr)
  = (Raise (RuntimeError (missing_msg table_name desc)),
     mkState w1 (tr ++ [EvDescribe table_name (inr desc)])).
Proof.
  intros Hd Hmiss. unfold ensure_table, bind, catch, describe_table, call. cbn.
  rewrite Hd. cbn. by rewrite bool_decide_true.
Qed.

Lemma bind_ret_l {A B} (a : A) (k : A → M W B) (s : state W) : bind (ret a) k s = k a s.
Proof. done. Qed.

Lemma ensure_table_start (fuel : nat) (table_name : string) (recreate rimi : bool) (w w1 : W)
      (tr : list event) (desc : DescribeTableOutput) :
  env_describe_table E table_name w = (inr desc, w1) →
  ensure_table E fuel table_name recreate rimi (mkState w tr)
  = (exists_ <-
       (if negb recreate then
          if bool_decide (missing_indexes desc ≠ []) then
            if rimi then
              delete_table E table_name ;;;
              wait_deleted E fuel table_name 60 ;;;
              ret false
            else raise (RuntimeError (missing_msg table_name desc))
          else ret true
        else ret true) ;;
     (if exists_ && recreate
      then delete_table E table_name ;;; wait_deleted E fuel table_name 60
      else ret tt) ;;;
     (if negb exists_ || recreate
      then create_table E (table_request table_name)
      else ret tt) ;;;
     wait_table_active E fuel table_name 60 ;;;
     ret exists_)
      (mkState w1 (tr ++ [EvDescribe table_name (inr desc)])).
Proof.
  intros Hd. unfold ensure_table. unfold bind at 1. unfold catch. unfold bind at 1.
  unfold describe_table, call. cbn [world trace]. by rewrite Hd.
Qed.

(** The table has both indexes and [--recreate] is not given. *)
Lemma ensure_table_valid (fuel : nat) (table_name : string) (rimi : bool) (w w1 : W)
      (tr : list event) (desc : DescribeTableOutput) :
  env_describe_table E table_name w = (inr desc, w1) →
  missing_indexes desc = [] →
  ensure_table E fuel table_name false rimi (mkState w tr)
  = (wait_table_active E fuel table_name 60 ;;; ret true)
      (mkState w1 (tr ++ [EvDescribe table_name (inr desc)])).
Proof.
  intros Hd Hmiss. by rewrite (ensure_table_start _ _ _ _ _ _ _ _ Hd), Hmiss.
Qed.

(** [--recreate] is given and the table exists. *)
Lemma ensure_table_recreate (fuel : nat) (table_name : string) (rimi : bool) (w w1 : W)
      (tr : list event) (desc : DescribeTableOutput) :
  env_describe_table E table_name w = (inr desc, w1) →
  ensure_table E fuel table_name true rimi (mkState w tr)
  = (delete_table E table_name ;;;
     wait_deleted E fuel table_name 60 ;;;
     create_table E (table_request table_name) ;;;
     wait_table_active E fuel table_name 60 ;;;
     ret true)
      (mkState w1 (tr ++ [EvDescribe table_name (inr desc)])).
Proof.
  intros Hd. rewrite (ensure_table_start _ _ _ _ _ _ _ _ Hd). cbn [negb].
  rewrite bind_ret_l. cbn [andb orb negb].
  set (s1 := mkState _ _). unfold bind.
  destruct (delete_table E table_name s1) as [[[]|e|] s2]; [|done|done].
  destruct (wait_deleted E fuel table_name 60 s2) as [[[]|e|] s3]; done.
Qed.

(** The table lacks an index and [--recreate-if-missing-indexes] is given. *)
Lemma ensure_table_rebuild (fuel : nat) (table_name : string) (w w1 : W)
      (tr : list event) (desc : DescribeTableOutput) :
  env_describe_table E table_name w = (inr desc, w1) →
  missing_indexes desc ≠ [] →
  ensure_table E fuel table_name false true (mkState w tr)
  = (delete_table E table_name ;;;
     wait_deleted E fuel table_name 60 ;;;
     create_table E (table_request table_name) ;;;
     wait_table_active E fuel table_name 60 ;;;
     ret false)
      (mkState w1 (tr ++ [EvDescribe table_name (inr desc)])).
Proof.
  intros Hd Hmiss. rewrite (ensure_table_start _ _ _ _ _ _ _ _ Hd). cbn [negb].
  rewrite bool_decide_true by done.
  set (s1 := mkState _ _). unfold bind.
  destruct (delete_table E table_name s1) as [[[]|e|] s2]; [|done|done].
  destruct (wait_deleted E fuel table_name 60 s2) as [[[]|e|] s3]; done.
Qed.

End Provisioning.

Section WaitBounds.
Context {W : Type} (E : Env W).
Variable classify : string + DescribeTableOutput → result bool.
Variables msg table_name : string.
Variables limit start : Z.

Lemma wait_loop_more_fuel (fuel : nat) :
  ∀ s fuel', (fuel ≤ fuel')%nat →
    (wait_loop E classify msg table_name fuel limit start s).1 ≠ OutOfFuel →
    wait_loop E classify msg table_name fuel' limit start s
    = wait_loop E classify msg table_name fuel limit start s.
Proof.
  induction fuel as [|fuel IH]; intros s fuel' Hle; [done|].
  destruct fuel' as [|fuel']; [lia|]. cbn [wait_loop].
  destruct (classify _) as [[|]|e|]; try done.
  destruct (_ <? _); [done|]. apply IH. lia.
Qed.

Lemma wait_loop_rounds (fuel : nat) :
  ∀ s, (length (trace (wait_loop E classify msg table_name fuel limit start s).2)
        ≤ length (trace s) + fuel)%nat.
Proof.
  induction fuel as [|fuel IH]; intros s; cbn [wait_loop]; [cbn; lia|].
  assert (length (trace (described E table_name s)) = S (length (trace s))) as Hlen.
  { rewrite described_trace, length_app. cbn. lia. }
  destruct (classify _) as [[|]|e|]; cbn [snd]; try lia.
  destruct (_ <? _); cbn [snd]; [lia|].
  etrans; [apply IH|]. cbn [trace]. lia.
Qed.

End WaitBounds.

Lemma Sim_clock_laws : ClockLaws Sim.env.
Proof.
  split.
  - intros name w. cbn. unfold Sim.describe. by destruct (_ !! _).
  - intros us w. cbn. lia.
Qed.

Lemma deleted_answer_fueled a : deleted_answer a ≠ OutOfFuel.
Proof. destruct a as [code|d]; cbn; [|done]. by case_bool_decide. Qed.

Lemma deleted_answer_no_timeout a m : deleted_answer a ≠ Raise (TimeoutError m).
Proof. destruct a as [code|d]; cbn; [|done]. by case_bool_decide. Qed.

Lemma active_answer_fueled a : active_answer a ≠ OutOfFuel.
Proof.
  destruct a as [code|d]; cbn; [by case_bool_decide|].
  destruct (Table d) as [t|]; [|done]. by destruct (TableStatus t).
Qed.

Lemma active_answer_no_timeout a m : active_answer a ≠ Raise (TimeoutError m).
Proof.
  destruct a as [code|d]; cbn; [by case_bool_decide|].
  destruct (Table d) as [t|]; [|done]. by destruct (TableStatus t).
Qed.

(** *** Facts about the simulated runs *)

Lemma Sim_describe_Some (name : string) (w : Sim.t) (d : TableDescription) :
  Sim.tables w !! name = Some d →
  env_describe_table Sim.env name w = (inr (mkDescribeTableOutput (Some d)), w).
Proof. intros H. cbn. unfold Sim.describe. by rewrite H. Qed.

Lemma split_at_index {A} (d : A) (i : nat) (l : list A) :
  (i < length l)%nat → l = take i l ++ default d (l !! i) :: drop (S i) l.
Proof.
  intros Hi. apply lookup_lt_is_Some in Hi as [x Hx]. rewrite Hx. cbn.
  symmetry. by apply take_drop_middle.
Qed.

Lemma demo_accepted :
  accepted (trace (seed_data Sim.env "music" (mkSizes 2 1 1 1 1 2) (mkState demo_world [])).2).
Proof. unfold accepted. apply (bool_decide_unpack _). vm_compute. exact I. Qed.

Lemma demo_length :
  length (puts (trace (seed_data Sim.env "music" (mkSizes 2 1 1 1 1 2)
                         (mkState demo_world [])).2)) = 11%nat.
Proof. vm_compute. reflexivity. Qed.

(** C9: a wait on a table state is bounded.  With a clock that obeys
    [ClockLaws], 122 polling rounds always suffice, for [wait_deleted] and for
    [wait_table_active] with their timeout of 60 seconds: more fuel changes
    nothing, the wait never runs out of rounds and issues at most 122
    [describe_table] requests.  It ends as [waitS] says: it returns on the
    answer that shows the expected state, raises what an answer raises, or
    raises [TimeoutError] after a round that found the table in another
    state, and then more than 60 seconds have passed since the wait began.
    A resource-not-found answer is never raised: it ends the wait for the
    deletion, and the wait for ACTIVE goes on polling. *)
Theorem waits_are_bounded {W : Type} (E : Env W) (table_name : string) (fuel : nat)
        (s : state W) :
  ClockLaws E → (122 ≤ fuel)%nat →
  let deleted := wait_deleted E fuel table_name 60 s in
  let active := wait_table_active E fuel table_name 60 s in
  (deleted = wait_deleted E 122 table_name 60 s ∧ deleted.1 ≠ OutOfFuel ∧
   ∃ evs, trace deleted.2 = trace s ++ evs ∧ (length evs ≤ 122)%nat ∧
          waitS deleted_answer table_name (not_deleted_msg table_name) deleted.1 evs) ∧
  (active = wait_table_active E 122 table_name 60 s ∧ active.1 ≠ OutOfFuel ∧
   ∃ evs, trace active.2 = trace s ++ evs ∧ (length evs ≤ 122)%nat ∧
          waitS active_answer table_name (not_active_msg table_name) active.1 evs) ∧
  (∀ m, deleted.1 = Raise (TimeoutError m) →
        60 * 1000000 < env_clock E (world deleted.2) - env_clock E (world s)) ∧
  (∀ m, active.1 = Raise (TimeoutError m) →
        60 * 1000000 < env_clock E (world active.2) - env_clock E (world s)) ∧
  deleted_answer (inl ResourceNotFoundException) = Ret true ∧
  active_answer (inl ResourceNotFoundException) = Ret false.
Proof.
  intros laws Hfuel deleted active. subst deleted active.
  rewrite !wait_deleted_eq, !wait_table_active_eq.
  assert (rounds_left 60000000 (env_clock E (world s)) (env_clock E (world s)) ≤ Z.of_nat 122)
    as Hrounds.
  { unfold rounds_left. rewrite Z.sub_diag. by vm_compute. }
  pose proof (wait_loop_terminates E deleted_answer (not_deleted_msg table_name) table_name
                60000000 (env_clock E (world s)) deleted_answer_fueled laws 122 s Hrounds)
    as Hd.
  pose proof (wait_loop_terminates E active_answer (not_active_msg table_name) table_name
                60000000 (env_clock E (world s)) active_answer_fueled laws 122 s Hrounds)
    as Ha.
  rewrite (wait_loop_more_fuel E deleted_answer _ _ _ _ 122 s fuel Hfuel Hd).
  rewrite (wait_loop_more_fuel E active_answer _ _ _ _ 122 s fuel Hfuel Ha).
  split; [split; [reflexivity|split; [exact Hd|]]|].
  { pose proof (wait_loop_spec E deleted_answer (not_deleted_msg table_name) table_name
                  60000000 (env_clock E (world s)) deleted_answer_fueled 122 s) as Hs.
    pose proof (wait_loop_rounds E deleted_answer (not_deleted_msg table_name) table_name
                  60000000 (env_clock E (world s)) 122 s) as Hr.
    clear Hd Ha.
    destruct (wait_loop _ _ _ _ _ _ _ _) as [r s']. destruct Hs as (evs & Htr & Hs).
    exists evs. cbn [fst snd] in *. rewrite Htr, length_app in Hr.
    split; [exact Htr|]. split; [lia|exact Hs]. }
  split; [split; [reflexivity|split; [exact Ha|]]|].
  { pose proof (wait_loop_spec E active_answer (not_active_msg table_name) table_name
                  60000000 (env_clock E (world s)) active_answer_fueled 122 s) as Hs.
    pose proof (wait_loop_rounds E active_answer (not_active_msg table_name) table_name
                  60000000 (env_clock E (world s)) 122 s) as Hr.
    clear Hd Ha.
    destruct (wait_loop _ _ _ _ _ _ _ _) as [r s']. destruct Hs as (evs & Htr & Hs).
    exists evs. cbn [fst snd] in *. rewrite Htr, length_app in Hr.
    split; [exact Htr|]. split; [lia|exact Hs]. }
  split.
  { intros m. apply wait_loop_timeout. apply deleted_answer_no_timeout. }
  split.
  { intros m. apply wait_loop_timeout. apply active_answer_no_timeout. }
  split; reflexivity.
Qed.

Lemma waits_are_bounded_witness :
  let s := mkState (Sim.bare "music" 1700000000000000 []) [] in
  let deleted := wait_deleted Sim.env 200 "music" 60 s in
  ClockLaws Sim.env ∧ (122 ≤ 200)%nat ∧
  deleted = wait_deleted Sim.env 122 "music" 60 s ∧
  deleted.1 = Raise (TimeoutError (not_deleted_msg "music")) ∧
  (length (trace deleted.2) ≤ 122)%nat ∧
  60 * 1000000 < env_clock Sim.env (world deleted.2) - env_clock Sim.env (world s) ∧
  (wait_table_active Sim.env 200 "music" 60 s).1 = Ret tt.
Proof.
  cbv zeta.
  assert (122 ≤ 200)%nat as Hfuel by lia.
  pose proof (waits_are_bounded Sim.env "music" 200
                (mkState (Sim.bare "music" 1700000000000000 []) []) Sim_clock_laws Hfuel) as H.
  cbv zeta in H. destruct H as ((Heq & _ & evs & Htr & Hlen & _) & _ & Hlate & _).
  assert ((wait_deleted Sim.env 200 "music" 60
             (mkState (Sim.bare "music" 1700000000000000 []) [])).1
          = Raise (TimeoutError (not_deleted_msg "music"))) as Hr by (vm_compute; reflexivity).
  split; [exact Sim_clock_laws|]. split; [exact Hfuel|]. split; [exact Heq|].
  split; [exact Hr|]. split; [rewrite Htr; exact Hlen|].
  split; [exact (Hlate _ Hr)|]. vm_compute; reflexivity.
Defined.



Lemma puts_app (l1 l2 : list event) : puts (l1 ++ l2) = puts l1 ++ puts l2.
Proof. apply omap_app. Qed.

Lemma puts_no_write (tr : list event) : Forall (fun ev => is_write ev = false) tr → puts tr = [].
Proof.
  induction 1 as [|ev tr Hev _ IH]; [done|]. by destruct ev.
Qed.

Lemma describes_no_write (table_name : string) (answers : list (string + DescribeTableOutput)) :
  Forall (fun ev => is_write ev = false) (EvDescribe table_name <$> answers).
Proof. induction answers; by constructor. Qed.

Lemma waitS_no_write classify table_name msg r evs :
  waitS classify table_name msg r evs → Forall (fun ev => is_write ev = false) evs.
Proof. intros (answers & -> & _). apply describes_no_write. Qed.

(** C1 (amended): when the table exists, lacks GSI1 or LSI1, and neither
    [--recreate] nor [--recreate-if-missing-indexes] is given, the process
    exits with code 1 after the one [describe_table] request: nothing is
    written. *)
Theorem missing_index_is_fatal {W : Type} (E : Env W) (fuel : nat) (args : Args) (w w1 : W)
        (desc : DescribeTableOutput) :
  env_describe_table E (arg_table args) w = (inr desc, w1) →
  arg_recreate args = false →
  arg_recreate_if_missing_indexes args = false →
  missing_indexes desc ≠ [] →
  let run := main E fuel args (mkState w []) in
  exit_code run.1 = Some 1 ∧
  trace run.2 = [EvDescribe (arg_table args) (inr desc)] ∧
  puts (trace run.2) = [].
Proof.
  intros Hd Hre Hrimi Hmiss run. subst run. unfold main. rewrite Hre, Hrimi.
  by rewrite (ensure_table_missing E fuel _ w w1 [] desc Hd Hmiss).
Qed.

Lemma missing_index_is_fatal_witness :
  let run := main Sim.env 0 (music_args false false false (mkSizes 1 1 1 1 1 1))
                  (mkState (Sim.bare "music" 0 []) []) in
  exit_code run.1 = Some 1 ∧
  trace run.2 = [EvDescribe "music"
                   (inr (mkDescribeTableOutput
                           (Some (mkTableDescription (Some "ACTIVE") None None))))] ∧
  puts (trace run.2) = [].
Proof.
  apply (missing_index_is_fatal Sim.env 0 (music_args false false false (mkSizes 1 1 1 1 1 1))
           (Sim.bare "music" 0 []) (Sim.bare "music" 0 [])).
  - reflexivity.
  - reflexivity.
  - reflexivity.
  - vm_compute. discriminate.
Defined.

Lemma recreate_if_missing_indexes_seeds :
  let args := music_args false true false (mkSizes 1 0 0 0 0 0) in
  let w := Sim.bare "music" 0 [] in
  let run := main Sim.env 122 args (mkState w []) in
  (∃ desc, env_describe_table Sim.env (arg_table args) w = (inr desc, w) ∧
           missing_indexes desc = ["GSI1"; "LSI1"]) ∧
  arg_recreate args = false ∧
  exit_code run.1 = Some 0 ∧
  length (puts (trace run.2)) = 1%nat.
Proof.
  split; [eexists; split; [reflexivity|]; by vm_compute|].
  by vm_compute.
Qed.

(** C5: a run with [--skip-if-exists] and without [--recreate] on a table
    left by a first run, that is a table that exists with both indexes,
    issues no request that writes, whatever the status of the table; when the
    table is ACTIVE at the first poll the process exits with code 0 after two
    [describe_table] requests. *)
Theorem skip_if_exists_writes_nothing {W : Type} (E : Env W) (fuel : nat) (args : Args)
        (w w1 : W) (desc : DescribeTableOutput) :
  env_describe_table E (arg_table args) w = (inr desc, w1) →
  missing_indexes desc = [] →
  arg_skip_if_exists args = true →
  arg_recreate args = false →
  let run := main E fuel args (mkState w []) in
  Forall (fun ev => is_write ev = false) (trace run.2) ∧
  puts (trace run.2) = [] ∧
  (∀ desc2 w2,
      env_describe_table E (arg_table args) w1 = (inr desc2, w2) →
      active_answer (inr desc2) = Ret true →
      (0 < fuel)%nat →
      run = (Exit 0, mkState w2 [EvDescribe (arg_table args) (inr desc);
                                 EvDescribe (arg_table args) (inr desc2)])).
Proof.
  intros Hd Hmiss Hskip Hre run. subst run. unfold main. rewrite Hre, Hskip.
  rewrite (ensure_table_valid E fuel _ _ w w1 [] desc Hd Hmiss).
  unfold bind. rewrite wait_table_active_eq. cbn [app world].
  set (s1 := mkState w1 [EvDescribe (arg_table args) (inr desc)]).
  assert (Forall (fun ev => is_write ev = false)
            (trace (wait_loop E active_answer (not_active_msg (arg_table args)) (arg_table args)
                      fuel 60000000 (env_clock E w1) s1).2)) as Hnw.
  { pose proof (wait_loop_spec E active_answer (not_active_msg (arg_table args))
                  (arg_table args) 60000000 (env_clock E w1) active_answer_fueled fuel s1) as Hs.
    destruct (wait_loop _ _ _ _ _ _ _ _) as [r s']. destruct Hs as (evs & Htr & Hs).
    cbn [snd]. rewrite Htr. apply Forall_app. split; [by repeat constructor|]. by eapply waitS_no_write. }
  split; [|split].
  - destruct (wait_loop _ _ _ _ _ _ _ _) as [[[]|e|] s']; cbn in *.
    + done.
    + by destruct e.
    + done.
  - apply puts_no_write.
    destruct (wait_loop _ _ _ _ _ _ _ _) as [[[]|e|] s']; cbn in *.
    + done.
    + by destruct e.
    + done.
  - intros desc2 w2 Hd2 Hact Hfuel. destruct fuel as [|fuel]; [lia|].
    cbn [wait_loop]. unfold answer, described. cbn [world trace s1]. rewrite Hd2. cbn [fst].
    rewrite Hact. done.
Qed.

Lemma skip_if_exists_writes_nothing_witness :
  let args := music_args false false true (mkSizes 2 1 1 1 1 2) in
  let run := main Sim.env 122 args (mkState seeded_world []) in
  first_run.1 = Exit 0 ∧ length (Sim.items seeded_world) = 11%nat ∧
  env_describe_table Sim.env (arg_table args) seeded_world
  = (inr seeded_description, seeded_world) ∧
  missing_indexes seeded_description = [] ∧
  run.1 = Exit 0 ∧ puts (trace run.2) = [] ∧
  Forall (fun ev => is_write ev = false) (trace run.2) ∧
  Sim.items (world run.2) = Sim.items seeded_world.
Proof.
  cbv zeta.
  assert (env_describe_table Sim.env
            (arg_table (music_args false false true (mkSizes 2 1 1 1 1 2))) seeded_world
          = (inr seeded_description, seeded_world)) as Hd
    by (apply Sim_describe_Some; vm_compute; reflexivity).
  assert (missing_indexes seeded_description = []) as Hm by (vm_compute; reflexivity).
  pose proof (skip_if_exists_writes_nothing Sim.env 122
                (music_args false false true (mkSizes 2 1 1 1 1 2))
                seeded_world seeded_world seeded_description Hd Hm eq_refl eq_refl) as H.
  cbv zeta in H. destruct H as (Hnw & Hputs & Hrun).
  specialize (Hrun seeded_description seeded_world Hd).
  assert (active_answer (inr seeded_description) = Ret true) as Hact by (vm_compute; reflexivity).
  assert (0 < 122)%nat as Hfuel by lia.
  specialize (Hrun Hact Hfuel).
  split; [vm_compute; reflexivity|]. split; [vm_compute; reflexivity|].
  split; [exact Hd|]. split; [exact Hm|].
  split; [rewrite Hrun; reflexivity|]. split; [exact Hputs|]. split; [exact Hnw|].
  rewrite Hrun. reflexivity.
Defined.

Definition is_create (ev : event) : bool :=
  match ev with EvCreate _ _ => true | _ => false end.

Lemma no_create_split (l pre post : list event) (ev : event) :
  Forall (fun ev => is_create ev = false) l → is_create ev = true → l ≠ pre ++ ev :: post.
Proof.
  intros Hl Hev ->. apply Forall_app in Hl as [_ Hl]. apply Forall_cons in Hl as [Hl _].
  congruence.
Qed.

Lemma create_split_unique (l1 l2 pre post : list event) (ev ev' : event) :
  Forall (fun ev => is_create ev = false) l1 →
  Forall (fun ev => is_create ev = false) l2 →
  is_create ev = true →
  pre ++ ev :: post = l1 ++ ev' :: l2 →
  pre = l1 ∧ ev = ev' ∧ post = l2.
Proof.
  intros Hl1 Hl2 Hev. revert pre. induction Hl1 as [|x l1 Hx _ IH]; intros pre Heq.
  - destruct pre as [|y pre]; cbn in Heq.
    + by injection Heq as -> ->.
    + injection Heq as -> Heq. by destruct (no_create_split l2 pre post ev).
  - destruct pre as [|y pre]; cbn in Heq.
    + injection Heq as -> Heq. congruence.
    + injection Heq as -> Heq. destruct (IH pre Heq) as (-> & -> & ->). done.
Qed.

Lemma describes_no_create (table_name : string) (answers : list (string + DescribeTableOutput)) :
  Forall (fun ev => is_create ev = false) (EvDescribe table_name <$> answers).
Proof. induction answers; by constructor. Qed.

Lemma deleted_answer_true (a : string + DescribeTableOutput) :
  deleted_answer a = Ret true → a = inl ResourceNotFoundException.
Proof.
  destruct a as [code|d]; cbn; [|done]. case_bool_decide as Hc; [done|].
  intros _. f_equal. by destruct (decide (code = ResourceNotFoundException)).
Qed.

Section Steps.
Context {W : Type} (E : Env W).

Lemma delete_table_step (table_name : string) (s : state W) :
  ∃ pr w, delete_table E table_name s
          = (client_result pr, mkState w (trace s ++ [EvDelete table_name pr])).
Proof.
  unfold delete_table, call. destruct (env_delete_table E table_name (world s)) as [pr w].
  by exists pr, w.
Qed.

Lemma create_table_step (req : CreateTableInput) (s : state W) :
  ∃ pr w, create_table E req s = (client_result pr, mkState w (trace s ++ [EvCreate req pr])).
Proof.
  unfold create_table, call. destruct (env_create_table E req (world s)) as [pr w].
  by exists pr, w.
Qed.

Lemma wait_deleted_spec (fuel : nat) (table_name : string) (s : state W) :
  ∃ evs, trace (wait_deleted E fuel table_name 60 s).2 = trace s ++ evs ∧
         waitS deleted_answer table_name (not_deleted_msg table_name)
               (wait_deleted E fuel table_name 60 s).1 evs.
Proof.
  rewrite wait_deleted_eq.
  pose proof (wait_loop_spec E deleted_answer (not_deleted_msg table_name) table_name
                60000000 (env_clock E (world s)) deleted_answer_fueled fuel s) as Hs.
  by destruct (wait_loop _ _ _ _ _ _ _ _).
Qed.

Lemma wait_table_active_spec (fuel : nat) (table_name : string) (s : state W) :
  ∃ evs, trace (wait_table_active E fuel table_name 60 s).2 = trace s ++ evs ∧
         waitS active_answer table_name (not_active_msg table_name)
               (wait_table_active E fuel table_name 60 s).1 evs.
Proof.
  rewrite wait_table_active_eq.
  pose proof (wait_loop_spec E active_answer (not_active_msg table_name) table_name
                60000000 (env_clock E (world s)) active_answer_fueled fuel s) as Hs.
  by destruct (wait_loop _ _ _ _ _ _ _ _).
Qed.

(** The requests of [delete; wait_deleted; create; wait_table_active]. *)
Definition rebuildS {A} (table_name : string) (r : result A) (evs : list event) : Prop :=
  (∃ code, evs = [EvDelete table_name (Some code)] ∧ r = Raise (ClientError code)) ∨
  (∃ polls, evs = EvDelete table_name None :: (EvDescribe table_name <$> polls) ∧
            ∀ u, r ≠ Ret u) ∨
  (∃ polls rc rest,
      evs = EvDelete table_name None :: (EvDescribe table_name <$> polls)
              ++ [EvDescribe table_name (inl ResourceNotFoundException)]
              ++ EvCreate (table_request table_name) rc :: (EvDescribe table_name <$> rest) ∧
      Forall (fun a => deleted_answer a = Ret false) polls ∧
      ∀ u, r = Ret u → rc = None).

Lemma rebuild_spec {A} (fuel : nat) (table_name : string) (a : A) (s s' : state W)
      (r : result A) :
  (delete_table E table_name ;;;
   wait_deleted E fuel table_name 60 ;;;
   create_table E (table_request table_name) ;;;
   wait_table_active E fuel table_name 60 ;;;
   ret a) s = (r, s') →
  ∃ evs, trace s' = trace s ++ evs ∧ rebuildS table_name r evs.
Proof.
  unfold bind at 1.
  destruct (delete_table_step table_name s) as (pr & w2 & ->).
  destruct pr as [code|]; cbn [client_result].
  { intros [= <- <-]. eexists. split; [reflexivity|]. left. by exists code. }
  unfold bind at 1.
  destruct (wait_deleted_spec fuel table_name (mkState w2 (trace s ++ [EvDelete table_name None])))
    as (evs & Htr & Hs).
  destruct (wait_deleted E fuel table_name 60 _) as [[[]|e|] s3]; cbn [fst snd trace] in *.
  2,3: intros [= <- <-]; destruct Hs as (answers & -> & _);
       exists (EvDelete table_name None :: (EvDescribe table_name <$> answers));
       (split; [by rewrite Htr, <- app_assoc|]); right; left; by exists answers.
  destruct Hs as (answers & -> & init & x & -> & Ha%deleted_answer_true & Hinit). subst x.
  unfold bind at 1.
  destruct (create_table_step (table_request table_name) s3) as (rc & w4 & ->).
  rewrite Htr, fmap_app, <- !app_assoc. cbn [fmap list_fmap app].
  destruct rc as [code|]; cbn [client_result].
  { intros [= <- <-].
    exists (EvDelete table_name None :: (EvDescribe table_name <$> init)
              ++ [EvDescribe table_name (inl ResourceNotFoundException)]
              ++ EvCreate (table_request table_name) (Some code) :: (EvDescribe table_name <$> [])).
    split; [reflexivity|].
    right; right. exists init, (Some code), []. split; [reflexivity|]. split; [exact Hinit|]. done. }
  unfold bind.
  match goal with |- context [wait_table_active E fuel table_name 60 ?s4] =>
    destruct (wait_table_active_spec fuel table_name s4) as (evs & Htr4 & answers & -> & _)
  end.
  destruct (wait_table_active E fuel table_name 60 _) as [r4 s5].
  cbn [snd trace] in Htr4. intros Hrun.
  assert (s5 = s') as -> by (by destruct r4; injection Hrun).
  exists (EvDelete table_name None :: (EvDescribe table_name <$> init)
            ++ [EvDescribe table_name (inl ResourceNotFoundException)]
            ++ EvCreate (table_request table_name) None :: (EvDescribe table_name <$> answers)).
  split.
  - rewrite Htr4, <- app_assoc. f_equal. cbn [app]. f_equal. by rewrite <- app_assoc.
  - right; right. exists init, None, answers. split; [reflexivity|]. split; [exact Hinit|]. done.
Qed.

End Steps.

(** C3: with [--recreate] and an existing table, a [create_table] request in
    the trace is the one of [table_request], and everything before it is the
    first [describe_table], the accepted [delete_table] and the polls of
    [wait_deleted], the last of which answered resource-not-found; a run of
    [ensure_table] that returns has had that request accepted; and the
    request names exactly the index GSI1 on (GSI1PK, GSI1SK) and the index
    LSI1 on (PK, LSI1SK). *)
Theorem recreate_deletes_before_creating {W : Type} (E : Env W) (fuel : nat)
        (table_name : string) (rimi : bool) (w w1 : W) (desc : DescribeTableOutput) :
  env_describe_table E table_name w = (inr desc, w1) →
  let run := ensure_table E fuel table_name true rimi (mkState w []) in
  (∀ pre req rc post,
      trace run.2 = pre ++ EvCreate req rc :: post →
      req = table_request table_name ∧
      ∃ polls,
        pre = EvDescribe table_name (inr desc) :: EvDelete table_name None
                :: (EvDescribe table_name <$> polls)
                ++ [EvDescribe table_name (inl ResourceNotFoundException)] ∧
        Forall (fun a => deleted_answer a = Ret false) polls) ∧
  (∀ existed,
      run.1 = Ret existed →
      ∃ pre post, trace run.2 = pre ++ EvCreate (table_request table_name) None :: post) ∧
  req_GlobalSecondaryIndexes (table_request table_name)
  = [mkIndexSpec "GSI1" [mkKey "GSI1PK" "HASH"; mkKey "GSI1SK" "RANGE"] "ALL"] ∧
  req_LocalSecondaryIndexes (table_request table_name)
  = [mkIndexSpec "LSI1" [mkKey "PK" "HASH"; mkKey "LSI1SK" "RANGE"] "ALL"].
Proof.
  intros Hd run. subst run. rewrite (ensure_table_recreate E fuel _ rimi w w1 [] desc Hd).
  cbn [app].
  match goal with |- context [bind ?m ?k (mkState w1 ?tr)] =>
    destruct (bind m k (mkState w1 tr)) as [r s'] eqn:Hrun
  end.
  apply rebuild_spec in Hrun as (evs & Htr & Hspec). cbn [fst snd trace app] in *.
  split; [|split; [|done]].
  - intros pre req rc post Heq. rewrite Htr in Heq.
    destruct Hspec as [(code & -> & _)|[(polls & -> & _)|(polls & rc' & rest & -> & Hpolls & _)]].
    + by apply (no_create_split _ pre post (EvCreate req rc)) in Heq; [|repeat constructor|].
    + apply (no_create_split _ pre post (EvCreate req rc)) in Heq; [done| |done].
      repeat constructor. apply describes_no_create.
    + symmetry in Heq. rewrite (app_assoc (EvDescribe table_name <$> polls)) in Heq.
      change (pre ++ EvCreate req rc :: post
              = (EvDescribe table_name (inr desc) :: EvDelete table_name None
                   :: (EvDescribe table_name <$> polls)
                   ++ [EvDescribe table_name (inl ResourceNotFoundException)])
                  ++ EvCreate (table_request table_name) rc' :: (EvDescribe table_name <$> rest))
        in Heq.
      apply create_split_unique in Heq as (-> & [= -> ->] & ->); [|..|done].
      * split; [done|]. by exists polls.
      * repeat constructor. apply Forall_app. split; [apply describes_no_create|].
        by repeat constructor.
      * apply describes_no_create.
  - intros existed ->.
    destruct Hspec as [(code & _ & [=])|[(polls & _ & Hno)|(polls & rc & rest & -> & _ & Hrc)]].
    + by destruct (Hno existed).
    + rewrite (Hrc existed eq_refl) in *.
      exists (EvDescribe table_name (inr desc) :: EvDelete table_name None
                :: (EvDescribe table_name <$> polls)
                ++ [EvDescribe table_name (inl ResourceNotFoundException)]),
             (EvDescribe table_name <$> rest).
      rewrite Htr. cbn [app]. by rewrite <- app_assoc.
Qed.

Lemma recreate_deletes_before_creating_witness :
  let w := Sim.bare "music" 1700000000000000 [] in
  let run := ensure_table Sim.env 122 "music" true false (mkState w []) in
  env_describe_table Sim.env "music" w = (inr bare_description, w) ∧
  run.1 = Ret true ∧
  (∃ pre post, trace run.2 = pre ++ EvCreate (table_request "music") None :: post) ∧
  take 3 (trace run.2)
  = [EvDescribe "music" (inr bare_description); EvDelete "music" None;
     EvDescribe "music" (inl ResourceNotFoundException)].
Proof.
  cbv zeta.
  assert (env_describe_table Sim.env "music" (Sim.bare "music" 1700000000000000 [])
          = (inr bare_description, Sim.bare "music" 1700000000000000 [])) as Hd
    by (apply Sim_describe_Some; vm_compute; reflexivity).
  pose proof (recreate_deletes_before_creating Sim.env 122 "music" false _ _ _ Hd) as H.
  cbv zeta in H. destruct H as (_ & Hret & _).
  split; [exact Hd|].
  assert ((ensure_table Sim.env 122 "music" true false
             (mkState (Sim.bare "music" 1700000000000000 []) [])).1 = Ret true) as Hrun
    by (vm_compute; reflexivity).
  split; [exact Hrun|]. split; [exact (Hret true Hrun)|].
  vm_compute; reflexivity.
Defined.

(** ** What the relational specifications imply *)

(** [P] holds of the events of every run that [S] allows. *)
Definition always {A} (S : Spec A) (P : list event → Prop) : Prop :=
  ∀ r evs, S r evs → P evs.

(** [P] holds of no events and of two runs in a row. *)
Definition app_closed (P : list event → Prop) : Prop :=
  P [] ∧ ∀ evs1 evs2, P evs1 → P evs2 → P (evs1 ++ evs2).

Lemma always_seqS {A B} (S1 : Spec A) (S2 : A → Spec B) (P : list event → Prop) :
  app_closed P → always S1 P → (∀ a, always (S2 a) P) → always (seqS S1 S2) P.
Proof.
  intros [_ Happ] H1 H2 r evs (r1 & evs1 & HS1 & H). destruct r1 as [a|e|].
  - destruct H as (evs2 & HS2 & ->). apply Happ; [by eapply H1|by eapply H2].
  - destruct H as [_ ->]. by eapply H1.
  - destruct H as [_ ->]. by eapply H1.
Qed.

Lemma always_loopS {A} (body : Z → A → Spec A) (P : list event → Prop) :
  app_closed P → (∀ i a, always (body i a) P) → ∀ n i a, always (loopS body i n a) P.
Proof.
  intros HP Hbody. induction n as [|n IH]; intros i a; cbn.
  - intros r evs [_ ->]. apply HP.
  - apply always_seqS; auto.
Qed.

Lemma always_putS {A} (b : string) (item : Item) (a : A) (P : list event → Prop) :
  (∀ pr, P [EvPut b item pr]) → always (putS b item a) P.
Proof. intros HP r evs (pr & -> & _). apply HP. Qed.

Lemma app_closed_Forall (Q : event → Prop) : app_closed (Forall Q).
Proof. split; [constructor|]. intros. by apply Forall_app. Qed.

(** *** Every item put is one of the seven kinds *)

Definition puts_all (Q : Item → Prop) (evs : list event) : Prop := Forall Q (puts evs).

Lemma app_closed_puts_all (Q : Item → Prop) : app_closed (puts_all Q).
Proof.
  split; [constructor|]. intros evs1 evs2 H1 H2. unfold puts_all, puts.
  rewrite omap_app. by apply Forall_app.
Qed.

Lemma puts_all_put (Q : Item → Prop) (b : string) (item : Item) (pr : option string) :
  Q item → puts_all Q [EvPut b item pr].
Proof. intros H. by repeat constructor. Qed.

(** The artists, their albums and their tracks. *)
Section Catalogue.
Variable Q : Item → Prop.
Hypothesis Q_artist : ∀ artist_id name city formed members,
    is_rand_id "ARTIST" artist_id → Q (artist_item artist_id name city formed members).
Hypothesis Q_album : ∀ artist_id album_id title year genre,
    is_rand_id "ARTIST" artist_id → is_rand_id "ALBUM" album_id →
    Q (album_item artist_id album_id title year genre).
Hypothesis Q_track : ∀ album_id track_id name milliseconds bytes unit_price,
    is_rand_id "ALBUM" album_id → is_rand_id "TRACK" track_id →
    Q (track_item album_id track_id name milliseconds bytes unit_price).

Lemma trackS_items b album_id ids :
  is_rand_id "ALBUM" album_id → always (trackS b album_id ids) (puts_all Q).
Proof.
  intros Hal r evs (track_id & name & ms & bytes & price & Hid & H). revert H.
  apply always_putS. intros pr. apply puts_all_put. by apply Q_track.
Qed.

Lemma albumS_items b artist_id n ids :
  is_rand_id "ARTIST" artist_id → always (albumS b artist_id n ids) (puts_all Q).
Proof.
  intros Har r evs (album_id & title & year & genre & Hid & H). revert H.
  apply always_seqS; [apply app_closed_puts_all|..].
  - apply always_putS. intros pr. apply puts_all_put. by apply Q_album.
  - intros _. apply always_loopS; [apply app_closed_puts_all|].
    intros. by apply trackS_items.
Qed.

Lemma artistS_items b n1 n2 ids : always (artistS b n1 n2 ids) (puts_all Q).
Proof.
  intros r evs (artist_id & name & city & formed & members & Hid & H). revert H.
  apply always_seqS; [apply app_closed_puts_all|..].
  - apply always_putS. intros pr. apply puts_all_put. by apply Q_artist.
  - intros _. apply always_loopS; [apply app_closed_puts_all|].
    intros. by apply albumS_items.
Qed.

End Catalogue.

(** The customers, their invoices and the lines, over one pool of tracks. *)
Section Sales.
Variable Q : Item → Prop.
Variable pool : list string.
Variable lines_per_invoice : Z.
Hypothesis Q_customer : ∀ cust_id name email city,
    is_rand_id "CUSTOMER" cust_id → Q (customer_item cust_id name email city).
Hypothesis Q_invoice : ∀ cust_id inv_id ts,
    is_rand_id "CUSTOMER" cust_id → is_rand_id "INVOICE" inv_id →
    Q (invoice_item cust_id inv_id ts ("INVOICE#" +:+ py_format_0d 10 ts +:+ "#" +:+ inv_id)).
Hypothesis Q_invoice_total : ∀ cust_id inv_id ts total,
    is_rand_id "CUSTOMER" cust_id → is_rand_id "INVOICE" inv_id →
    Q (invoice_total_item cust_id inv_id ts (Decimal_of_float (py_round2 total))
                          ("INVOICE#" +:+ py_format_0d 10 ts +:+ "#" +:+ inv_id)).
Hypothesis Q_line : ∀ inv_id line_ix trk d qty,
    is_rand_id "INVOICE" inv_id → 1 ≤ line_ix ≤ lines_per_invoice → track_ref pool trk →
    0 ≤ d < 2 ^ 53 → 1 ≤ qty ≤ 3 →
    let price := py_round2 (uniform_price d) in
    Q (line_item inv_id line_ix trk (Decimal_of_float price) (Decimal_of_int qty)
                 (py_round (fmul price (float_of_int 100)))).

Lemma linesS_items b inv_id n :
  is_rand_id "INVOICE" inv_id →
  ∀ i total, 1 ≤ i → (n ≠ O → i + Z.of_nat n ≤ lines_per_invoice + 1) →
             always (loopS (lineS b inv_id pool) i n total) (puts_all Q).
Proof.
  intros Hinv. induction n as [|n IH]; intros i total Hi Hn; cbn.
  - intros r evs [_ ->]. constructor.
  - specialize (Hn ltac:(done)). apply always_seqS; [apply app_closed_puts_all|..].
    + intros r evs (trk & d & qty & Htrk & Hd & Hqty & H). revert H.
      apply always_putS. intros pr. apply puts_all_put. apply Q_line; [done|lia|done..].
    + intros total'. apply IH; lia.
Qed.

Lemma invoiceS_items b cust_id :
  is_rand_id "CUSTOMER" cust_id →
  always (invoiceS b cust_id pool lines_per_invoice) (puts_all Q).
Proof.
  intros Hcu r evs (inv_id & ts & Hid & H). revert H.
  apply always_seqS; [apply app_closed_puts_all|..].
  - apply always_putS. intros pr. apply puts_all_put. by apply Q_invoice.
  - intros _. apply always_seqS; [apply app_closed_puts_all|..].
    + apply linesS_items; [done|lia|lia].
    + intros total. apply always_putS. intros pr. apply puts_all_put.
      by apply Q_invoice_total.
Qed.

Lemma customerS_items b n :
  always (customerS b pool n lines_per_invoice) (puts_all Q).
Proof.
  intros r evs (cust_id & name & email & city & Hid & H). revert H.
  apply always_seqS; [apply app_closed_puts_all|..].
  - apply always_putS. intros pr. apply puts_all_put. by apply Q_customer.
  - intros _. apply always_loopS; [apply app_closed_puts_all|].
    intros. by apply invoiceS_items.
Qed.

End Sales.

Section Items.
Variable Q : Item → Prop.
Variable sizes : Sizes.
Hypothesis Q_artist : ∀ artist_id name city formed members,
    is_rand_id "ARTIST" artist_id → Q (artist_item artist_id name city formed members).
Hypothesis Q_album : ∀ artist_id album_id title year genre,
    is_rand_id "ARTIST" artist_id → is_rand_id "ALBUM" album_id →
    Q (album_item artist_id album_id title year genre).
Hypothesis Q_track : ∀ album_id track_id name milliseconds bytes unit_price,
    is_rand_id "ALBUM" album_id → is_rand_id "TRACK" track_id →
    Q (track_item album_id track_id name milliseconds bytes unit_price).
Hypothesis Q_customer : ∀ cust_id name email city,
    is_rand_id "CUSTOMER" cust_id → Q (customer_item cust_id name email city).
Hypothesis Q_invoice : ∀ cust_id inv_id ts,
    is_rand_id "CUSTOMER" cust_id → is_rand_id "INVOICE" inv_id →
    Q (invoice_item cust_id inv_id ts ("INVOICE#" +:+ py_format_0d 10 ts +:+ "#" +:+ inv_id)).
Hypothesis Q_invoice_total : ∀ cust_id inv_id ts total,
    is_rand_id "CUSTOMER" cust_id → is_rand_id "INVOICE" inv_id →
    Q (invoice_total_item cust_id inv_id ts (Decimal_of_float (py_round2 total))
                          ("INVOICE#" +:+ py_format_0d 10 ts +:+ "#" +:+ inv_id)).
Hypothesis Q_line : ∀ inv_id line_ix trk d qty,
    is_rand_id "INVOICE" inv_id → 1 ≤ line_ix ≤ lines_per_invoice sizes →
    0 ≤ d < 2 ^ 53 → 1 ≤ qty ≤ 3 →
    let price := py_round2 (uniform_price d) in
    Q (line_item inv_id line_ix trk (Decimal_of_float price) (Decimal_of_int qty)
                 (py_round (fmul price (float_of_int 100)))).

Lemma seedS_items table : always (seedS table sizes) (puts_all Q).
Proof.
  intros r evs (r0 & evs0 & pr & H & _ & -> & _).
  apply app_closed_puts_all; [|constructor]. revert H.
  apply always_seqS; [apply app_closed_puts_all|..].
  - apply always_loopS; [apply app_closed_puts_all|]. intros. by apply artistS_items.
  - intros ids. apply always_loopS; [apply app_closed_puts_all|]. intros.
    apply customerS_items with (pool := track_ids ids);
      [exact Q_customer|exact Q_invoice|exact Q_invoice_total|].
    intros. by apply Q_line.
Qed.

End Items.

(** *** The attributes of the items *)

Lemma item_type_artist a n c f m : item_type (artist_item a n c f m) = Some "Artist".
Proof. reflexivity. Qed.
Lemma item_type_album a b t y g : item_type (album_item a b t y g) = Some "Album".
Proof. reflexivity. Qed.
Lemma item_type_track a t n m b p : item_type (track_item a t n m b p) = Some "Track".
Proof. reflexivity. Qed.
Lemma item_type_customer c n e ci : item_type (customer_item c n e ci) = Some "Customer".
Proof. reflexivity. Qed.
Lemma item_type_invoice c i ts l : item_type (invoice_item c i ts l) = Some "Invoice".
Proof. reflexivity. Qed.
Lemma item_type_invoice_total c i ts t l :
  item_type (invoice_total_item c i ts t l) = Some "Invoice".
Proof. reflexivity. Qed.
Lemma item_type_line i n t p q c : item_type (line_item i n t p q c) = Some "InvoiceLine".
Proof. reflexivity. Qed.

(** The sort value an artist, an album or a track declares for LSI1. *)
Definition declared_sort (item : Item) : option string :=
  if has_type "Artist" item then
    name ← attr_str "name" item; Some ("PROFILE#" +:+ name)
  else if has_type "Album" item then
    match item !! "year" with
    | Some (AInt year) =>
        album_id ← attr_str "album_id" item;
        Some ("ALBUM#" +:+ py_format_0d 4 year +:+ "#" +:+ album_id)
    | _ => None
    end
  else if has_type "Track" item then
    name ← attr_str "name" item; track_id ← attr_str "track_id" item;
    Some ("TRACK#" +:+ name +:+ "#" +:+ track_id)
  else None.

(** The index attributes of [item] are the functions of its type, its
    primary key and its declared sort value that [add_index_keys] computes. *)
Definition index_keys_determined (item : Item) : Prop :=
  ∃ t pk sk sort,
    item_type item = Some t ∧ attr_str "PK" item = Some pk ∧ attr_str "SK" item = Some sk ∧
    declared_sort item = Some sort ∧
    attr_str "GSI1PK" item = Some ("TYPE#" +:+ t) ∧
    attr_str "GSI1SK" item = Some (pk +:+ "#" +:+ sk) ∧
    attr_str "LSI1SK" item = Some sort.

Definition catalogue_item (item : Item) : Prop :=
  item_type item = Some "Artist" ∨ item_type item = Some "Album"
  ∨ item_type item = Some "Track".

Lemma add_index_keys_lookup (item : Item) (item_type pk sk : string) (lsi1sk : option string) :
  let item' := add_index_keys item item_type pk sk lsi1sk in
  item' !! "GSI1PK" = Some (AStr ("TYPE#" +:+ item_type)) ∧
  item' !! "GSI1SK" = Some (AStr (pk +:+ "#" +:+ sk)) ∧
  item' !! "LSI1SK" = Some (AStr (default sk lsi1sk)) ∧
  ∀ key, key ∉ ["GSI1PK"; "GSI1SK"; "LSI1SK"] → item' !! key = item !! key.
Proof.
  cbn zeta. unfold add_index_keys. repeat split.
  - by rewrite lookup_insert_ne, lookup_insert_ne, lookup_insert_eq.
  - by rewrite lookup_insert_ne, lookup_insert_eq.
  - rewrite lookup_insert_eq. by destruct lsi1sk.
  - intros key Hkey. rewrite !lookup_insert_ne; [done|..]; intros <-; apply Hkey; set_solver.
Qed.

(** C7: [add_index_keys] sets GSI1PK to "TYPE#" followed by the type, GSI1SK
    to the partition key, "#" and the sort key, and LSI1SK to the sort value
    given, or to the sort key when none is given; and every artist, album
    and track that [seed_data] puts carries exactly these values, computed
    from its own type, PK, SK and declared sort value. *)
Theorem index_keys_are_determined {W : Type} (E : Env W) (table : string) (sizes : Sizes)
        (w : W) :
  (∀ item item_type pk sk lsi1sk,
      let item' := add_index_keys item item_type pk sk lsi1sk in
      item' !! "GSI1PK" = Some (AStr ("TYPE#" +:+ item_type)) ∧
      item' !! "GSI1SK" = Some (AStr (pk +:+ "#" +:+ sk)) ∧
      item' !! "LSI1SK" = Some (AStr (default sk lsi1sk))) ∧
  Forall (fun item => catalogue_item item → index_keys_determined item)
         (puts (trace (seed_data E table sizes (mkState w [])).2)).
Proof.
  split.
  { intros item t pk sk lsi. pose proof (add_index_keys_lookup item t pk sk lsi) as H.
    cbn zeta in *. tauto. }
  destruct (seed_data_spec E table sizes (mkState w [])) as (evs & -> & H).
  cbn [trace app]. revert H. apply seedS_items.
  - intros a n c f m _ _. by exists "Artist", a, a, ("PROFILE#" +:+ n).
  - intros a b t y g _ _ _. by exists "Album", a, b, ("ALBUM#" +:+ py_format_0d 4 y +:+ "#" +:+ b).
  - intros a t n m b p _ _ _. by exists "Track", a, t, ("TRACK#" +:+ n +:+ "#" +:+ t).
  - intros c n e ci _ [H|[H|H]]; by rewrite item_type_customer in H.
  - intros c i ts _ _ [H|[H|H]]; by rewrite item_type_invoice in H.
  - intros c i ts t _ _ [H|[H|H]]; by rewrite item_type_invoice_total in H.
  - intros i n t d q _ _ _ _ price [H|[H|H]]; by rewrite item_type_line in H.
Qed.

(** *** Every upsert closes the segment of its invoice *)

(** The final upsert of an invoice: the invoice item that carries a total. *)
Definition is_upsert (item : Item) : Prop :=
  item_type item = Some "Invoice" ∧ is_Some (item !! "total").

Lemma app_eq_cons_inv {A} (xs ys l1 l2 : list A) (a : A) :
  xs ++ ys = l1 ++ a :: l2 →
  (∃ l2', xs = l1 ++ a :: l2' ∧ l2 = l2' ++ ys) ∨
  (∃ l1', l1 = xs ++ l1' ∧ ys = l1' ++ a :: l2).
Proof.
  revert l1. induction xs as [|x xs IH]; intros l1 Heq; cbn in Heq.
  - right. by exists l1.
  - destruct l1 as [|y l1]; cbn in Heq; injection Heq as -> Heq.
    + left. by exists xs.
    + destruct (IH l1 Heq) as [(l2' & -> & ->)|(l1' & -> & ->)].
      * left. by exists l2'.
      * right. by exists l1'.
Qed.

Lemma last_split_unique {A} (P : A → Prop) (xs l1 l2 : list A) (u a : A) :
  Forall (fun x => ¬ P x) xs → P a → xs ++ [u] = l1 ++ a :: l2 →
  l1 = xs ∧ a = u ∧ l2 = [].
Proof.
  intros Hxs Ha Heq. apply app_eq_cons_inv in Heq as [(l2' & -> & _)|(l1' & -> & Heq)].
  - apply Forall_app in Hxs as [_ Hxs]. apply Forall_cons in Hxs as [Hxs _]. done.
  - destruct l1' as [|y l1']; cbn in Heq.
    + injection Heq as Hu Hl. subst. by rewrite app_nil_r.
    + injection Heq as Hu Heq. by destruct l1'.
Qed.

Lemma puts_cons_put (b : string) (item : Item) (pr : option string) (evs : list event) :
  puts (EvPut b item pr :: evs) = item :: puts evs.
Proof. reflexivity. Qed.

Section Invoices.
Variable R : Item → list Item → Item → Prop.
Variable sizes : Sizes.
Hypothesis R_invoice : ∀ b cust_id inv_id ts pool total evl,
    is_rand_id "CUSTOMER" cust_id → is_rand_id "INVOICE" inv_id →
    loopS (lineS b inv_id pool) 1 (Z.to_nat (lines_per_invoice sizes)) 0%Q (Ret total) evl →
    let invoice_lsi := "INVOICE#" +:+ py_format_0d 10 ts +:+ "#" +:+ inv_id in
    R (invoice_item cust_id inv_id ts invoice_lsi) (puts evl)
      (invoice_total_item cust_id inv_id ts (Decimal_of_float (py_round2 total)) invoice_lsi).

(** Each upsert among [items] comes after an insert and the lines between
    them, related by [R]. *)
Definition upserts_close (items : list Item) : Prop :=
  ∀ l1 item l2,
    items = l1 ++ item :: l2 → is_upsert item →
    ∃ l0 first lines, l1 = l0 ++ first :: lines ∧ R first lines item.

Definition upserts_closeE (evs : list event) : Prop := upserts_close (puts evs).

Lemma app_closed_upserts : app_closed upserts_closeE.
Proof.
  split.
  - intros l1 item l2 Heq. by destruct l1.
  - intros evs1 evs2 H1 H2 l1 item l2 Heq Hup. rewrite puts_app in Heq.
    apply app_eq_cons_inv in Heq as [(l2' & Heq & _)|(l1' & -> & Heq)].
    + by apply (H1 _ _ _ Heq).
    + destruct (H2 _ _ _ Heq Hup) as (l0 & first & lines & -> & HR).
      exists (puts evs1 ++ l0), first, lines. by rewrite <- app_assoc.
Qed.

Lemma upserts_put (b : string) (item : Item) (pr : option string) :
  ¬ is_upsert item → upserts_closeE [EvPut b item pr].
Proof.
  intros Hno l1 item' l2 Heq Hup. destruct l1 as [|x l1]; cbn in Heq.
  - by injection Heq as <- _.
  - injection Heq as _ Heq. by destruct l1.
Qed.

Lemma not_upsert_type (item : Item) (t : string) :
  item_type item = Some t → t ≠ "Invoice" → ¬ is_upsert item.
Proof. intros Ht Hne [Hinv _]. congruence. Qed.

Lemma lines_not_upsert b inv_id pool n i total r evs :
  loopS (lineS b inv_id pool) i n total r evs → Forall (fun x => ¬ is_upsert x) (puts evs).
Proof.
  revert i total r evs. induction n as [|n IH]; intros i total r evs; cbn.
  - intros [_ ->]. constructor.
  - intros (r1 & evs1 & (trk & d & qty & _ & _ & _ & pr & -> & ->) & H).
    destruct pr as [code|].
    + destruct H as [_ ->]. repeat constructor.
      by eapply not_upsert_type; [apply item_type_line|].
    + destruct H as (evs2 & H & ->). constructor; [|by eapply IH].
      by eapply not_upsert_type; [apply item_type_line|].
Qed.

Lemma invoiceS_upserts b cust_id pool :
  is_rand_id "CUSTOMER" cust_id →
  always (invoiceS b cust_id pool (lines_per_invoice sizes)) upserts_closeE.
Proof.
  intros Hcu r evs (inv_id & ts & Hid & r1 & evs1 & (pr & -> & ->) & H).
  assert (¬ is_upsert (invoice_item cust_id inv_id ts
                         ("INVOICE#" +:+ py_format_0d 10 ts +:+ "#" +:+ inv_id))) as Hfirst.
  { intros [_ [x Hx]]. done. }
  destruct pr as [code|].
  { destruct H as [_ ->]. by apply upserts_put. }
  destruct H as (evs2 & (r2 & evl & Hlines & H) & ->).
  pose proof (lines_not_upsert _ _ _ _ _ _ _ _ Hlines) as Hno.
  destruct r2 as [total|e|].
  - destruct H as (evs3 & (pr & -> & _) & ->).
    intros l1 item l2 Heq Hup. cbn [app] in Heq.
    rewrite puts_cons_put, puts_app, puts_cons_put, app_comm_cons in Heq.
    apply (last_split_unique is_upsert) in Heq as (-> & -> & ->); [|by constructor|done].
    eexists [], _, _. split; [done|]. by eapply R_invoice.
  - destruct H as [_ ->].
    intros l1 item l2 Heq Hup. exfalso.
    assert (Forall (fun x => ¬ is_upsert x) (puts (EvPut b (invoice_item cust_id inv_id ts
              ("INVOICE#" +:+ py_format_0d 10 ts +:+ "#" +:+ inv_id)) None :: evl))) as Hall.
    { by constructor. }
    cbn [app] in Heq. rewrite Heq in Hall. apply Forall_app in Hall as [_ Hall].
    by apply Forall_cons in Hall as [Hall _].
  - destruct H as [_ ->].
    intros l1 item l2 Heq Hup. exfalso.
    assert (Forall (fun x => ¬ is_upsert x) (puts (EvPut b (invoice_item cust_id inv_id ts
              ("INVOICE#" +:+ py_format_0d 10 ts +:+ "#" +:+ inv_id)) None :: evl))) as Hall.
    { by constructor. }
    cbn [app] in Heq. rewrite Heq in Hall. apply Forall_app in Hall as [_ Hall].
    by apply Forall_cons in Hall as [Hall _].
Qed.

Lemma customerS_upserts b pool n :
  always (customerS b pool n (lines_per_invoice sizes)) upserts_closeE.
Proof.
  intros r evs (cust_id & name & email & city & Hid & H). revert H.
  apply always_seqS; [apply app_closed_upserts|..].
  - apply always_putS. intros pr. apply upserts_put.
    by eapply not_upsert_type; [apply item_type_customer|].
  - intros _. apply always_loopS; [apply app_closed_upserts|].
    intros. by apply invoiceS_upserts.
Qed.

Lemma trackS_upserts b album_id ids : always (trackS b album_id ids) upserts_closeE.
Proof.
  intros r evs (track_id & name & ms & bytes & price & Hid & H). revert H.
  apply always_putS. intros pr. apply upserts_put.
  by eapply not_upsert_type; [apply item_type_track|].
Qed.

Lemma albumS_upserts b artist_id n ids : always (albumS b artist_id n ids) upserts_closeE.
Proof.
  intros r evs (album_id & title & year & genre & Hid & H). revert H.
  apply always_seqS; [apply app_closed_upserts|..].
  - apply always_putS. intros pr. apply upserts_put.
    by eapply not_upsert_type; [apply item_type_album|].
  - intros _. apply always_loopS; [apply app_closed_upserts|].
    intros. by apply trackS_upserts.
Qed.

Lemma artistS_upserts b n1 n2 ids : always (artistS b n1 n2 ids) upserts_closeE.
Proof.
  intros r evs (artist_id & name & city & formed & members & Hid & H). revert H.
  apply always_seqS; [apply app_closed_upserts|..].
  - apply always_putS. intros pr. apply upserts_put.
    by eapply not_upsert_type; [apply item_type_artist|].
  - intros _. apply always_loopS; [apply app_closed_upserts|].
    intros. by apply albumS_upserts.
Qed.

Lemma seedS_upserts table : always (seedS table sizes) upserts_closeE.
Proof.
  intros r evs (r0 & evs0 & pr & H & _ & -> & _).
  apply app_closed_upserts.
  - revert H. apply always_seqS; [apply app_closed_upserts|..].
    + apply always_loopS; [apply app_closed_upserts|]. intros. apply artistS_upserts.
    + intros ids. apply always_loopS; [apply app_closed_upserts|].
      intros. apply customerS_upserts.
  - intros l1 item l2 Heq. by destruct l1.
Qed.

End Invoices.

(** The sort value of an invoice: its timestamp, zero-padded, and its id. *)
Definition invoice_sort (item : Item) : option string :=
  match item !! "ts" with
  | Some (AInt ts) =>
      inv_id ← attr_str "invoice_id" item;
      Some ("INVOICE#" +:+ py_format_0d 10 ts +:+ "#" +:+ inv_id)
  | _ => None
  end.

(** [item] is the invoice [first] with a total added: the same keys, the same
    index attributes, derived from the same timestamp and invoice id. *)
Definition overwrites (first item : Item) : Prop :=
  item_type first = Some "Invoice" ∧ first !! "total" = None ∧
  (∃ total, item = <["total" := ADec total]> first) ∧
  primary_key item = primary_key first ∧
  attr_str "GSI1PK" item = attr_str "GSI1PK" first ∧
  attr_str "GSI1SK" item = attr_str "GSI1SK" first ∧
  attr_str "LSI1SK" item = attr_str "LSI1SK" first ∧
  is_Some (invoice_sort first) ∧
  attr_str "LSI1SK" first = invoice_sort first ∧
  attr_str "LSI1SK" item = invoice_sort item.

Lemma invoice_total_overwrites cust_id inv_id ts total :
  let invoice_lsi := "INVOICE#" +:+ py_format_0d 10 ts +:+ "#" +:+ inv_id in
  overwrites (invoice_item cust_id inv_id ts invoice_lsi)
             (invoice_total_item cust_id inv_id ts total invoice_lsi).
Proof.
  cbn zeta. repeat split; try reflexivity.
  - by exists total.
  - by eexists.
Qed.

(** C6: every final upsert of an invoice comes after the insert of that
    invoice, and is that item with a total added: the same primary key and
    the same GSI1PK, GSI1SK and LSI1SK, the latter derived in both from the
    same timestamp and invoice id. *)
Theorem upsert_keeps_index_keys {W : Type} (E : Env W) (table : string) (sizes : Sizes)
        (w : W) (l1 l2 : list Item) (item : Item) :
  puts (trace (seed_data E table sizes (mkState w [])).2) = l1 ++ item :: l2 →
  is_upsert item →
  ∃ l0 first lines, l1 = l0 ++ first :: lines ∧ overwrites first item.
Proof.
  destruct (seed_data_spec E table sizes (mkState w [])) as (evs & -> & H).
  cbn [trace app]. revert H l1 item l2.
  apply (seedS_upserts (fun first _ item => overwrites first item) sizes).
  intros. apply invoice_total_overwrites.
Qed.

Lemma upsert_keeps_index_keys_witness :
  puts (trace demo_seed.2) = take 10 demo_items ++ demo_upsert :: drop 11 demo_items ∧
  is_upsert demo_upsert ∧
  ∃ l0 first lines, take 10 demo_items = l0 ++ first :: lines ∧ overwrites first demo_upsert.
Proof.
  unfold demo_upsert, demo_items, demo_seed.
  pose proof (split_at_index ∅ 10 _ ltac:(rewrite demo_length; lia)) as Heq.
  assert (is_upsert
            (default ∅ (puts (trace (seed_data Sim.env "music" (mkSizes 2 1 1 1 1 2)
                                       (mkState demo_world [])).2) !! 10%nat))) as Hup.
  { split; [vm_compute; reflexivity|]. vm_compute. eexists. reflexivity. }
  split; [exact Heq|]. split; [exact Hup|].
  exact (upsert_keeps_index_keys Sim.env "music" (mkSizes 2 1 1 1 1 2) demo_world _ _ _ Heq Hup).
Defined.

(** *** The track of a line *)

Lemma loopS_rel {A} (body : Z → A → Spec A) (I : A → A → list event → Prop) :
  (∀ a, I a a []) →
  (∀ a b c evs1 evs2, I a b evs1 → I b c evs2 → I a c (evs1 ++ evs2)) →
  (∀ i a a' evs, body i a (Ret a') evs → I a a' evs) →
  ∀ n i a a' evs, loopS body i n a (Ret a') evs → I a a' evs.
Proof.
  intros Hrefl Htrans Hbody. induction n as [|n IH]; intros i a a' evs; cbn.
  - intros [[= ->] ->]. apply Hrefl.
  - intros (r1 & evs1 & H1 & H). destruct r1 as [b|e|]; [|by destruct H..].
    destruct H as (evs2 & H2 & ->). eapply Htrans; [by eapply Hbody|by eapply IH].
Qed.

(** The tracks put are the identifiers added to [track_ids]. *)
Definition pool_grows (ids ids' : Ids) (evs : list event) : Prop :=
  track_ids ids' = track_ids ids ++ track_pool (puts evs).

Lemma pool_grows_refl ids : pool_grows ids ids [].
Proof. unfold pool_grows. cbn. by rewrite app_nil_r. Qed.

Lemma pool_grows_trans a b c evs1 evs2 :
  pool_grows a b evs1 → pool_grows b c evs2 → pool_grows a c (evs1 ++ evs2).
Proof.
  unfold pool_grows. intros H1 H2.
  rewrite H2, H1, puts_app. unfold track_pool. by rewrite omap_app, app_assoc.
Qed.

Lemma trackS_pool b album_id ids ids' evs :
  trackS b album_id ids (Ret ids') evs → pool_grows ids ids' evs.
Proof.
  intros (track_id & name & ms & bytes & price & _ & pr & -> & H).
  destruct pr; [done|]. by injection H as ->.
Qed.

Lemma albumS_pool b artist_id n ids ids' evs :
  albumS b artist_id n ids (Ret ids') evs → pool_grows ids ids' evs.
Proof.
  intros (album_id & title & year & genre & _ & r1 & evs1 & (pr & -> & ->) & H).
  destruct pr; [by destruct H|]. destruct H as (evs2 & H & ->).
  apply (loopS_rel _ pool_grows) in H;
    [|apply pool_grows_refl|apply pool_grows_trans|intros; by eapply trackS_pool].
  unfold pool_grows in *. by rewrite H.
Qed.

Lemma artistS_pool b n1 n2 ids ids' evs :
  artistS b n1 n2 ids (Ret ids') evs → pool_grows ids ids' evs.
Proof.
  intros (artist_id & name & city & formed & members & _ & r1 & evs1 & (pr & -> & ->) & H).
  destruct pr; [by destruct H|]. destruct H as (evs2 & H & ->).
  apply (loopS_rel _ pool_grows) in H;
    [|apply pool_grows_refl|apply pool_grows_trans|intros; by eapply albumS_pool].
  unfold pool_grows in *. by rewrite H.
Qed.

(** What holds of a line put over [pool], and of the other sales items. *)
Definition line_over (pool : list string) (item : Item) : Prop :=
  item_type item ≠ Some "Track" ∧
  (item_type item = Some "InvoiceLine" →
   ∃ trk, attr_str "track_id" item = Some trk ∧ track_ref pool trk).

Lemma customerS_lines b pool n1 n2 :
  always (customerS b pool n1 n2) (puts_all (line_over pool)).
Proof.
  apply customerS_items.
  - by intros; split.
  - by intros; split.
  - by intros; split.
  - intros inv_id line_ix trk d qty _ _ Htrk _ _ price. split; [done|]. intros _. by exists trk.
Qed.

Lemma track_pool_none (items : list Item) :
  Forall (fun item => item_type item ≠ Some "Track") items → track_pool items = [].
Proof.
  induction 1 as [|item items Hitem _ IH]; [done|]. cbn.
  unfold has_type. by rewrite bool_decide_false.
Qed.

Lemma seedS_lines table sizes r evs l1 item l2 :
  seedS table sizes r evs →
  puts evs = l1 ++ item :: l2 →
  item_type item = Some "InvoiceLine" →
  ∃ trk, attr_str "track_id" item = Some trk ∧ track_ref (track_pool l1) trk.
Proof.
  intros (r0 & evs0 & pr & (r1 & evs1 & Hart & H) & _ & -> & _) Heq Hline.
  rewrite puts_app in Heq. cbn in Heq. rewrite app_nil_r in Heq.
  assert (puts_all (fun item => item_type item ≠ Some "InvoiceLine") evs1) as Hno.
  { revert Hart. apply always_loopS; [apply app_closed_puts_all|].
    intros. by apply artistS_items. }
  destruct r1 as [ids|e|].
  - destruct H as (evs2 & Hcust & ->).
    apply (loopS_rel _ pool_grows) in Hart;
      [|apply pool_grows_refl|apply pool_grows_trans|intros; by eapply artistS_pool].
    unfold pool_grows in Hart. cbn in Hart.
    assert (puts_all (line_over (track_ids ids)) evs2) as Hlines.
    { revert Hcust. apply always_loopS; [apply app_closed_puts_all|].
      intros. apply customerS_lines. }
    rewrite puts_app in Heq.
    apply app_eq_cons_inv in Heq as [(l2' & Heq & _)|(l1' & -> & Heq)].
    + unfold puts_all in Hno. rewrite Heq in Hno.
      apply Forall_app in Hno as [_ Hno]. by apply Forall_cons in Hno as [Hno _].
    + unfold puts_all in Hlines. rewrite Heq in Hlines.
      apply Forall_app in Hlines as [Hl1 Hitem]. apply Forall_cons in Hitem as [[_ Hitem] _].
      unfold track_pool. rewrite omap_app. fold (track_pool (puts evs1)).
      fold (track_pool l1'). rewrite <- Hart.
      rewrite (track_pool_none l1'), app_nil_r; [by apply Hitem|].
      eapply Forall_impl; [exact Hl1|]. by intros x [Hx _].
  - destruct H as [_ ->]. unfold puts_all in Hno. rewrite Heq in Hno.
    apply Forall_app in Hno as [_ Hno]. by apply Forall_cons in Hno as [Hno _].
  - destruct H as [_ ->]. unfold puts_all in Hno. rewrite Heq in Hno.
    apply Forall_app in Hno as [_ Hno]. by apply Forall_cons in Hno as [Hno _].
Qed.

(** C8: the track of every invoice line is one of the tracks put earlier in
    the run when there is one, and otherwise an identifier made by
    [rand_id "TRACK"]. *)
Theorem line_tracks_come_from_the_pool {W : Type} (E : Env W) (table : string)
        (sizes : Sizes) (w : W) (l1 l2 : list Item) (item : Item) :
  puts (trace (seed_data E table sizes (mkState w [])).2) = l1 ++ item :: l2 →
  item_type item = Some "InvoiceLine" →
  ∃ trk, attr_str "track_id" item = Some trk ∧
         if bool_decide (track_pool l1 ≠ []) then trk ∈ track_pool l1
         else is_rand_id "TRACK" trk.
Proof.
  destruct (seed_data_spec E table sizes (mkState w [])) as (evs & -> & H).
  cbn [trace app]. intros Heq Hline. exact (seedS_lines table sizes _ evs l1 item l2 H Heq Hline).
Qed.

Lemma line_tracks_come_from_the_pool_witness :
  puts (trace demo_seed.2) = take 8 demo_items ++ demo_line :: drop 9 demo_items ∧
  item_type demo_line = Some "InvoiceLine" ∧
  track_pool (take 8 demo_items) = ["TRACK#AAAAAAAA"; "TRACK#BAAAAAAA"] ∧
  ∃ trk, attr_str "track_id" demo_line = Some trk ∧
         if bool_decide (track_pool (take 8 demo_items) ≠ [])
         then trk ∈ track_pool (take 8 demo_items) else is_rand_id "TRACK" trk.
Proof.
  unfold demo_line, demo_items, demo_seed.
  pose proof (split_at_index ∅ 8 _ ltac:(rewrite demo_length; lia)) as Heq.
  assert (item_type
            (default ∅ (puts (trace (seed_data Sim.env "music" (mkSizes 2 1 1 1 1 2)
                                       (mkState demo_world [])).2) !! 8%nat))
          = Some "InvoiceLine") as Hty by (vm_compute; reflexivity).
  split; [exact Heq|]. split; [exact Hty|]. split; [vm_compute; reflexivity|].
  exact (line_tracks_come_from_the_pool Sim.env "music" (mkSizes 2 1 1 1 1 2) demo_world
           _ _ _ Heq Hty).
Defined.

(** *** Counting the puts of an accepted run *)

(** The seven kinds of put: the six record types, the invoice counted apart
    when it carries its total. *)
Inductive kind := KArtist | KAlbum | KTrack | KCustomer | KInvoice | KTotal | KLine.

#[global] Instance kind_eq_dec : EqDecision kind.
Proof. solve_decision. Defined.

Definition item_kind (item : Item) : option kind :=
  if has_type "Artist" item then Some KArtist
  else if has_type "Album" item then Some KAlbum
  else if has_type "Track" item then Some KTrack
  else if has_type "Customer" item then Some KCustomer
  else if has_type "Invoice" item then
    if bool_decide (is_Some (item !! "total")) then Some KTotal else Some KInvoice
  else if has_type "InvoiceLine" item then Some KLine
  else None.

Definition is_kind (k : kind) (item : Item) : bool := bool_decide (item_kind item = Some k).

(** The number of puts of kind [k] in a trace. *)
Definition count_kind (k : kind) (evs : list event) : nat :=
  length (filter (fun item => is_kind k item = true) (puts evs)).

(** The number of puts of each kind that the sizes ask for. *)
Definition seed_count (sizes : Sizes) (k : kind) : nat :=
  let a := Z.to_nat (artists sizes) in
  let b := Z.to_nat (albums_per_artist sizes) in
  let t := Z.to_nat (tracks_per_album sizes) in
  let c := Z.to_nat (customers sizes) in
  let i := Z.to_nat (invoices_per_customer sizes) in
  let l := Z.to_nat (lines_per_invoice sizes) in
  match k with
  | KArtist => a
  | KAlbum => a * b
  | KTrack => a * (b * t)
  | KCustomer => c
  | KInvoice => c * i
  | KTotal => c * i
  | KLine => c * (i * l)
  end%nat.

Definition kind_eqb (k0 k : kind) : bool :=
  match k0, k with
  | KArtist, KArtist | KAlbum, KAlbum | KTrack, KTrack | KCustomer, KCustomer
  | KInvoice, KInvoice | KTotal, KTotal | KLine, KLine => true
  | _, _ => false
  end.

Definition one (k0 k : kind) : nat := if kind_eqb k0 k then 1%nat else 0%nat.

(** An accepted run allowed by [S] returns, with [c k] puts of kind [k]. *)
Definition yields {A} (S : Spec A) (c : kind → nat) : Prop :=
  ∀ r evs, S r evs → accepted evs → (∃ a, r = Ret a) ∧ ∀ k, count_kind k evs = c k.

Lemma count_kind_app (k : kind) (evs1 evs2 : list event) :
  count_kind k (evs1 ++ evs2) = (count_kind k evs1 + count_kind k evs2)%nat.
Proof. unfold count_kind. by rewrite puts_app, filter_app, length_app. Qed.

Lemma yields_putS {A} (b : string) (item : Item) (a : A) (k0 : kind) :
  item_kind item = Some k0 → yields (putS b item a) (one k0).
Proof.
  intros Hk r evs (pr & -> & ->) Hacc. apply Forall_cons in Hacc as [Hpr _]. cbn in Hpr.
  subst pr. split; [by exists a|]. intros k. unfold count_kind, one, is_kind.
  rewrite puts_cons_put. change (puts []) with (@nil Item).
  rewrite filter_cons, filter_nil, Hk. destruct (decide (k0 = k)) as [->|Hne].
  - rewrite decide_True by (by apply bool_decide_eq_true). by destruct k.
  - rewrite decide_False by (rewrite bool_decide_eq_true; congruence).
    by destruct k0, k.
Qed.

Lemma yields_seqS {A B} (S1 : Spec A) (S2 : A → Spec B) (c1 c2 : kind → nat) :
  yields S1 c1 → (∀ a, yields (S2 a) c2) → yields (seqS S1 S2) (fun k => (c1 k + c2 k)%nat).
Proof.
  intros H1 H2 r evs (r1 & evs1 & HS1 & H) Hacc. destruct r1 as [a|e|].
  - destruct H as (evs2 & HS2 & ->). apply Forall_app in Hacc as [Hacc1 Hacc2].
    destruct (H1 _ _ HS1 Hacc1) as [_ Hc1]. destruct (H2 a _ _ HS2 Hacc2) as [Hr Hc2].
    split; [done|]. intros k. by rewrite count_kind_app, Hc1, Hc2.
  - destruct H as [_ ->]. by destruct (H1 _ _ HS1 Hacc) as [[a [=]] _].
  - destruct H as [_ ->]. by destruct (H1 _ _ HS1 Hacc) as [[a [=]] _].
Qed.

Lemma yields_loopS {A} (body : Z → A → Spec A) (c : kind → nat) :
  (∀ i a, yields (body i a) c) →
  ∀ n i a, yields (loopS body i n a) (fun k => (n * c k)%nat).
Proof.
  intros Hbody. induction n as [|n IH]; intros i a.
  - intros r evs [-> ->] _. split; [by exists a|done].
  - cbn [loopS]. eapply (yields_seqS _ _ c (fun k => (n * c k)%nat)); [apply Hbody|].
    intros a'. apply IH.
Qed.

Lemma yields_ext {A} (S : Spec A) (c c' : kind → nat) :
  yields S c → (∀ k, c k = c' k) → yields S c'.
Proof.
  intros H Hc r evs HS Hacc. destruct (H r evs HS Hacc) as [Hr Hk].
  split; [done|]. intros k. by rewrite Hk.
Qed.

Lemma trackS_yields b album_id ids : yields (trackS b album_id ids) (one KTrack).
Proof.
  intros r evs (track_id & name & ms & bytes & price & _ & H). revert H.
  by apply yields_putS.
Qed.

Lemma albumS_yields b artist_id n ids :
  yields (albumS b artist_id n ids)
         (fun k => (one KAlbum k + Z.to_nat n * one KTrack k)%nat).
Proof.
  intros r evs (album_id & title & year & genre & _ & H). revert H.
  apply yields_seqS; [by apply yields_putS|].
  intros _. apply yields_loopS. intros. apply trackS_yields.
Qed.

Lemma artistS_yields b n1 n2 ids :
  yields (artistS b n1 n2 ids)
         (fun k => (one KArtist k
                    + Z.to_nat n1 * (one KAlbum k + Z.to_nat n2 * one KTrack k))%nat).
Proof.
  intros r evs (artist_id & name & city & formed & members & _ & H). revert H.
  apply yields_seqS; [by apply yields_putS|].
  intros _. apply yields_loopS. intros. apply albumS_yields.
Qed.

Lemma lineS_yields b inv_id pool i total : yields (lineS b inv_id pool i total) (one KLine).
Proof.
  intros r evs (trk & d & qty & _ & _ & _ & H). revert H. by apply yields_putS.
Qed.

Lemma invoiceS_yields b cust_id pool n :
  yields (invoiceS b cust_id pool n)
         (fun k => (one KInvoice k + (Z.to_nat n * one KLine k + one KTotal k))%nat).
Proof.
  intros r evs (inv_id & ts & _ & H). revert H.
  apply yields_seqS; [by apply yields_putS|].
  intros _. apply yields_seqS.
  - apply yields_loopS. intros. apply lineS_yields.
  - intros total. by apply yields_putS.
Qed.

Lemma customerS_yields b pool n1 n2 :
  yields (customerS b pool n1 n2)
         (fun k => (one KCustomer k
                    + Z.to_nat n1 * (one KInvoice k
                                     + (Z.to_nat n2 * one KLine k + one KTotal k)))%nat).
Proof.
  intros r evs (cust_id & name & email & city & _ & H). revert H.
  apply yields_seqS; [by apply yields_putS|].
  intros _. apply yields_loopS. intros. apply invoiceS_yields.
Qed.

Lemma seedS_yields table sizes : yields (seedS table sizes) (seed_count sizes).
Proof.
  intros r evs (r0 & evs0 & pr & H & _ & -> & ->) Hacc.
  apply Forall_app in Hacc as [Hacc Hpr]. apply Forall_cons in Hpr as [Hpr _].
  cbn in Hpr. subst pr.
  assert (yields (seed_bodyS table sizes) (seed_count sizes)) as Hbody.
  { eapply yields_ext.
    - apply yields_seqS.
      + apply yields_loopS. intros. apply artistS_yields.
      + intros ids. apply yields_loopS. intros. apply customerS_yields.
    - intros k. unfold seed_count, one. destruct k; cbn [kind_eqb]; ring. }
  destruct (Hbody _ _ H Hacc) as [Hr Hk]. split; [done|].
  intros k. rewrite count_kind_app, Hk. cbn. lia.
Qed.

(** *** The run of the small sizes, put by put *)

Definition small_sizes : Sizes := mkSizes 2 1 1 1 1 2.

Lemma accepted_app (evs1 evs2 : list event) :
  accepted (evs1 ++ evs2) ↔ accepted evs1 ∧ accepted evs2.
Proof. apply Forall_app. Qed.

Lemma accepted_put b item pr : accepted [EvPut b item pr] → pr = None.
Proof. intros H. by apply Forall_cons in H as [H _]. Qed.

Lemma putS_accepted {A} b item (a : A) r evs :
  putS b item a r evs → accepted evs → r = Ret a ∧ evs = [EvPut b item None].
Proof. intros (pr & -> & ->) Hacc. apply accepted_put in Hacc. by subst pr. Qed.

Lemma seqS_accepted {A B} (S1 : Spec A) (S2 : A → Spec B) (c : kind → nat) r evs :
  yields S1 c → seqS S1 S2 r evs → accepted evs →
  ∃ a evs1 evs2, S1 (Ret a) evs1 ∧ S2 a r evs2 ∧ evs = evs1 ++ evs2
                 ∧ accepted evs1 ∧ accepted evs2.
Proof.
  intros Hy (r1 & evs1 & H1 & H) Hacc. destruct r1 as [a|e|].
  - destruct H as (evs2 & H2 & ->). apply accepted_app in Hacc as [Hacc1 Hacc2].
    by exists a, evs1, evs2.
  - destruct H as [_ ->]. by destruct (Hy _ _ H1 Hacc) as [[a [=]] _].
  - destruct H as [_ ->]. by destruct (Hy _ _ H1 Hacc) as [[a [=]] _].
Qed.

Lemma trackS_accepted b album_id ids r evs :
  trackS b album_id ids r evs → accepted evs →
  ∃ track_id name ms bytes price,
    is_rand_id "TRACK" track_id ∧ r = Ret (add_track ids track_id) ∧
    puts evs = [track_item album_id track_id name ms bytes price].
Proof.
  intros (track_id & name & ms & bytes & price & Hid & H) Hacc.
  apply putS_accepted in H as [-> ->]; [|done]. by exists track_id, name, ms, bytes, price.
Qed.

(** An album with one track. *)
Lemma albumS_accepted b artist_id ids r evs :
  albumS b artist_id 1 ids r evs → accepted evs →
  ∃ album_id title year genre track_id name ms bytes price ids',
    is_rand_id "ALBUM" album_id ∧ is_rand_id "TRACK" track_id ∧ r = Ret ids' ∧
    puts evs = [album_item artist_id album_id title year genre;
                track_item album_id track_id name ms bytes price].
Proof.
  intros (album_id & title & year & genre & Hid & H) Hacc.
  eapply seqS_accepted in H as (u & evs1 & evs2 & H1 & H2 & -> & Hacc1 & Hacc2);
    [|by apply yields_putS|done].
  apply putS_accepted in H1 as [_ ->]; [|done].
  change (Z.to_nat 1) with 1%nat in H2. cbn [loopS] in H2.
  eapply seqS_accepted in H2 as (ids' & evs3 & evs4 & H3 & [-> ->] & -> & Hacc3 & _);
    [|apply trackS_yields|done].
  apply trackS_accepted in H3 as (track_id & name & ms & bytes & price & Htid & _ & Hp);
    [|done].
  exists album_id, title, year, genre, track_id, name, ms, bytes, price. eexists.
  repeat split; [done..|]. rewrite !puts_app, Hp. reflexivity.
Qed.

(** An artist with one album of one track. *)
Lemma artistS_accepted b ids r evs :
  artistS b 1 1 ids r evs → accepted evs →
  ∃ artist_id aname city formed members album_id title year genre
    track_id name ms bytes price ids',
    is_rand_id "ARTIST" artist_id ∧ is_rand_id "ALBUM" album_id ∧
    is_rand_id "TRACK" track_id ∧ r = Ret ids' ∧
    puts evs = [artist_item artist_id aname city formed members;
                album_item artist_id album_id title year genre;
                track_item album_id track_id name ms bytes price].
Proof.
  intros (artist_id & aname & city & formed & members & Hid & H) Hacc.
  eapply seqS_accepted in H as (u & evs1 & evs2 & H1 & H2 & -> & Hacc1 & Hacc2);
    [|by apply yields_putS|done].
  apply putS_accepted in H1 as [_ ->]; [|done].
  change (Z.to_nat 1) with 1%nat in H2. cbn [loopS] in H2.
  eapply seqS_accepted in H2 as (ids' & evs3 & evs4 & H3 & [-> ->] & -> & Hacc3 & _);
    [|apply albumS_yields|done].
  apply albumS_accepted in H3
    as (album_id & title & year & genre & track_id & name & ms & bytes & price & ids''
        & Hal & Htr & _ & Hp); [|done].
  exists artist_id, aname, city, formed, members, album_id, title, year, genre,
    track_id, name, ms, bytes, price. eexists.
  repeat split; [done..|]. rewrite !puts_app, Hp. reflexivity.
Qed.

Lemma lineS_accepted b inv_id pool i total r evs :
  lineS b inv_id pool i total r evs → accepted evs →
  ∃ trk price qty cents total',
    r = Ret total' ∧ puts evs = [line_item inv_id i trk price qty cents].
Proof.
  intros (trk & d & qty & _ & _ & _ & H) Hacc.
  apply putS_accepted in H as [-> ->]; [|done]. by eexists trk, _, _, _, _.
Qed.

(** A customer with one invoice of two lines. *)
Lemma customerS_accepted b pool r evs :
  customerS b pool 1 2 r evs → accepted evs →
  ∃ cust_id name email city inv_id ts trk1 price1 qty1 cents1 trk2 price2 qty2 cents2 total,
    let lsi := "INVOICE#" +:+ py_format_0d 10 ts +:+ "#" +:+ inv_id in
    is_rand_id "CUSTOMER" cust_id ∧ is_rand_id "INVOICE" inv_id ∧ r = Ret tt ∧
    puts evs = [customer_item cust_id name email city;
                invoice_item cust_id inv_id ts lsi;
                line_item inv_id 1 trk1 price1 qty1 cents1;
                line_item inv_id 2 trk2 price2 qty2 cents2;
                invoice_total_item cust_id inv_id ts total lsi].
Proof.
  intros (cust_id & name & email & city & Hid & H) Hacc.
  eapply seqS_accepted in H as (u & evs1 & evs2 & H1 & H2 & -> & Hacc1 & Hacc2);
    [|by apply yields_putS|done].
  apply putS_accepted in H1 as [_ ->]; [|done].
  change (Z.to_nat 1) with 1%nat in H2. cbn [loopS] in H2.
  eapply seqS_accepted in H2 as (u' & evs3 & evs4 & H3 & [-> ->] & -> & Hacc3 & _);
    [|apply invoiceS_yields|done].
  destruct H3 as (inv_id & ts & Hinv & H3).
  eapply seqS_accepted in H3 as (u1 & evs5 & evs6 & H5 & H6 & -> & Hacc5 & Hacc6);
    [|by apply yields_putS|done].
  apply putS_accepted in H5 as [_ ->]; [|done].
  eapply seqS_accepted in H6 as (total & evs7 & evs8 & H7 & H8 & -> & Hacc7 & Hacc8);
    [|apply yields_loopS; intros; apply lineS_yields|done].
  apply putS_accepted in H8 as [_ ->]; [|done].
  change (Z.to_nat 2) with 2%nat in H7. cbn [loopS] in H7.
  eapply seqS_accepted in H7 as (t1 & evs9 & evs10 & H9 & H10 & -> & Hacc9 & Hacc10);
    [|apply lineS_yields|done].
  eapply seqS_accepted in H10 as (t2 & evs11 & evs12 & H11 & [_ ->] & -> & Hacc11 & _);
    [|apply lineS_yields|done].
  apply lineS_accepted in H9 as (trk1 & price1 & qty1 & cents1 & t1' & _ & Hp1); [|done].
  apply lineS_accepted in H11 as (trk2 & price2 & qty2 & cents2 & t2' & _ & Hp2); [|done].
  exists cust_id, name, email, city, inv_id, ts, trk1, price1, qty1, cents1,
    trk2, price2, qty2, cents2. eexists. cbn zeta.
  split; [done|]. split; [done|]. split; [by destruct u'|].
  rewrite !puts_app, Hp1, Hp2. reflexivity.
Qed.

Lemma small_run_shape (table : string) (r : result unit) (evs : list event) :
  seedS table small_sizes r evs → accepted evs →
  ∃ a1 n1 c1 f1 m1 b1 t1 y1 g1 k1 kn1 ms1 by1 p1
    a2 n2 c2 f2 m2 b2 t2 y2 g2 k2 kn2 ms2 by2 p2
    c cn ce cc i ts x1 pp1 q1 pc1 x2 pp2 q2 pc2 total,
    let lsi := "INVOICE#" +:+ py_format_0d 10 ts +:+ "#" +:+ i in
    (is_rand_id "ARTIST" a1 ∧ is_rand_id "ALBUM" b1 ∧ is_rand_id "TRACK" k1 ∧
     is_rand_id "ARTIST" a2 ∧ is_rand_id "ALBUM" b2 ∧ is_rand_id "TRACK" k2 ∧
     is_rand_id "CUSTOMER" c ∧ is_rand_id "INVOICE" i) ∧
    puts evs = [artist_item a1 n1 c1 f1 m1; album_item a1 b1 t1 y1 g1;
                track_item b1 k1 kn1 ms1 by1 p1;
                artist_item a2 n2 c2 f2 m2; album_item a2 b2 t2 y2 g2;
                track_item b2 k2 kn2 ms2 by2 p2;
                customer_item c cn ce cc;
                invoice_item c i ts lsi;
                line_item i 1 x1 pp1 q1 pc1; line_item i 2 x2 pp2 q2 pc2;
                invoice_total_item c i ts total lsi].
Proof.
  intros (r0 & evs0 & pr & H & _ & -> & _) Hacc.
  apply accepted_app in Hacc as [Hacc _].
  unfold seed_bodyS, small_sizes in H. cbn [artists albums_per_artist tracks_per_album customers
    invoices_per_customer lines_per_invoice] in H.
  change (Z.to_nat 2) with 2%nat in H. change (Z.to_nat 1) with 1%nat in H.
  eapply seqS_accepted in H as (ids & evs1 & evs2 & H1 & H2 & -> & Hacc1 & Hacc2);
    [|apply yields_loopS; intros; apply artistS_yields|done].
  cbn [loopS] in H1, H2.
  eapply seqS_accepted in H1 as (ids1 & evs3 & evs4 & H3 & H4 & -> & Hacc3 & Hacc4);
    [|apply artistS_yields|done].
  eapply seqS_accepted in H4 as (ids2 & evs5 & evs6 & H5 & [_ ->] & -> & Hacc5 & _);
    [|apply artistS_yields|done].
  eapply seqS_accepted in H2 as (u & evs7 & evs8 & H7 & [_ ->] & -> & Hacc7 & _);
    [|apply customerS_yields|done].
  apply artistS_accepted in H3
    as (a1 & n1 & c1 & f1 & m1 & b1 & t1 & y1 & g1 & k1 & kn1 & ms1 & by1 & p1 & ? &
        ? & ? & ? & _ & Hp1); [|done].
  apply artistS_accepted in H5
    as (a2 & n2 & c2 & f2 & m2 & b2 & t2 & y2 & g2 & k2 & kn2 & ms2 & by2 & p2 & ? &
        ? & ? & ? & _ & Hp2); [|done].
  apply customerS_accepted in H7
    as (c & cn & ce & cc & i & ts & x1 & pp1 & q1 & pc1 & x2 & pp2 & q2 & pc2 & total &
        ? & ? & _ & Hp3); [|done].
  exists a1, n1, c1, f1, m1, b1, t1, y1, g1, k1, kn1, ms1, by1, p1,
    a2, n2, c2, f2, m2, b2, t2, y2, g2, k2, kn2, ms2, by2, p2,
    c, cn, ce, cc, i, ts, x1, pp1, q1, pc1, x2, pp2, q2, pc2, total.
  cbn zeta. split; [done|].
  rewrite !puts_app, Hp1, Hp2, Hp3. reflexivity.
Qed.

(** The three index attributes are present. *)
Definition carries_index_keys (item : Item) : Prop :=
  is_Some (attr_str "GSI1PK" item) ∧ is_Some (attr_str "GSI1SK" item)
  ∧ is_Some (attr_str "LSI1SK" item).

(** The records of a list of puts: every put but the final upserts, which
    overwrite the invoice put before. *)
Definition records (items : list Item) : list Item :=
  filter (fun item => is_kind KTotal item = false) items.

(** The identifiers (sort keys) of the items of one kind. *)
Definition ids_of (k : kind) (items : list Item) : list string :=
  omap (attr_str "SK") (filter (fun item => is_kind k item = true) items).

Lemma rand_id_prefix (prefix s : string) :
  is_rand_id prefix s → ∃ rest, s = prefix +:+ "#" +:+ rest.
Proof. intros (cs & _ & _ & ->). by eexists. Qed.

Lemma seedS_carry_index_keys table sizes r evs :
  seedS table sizes r evs → Forall carries_index_keys (puts evs).
Proof.
  apply (seedS_items carries_index_keys sizes); intros; by repeat split; eexists.
Qed.

(** C4 (amended): with the sizes artists=2, albums-per-artist=1,
    tracks-per-album=1, customers=1, invoices-per-customer=1 and
    lines-per-invoice=2, a run whose writes are all accepted returns after 11
    puts: 2 artists, 2 albums, 2 tracks, 1 customer, 2 invoice lines and the
    invoice twice, first as inserted and last with its total.  Every item
    carries the three index attributes.  Without the final upsert, whose
    primary key is the one of the invoice put before, these are 10 records,
    and their primary keys are distinct whenever the two artist ids differ
    and the two track ids differ. *)
Theorem small_run_puts {W : Type} (E : Env W) (table : string) (w : W) :
  let run := seed_data E table (mkSizes 2 1 1 1 1 2) (mkState w []) in
  let items := puts (trace run.2) in
  accepted (trace run.2) →
  run.1 = Ret tt ∧
  (count_kind KArtist (trace run.2) = 2%nat ∧ count_kind KAlbum (trace run.2) = 2%nat ∧
   count_kind KTrack (trace run.2) = 2%nat ∧ count_kind KCustomer (trace run.2) = 1%nat ∧
   count_kind KInvoice (trace run.2) = 1%nat ∧ count_kind KTotal (trace run.2) = 1%nat ∧
   count_kind KLine (trace run.2) = 2%nat) ∧
  length items = 11%nat ∧
  Forall carries_index_keys items ∧
  length (records items) = 10%nat ∧
  length (filter (fun item => is_kind KLine item = false) (records items)) = 8%nat ∧
  (∀ item, item ∈ items → is_kind KTotal item = true →
           primary_key item ∈ primary_key <$> records items) ∧
  (NoDup (ids_of KArtist items) → NoDup (ids_of KTrack items) →
   NoDup (primary_key <$> records items)).
Proof.
  intros run items Hacc. subst run items.
  destruct (seed_data_spec E table (mkSizes 2 1 1 1 1 2) (mkState w [])) as (evs & Htr & H).
  rewrite Htr in *. cbn [trace app] in *.
  destruct (seedS_yields table _ _ _ H Hacc) as [[[] ->] Hcount].
  split; [done|]. split; [by rewrite !Hcount|].
  split; [|split; [by eapply seedS_carry_index_keys|]].
  - destruct (small_run_shape table _ _ H Hacc)
      as (a1 & n1 & c1 & f1 & m1 & b1 & t1 & y1 & g1 & k1 & kn1 & ms1 & by1 & p1 &
          a2 & n2 & c2 & f2 & m2 & b2 & t2 & y2 & g2 & k2 & kn2 & ms2 & by2 & p2 &
          c & cn & ce & cc & i & ts & x1 & pp1 & q1 & pc1 & x2 & pp2 & q2 & pc2 & total &
          _ & ->).
    reflexivity.
  - destruct (small_run_shape table _ _ H Hacc)
      as (a1 & n1 & c1 & f1 & m1 & b1 & t1 & y1 & g1 & k1 & kn1 & ms1 & by1 & p1 &
          a2 & n2 & c2 & f2 & m2 & b2 & t2 & y2 & g2 & k2 & kn2 & ms2 & by2 & p2 &
          c & cn & ce & cc & i & ts & x1 & pp1 & q1 & pc1 & x2 & pp2 & q2 & pc2 & total &
          (Ha1 & Hb1 & Hk1 & Ha2 & Hb2 & Hk2 & Hc & Hi) & ->).
    apply rand_id_prefix in Ha1 as [ra1 ->], Hb1 as [rb1 ->], Hk1 as [rk1 ->],
      Ha2 as [ra2 ->], Hb2 as [rb2 ->], Hk2 as [rk2 ->], Hc as [rc ->], Hi as [ri ->].
    clear H Htr Hcount Hacc. cbn [String.append].
    set (items := [_; _; _; _; _; _; _; _; _; _; _]).
    let ks := eval vm_compute in (ids_of KArtist items) in
      change (ids_of KArtist items) with ks.
    let ks := eval vm_compute in (ids_of KTrack items) in
      change (ids_of KTrack items) with ks.
    let ks := eval vm_compute in (primary_key <$> records items) in
      change (primary_key <$> records items) with ks.
    split; [reflexivity|]. split; [reflexivity|]. split.
    + intros item Hin Htot. subst items.
      repeat (apply elem_of_cons in Hin as [->|Hin]; [try (by vm_compute in Htot)|]).
      * apply list_elem_of_lookup. by exists 7%nat.
      * by apply elem_of_nil in Hin.
    + intros Ha Hk. apply NoDup_cons in Ha as [Ha _], Hk as [Hk _].
      apply not_elem_of_cons in Ha as [Ha _], Hk as [Hk _].
      repeat (apply NoDup_cons; split;
              [rewrite ?not_elem_of_cons; repeat split; try apply not_elem_of_nil;
               intros ?; simplify_eq|]).
      apply NoDup_nil_2.
Qed.

Lemma small_run_puts_witness :
  accepted (trace demo_seed.2) ∧
  demo_seed.1 = Ret tt ∧ length demo_items = 11%nat ∧ length (records demo_items) = 10%nat ∧
  length (filter (fun item => is_kind KLine item = false) (records demo_items)) = 8%nat ∧
  NoDup (primary_key <$> records demo_items).
Proof.
  pose proof (small_run_puts Sim.env "music" demo_world) as H.
  cbv zeta in H. specialize (H demo_accepted).
  unfold demo_items, demo_seed.
  destruct H as (Hret & _ & Hlen & _ & Hrec & Htop & _ & Hkeys).
  split; [exact demo_accepted|].
  split; [exact Hret|]. split; [exact Hlen|]. split; [exact Hrec|]. split; [exact Htop|].
  apply Hkeys.
  - apply (bool_decide_unpack _). vm_compute. exact I.
  - apply (bool_decide_unpack _). vm_compute. exact I.
Defined.

(** With draws that are all the same the two artists get one identifier, and
    so do their albums and tracks: the table holds 7 records, 5 of them other
    than invoice lines. *)
Lemma small_run_colliding_ids :
  let run := seed_data Sim.env "music" (mkSizes 2 1 1 1 1 2)
               (mkState (Sim.fresh 1700000000000000 []) []) in
  let items := puts (trace run.2) in
  run.1 = Ret tt ∧ accepted (trace run.2) ∧ length items = 11%nat ∧
  ids_of KArtist items = ["ARTIST#AAAAAAAA"; "ARTIST#AAAAAAAA"] ∧
  length (remove_dups (primary_key <$> items)) = 7%nat ∧
  length (remove_dups
            (primary_key <$> filter (fun item => is_kind KLine item = false) items)) = 5%nat.
Proof.
  cbv zeta. split; [vm_compute; reflexivity|].
  split; [apply (bool_decide_unpack _); vm_compute; exact I|].
  split; [vm_compute; reflexivity|]. split; [vm_compute; reflexivity|].
  split; vm_compute; reflexivity.
Qed.


(** *** Invoices without lines *)

(** The upsert [item] comes right after the insert [first], with nothing
    between them, and stores the total [0.0]. *)
Definition empty_invoice (first : Item) (lines : list Item) (item : Item) : Prop :=
  lines = [] ∧ overwrites first item ∧
  ∃ total, attr_dec "total" item = Some total ∧ total = mkDecimal 0 (-1) ∧
           (dec_value total == 0)%Q.

(** C10: with lines-per-invoice at most zero, a run whose writes are all
    accepted returns without an exception, puts no invoice line, and puts
    every invoice twice: once for each of the invoices-per-customer rounds of
    each customer, the insert and right after it the upsert with the total
    [0.0]. *)
Theorem no_lines_zero_total {W : Type} (E : Env W) (table : string) (sizes : Sizes) (w : W) :
  lines_per_invoice sizes ≤ 0 →
  let run := seed_data E table sizes (mkState w []) in
  accepted (trace run.2) →
  run.1 = Ret tt ∧
  Forall (fun item => item_type item ≠ Some "InvoiceLine") (puts (trace run.2)) ∧
  count_kind KInvoice (trace run.2)
  = (Z.to_nat (customers sizes) * Z.to_nat (invoices_per_customer sizes))%nat ∧
  count_kind KTotal (trace run.2)
  = (Z.to_nat (customers sizes) * Z.to_nat (invoices_per_customer sizes))%nat ∧
  upserts_close empty_invoice (puts (trace run.2)).
Proof.
  intros Hlines run Hacc. subst run.
  destruct (seed_data_spec E table sizes (mkState w [])) as (evs & Htr & H).
  rewrite Htr in *. cbn [trace app] in *.
  destruct (seedS_yields table _ _ _ H Hacc) as [[[] ->] Hcount].
  split; [reflexivity|]. split; [|split; [apply Hcount|split; [apply Hcount|]]].
  - revert H. apply (seedS_items _ sizes); try (intros; discriminate).
    intros inv_id line_ix trk d qty _ Hix. lia.
  - revert H. apply (seedS_upserts empty_invoice sizes).
    intros b cust_id inv_id ts pool total evl _ _ Hloop.
    replace (Z.to_nat (lines_per_invoice sizes)) with 0%nat in Hloop by lia.
    destruct Hloop as [[= ->] ->]. cbn zeta. split; [reflexivity|]. split.
    + apply invoice_total_overwrites.
    + by exists (mkDecimal 0 (-1)).
Qed.

Lemma no_lines_zero_total_witness :
  let sizes := mkSizes 1 1 1 1 2 0 in
  let run := seed_data Sim.env "music" sizes (mkState demo_world []) in
  lines_per_invoice sizes ≤ 0 ∧ accepted (trace run.2) ∧
  run.1 = Ret tt ∧
  Forall (fun item => item_type item ≠ Some "InvoiceLine") (puts (trace run.2)) ∧
  count_kind KInvoice (trace run.2) = 2%nat ∧ count_kind KTotal (trace run.2) = 2%nat ∧
  upserts_close empty_invoice (puts (trace run.2)).
Proof.
  cbv zeta.
  assert (lines_per_invoice (mkSizes 1 1 1 1 2 0) ≤ 0) as Hl by (cbn; lia).
  assert (accepted (trace (seed_data Sim.env "music" (mkSizes 1 1 1 1 2 0)
                             (mkState demo_world [])).2)) as Hacc.
  { unfold accepted. apply (bool_decide_unpack _). vm_compute. exact I. }
  pose proof (no_lines_zero_total Sim.env "music" (mkSizes 1 1 1 1 2 0) demo_world Hl) as H.
  cbv zeta in H. specialize (H Hacc). destruct H as (Hret & Hno & Hinv & Htot & Hup).
  split; [exact Hl|]. split; [exact Hacc|]. split; [exact Hret|]. split; [exact Hno|].
  split; [exact Hinv|]. split; [exact Htot|]. exact Hup.
Defined.

(** * Further properties of the script *)

(** ** ensure_table, whatever the service answers *)

Definition retS {A} (a : A) : Spec A := fun r evs => r = Ret a ∧ evs = [].

Definition raiseS {A} (e : exn) : Spec A := fun r evs => r = Raise e ∧ evs = [].

Definition deleteS (table_name : string) : Spec unit :=
  fun r evs => ∃ pr, evs = [EvDelete table_name pr] ∧ r = client_result pr.

Definition createS (req : CreateTableInput) : Spec unit :=
  fun r evs => ∃ pr, evs = [EvCreate req pr] ∧ r = client_result pr.

(** The first [describe_table] of [ensure_table], with its [except] clause. *)
Definition firstS (table_name : string) : Spec (option DescribeTableOutput) :=
  fun r evs =>
    ∃ a, evs = [EvDescribe table_name a] ∧
         r = match a with
             | inr d => Ret (Some d)
             | inl code =>
                 if bool_decide (code ≠ ResourceNotFoundException)
                 then Raise (ClientError code) else Ret None
             end.

Section EnsureSpec.
Variables WD WA : Spec unit.
Variable table_name : string.

(** [delete_table; wait_deleted], over a specification [WD] of the wait. *)
Definition dropS_over : Spec unit := seqS (deleteS table_name) (fun _ => WD).

(** [ensure_table], statement by statement, over specifications [WD] and
    [WA] of its two waits. *)
Definition ensureS_over (recreate rimi : bool) : Spec bool :=
  seqS (firstS table_name)
    (fun desc =>
       seqS (match desc with
             | Some d =>
                 if negb recreate then
                   if bool_decide (missing_indexes d ≠ []) then
                     if rimi then
                       seqS (deleteS table_name) (fun _ => seqS WD (fun _ => retS false))
                     else raiseS (RuntimeError (missing_msg table_name d))
                   else retS true
                 else retS true
             | None => retS false
             end)
         (fun exists_ =>
            seqS (if exists_ && recreate then dropS_over else retS tt)
              (fun _ =>
                 seqS (if negb exists_ || recreate
                       then createS (table_request table_name) else retS tt)
                   (fun _ => seqS WA (fun _ => retS exists_))))).

End EnsureSpec.

Definition dropS (table_name : string) : Spec unit :=
  dropS_over (waitS deleted_answer table_name (not_deleted_msg table_name)) table_name.

Definition ensureS (table_name : string) : bool → bool → Spec bool :=
  ensureS_over (waitS deleted_answer table_name (not_deleted_msg table_name))
               (waitS active_answer table_name (not_active_msg table_name)) table_name.

Section EnsureTable.
Context {W : Type} (E : Env W).

Lemma emits_retS {A} (a : A) : emits (W := W) (ret a) (retS a).
Proof. by apply emits_ret. Qed.

Lemma emits_raiseS {A} (e : exn) : emits (W := W) (A := A) (raise e) (raiseS e).
Proof. intros s. exists []. cbn. by rewrite app_nil_r. Qed.

Lemma emits_delete_table (table_name : string) :
  emits (delete_table E table_name) (deleteS table_name).
Proof.
  intros s. destruct (delete_table_step E table_name s) as (pr & w & ->).
  exists [EvDelete table_name pr]. split; [done|]. by exists pr.
Qed.

Lemma emits_create_table (req : CreateTableInput) :
  emits (create_table E req) (createS req).
Proof.
  intros s. destruct (create_table_step E req s) as (pr & w & ->).
  exists [EvCreate req pr]. split; [done|]. by exists pr.
Qed.

Lemma emits_wait_deleted (fuel : nat) (table_name : string) :
  emits (wait_deleted E fuel table_name 60)
        (waitS deleted_answer table_name (not_deleted_msg table_name)).
Proof. intros s. apply wait_deleted_spec. Qed.

Lemma emits_wait_table_active (fuel : nat) (table_name : string) :
  emits (wait_table_active E fuel table_name 60)
        (waitS active_answer table_name (not_active_msg table_name)).
Proof. intros s. apply wait_table_active_spec. Qed.

Lemma emits_first_describe (table_name : string) :
  emits (catch (d <- describe_table E table_name ;; ret (Some d))
               (unless_not_found (ret None)))
        (firstS table_name).
Proof.
  intros s. unfold catch, bind, describe_table, call.
  destruct (env_describe_table E table_name (world s)) as [[code|d] w]; cbn.
  - exists [EvDescribe table_name (inl code)]. case_bool_decide; cbn.
    + split; [done|]. exists (inl code). split; [done|]. by case_bool_decide.
    + split; [done|]. exists (inl code). split; [done|]. by case_bool_decide.
  - exists [EvDescribe table_name (inr d)]. split; [done|]. by exists (inr d).
Qed.

Lemma ensure_table_spec_over (WD WA : Spec unit) (fuel : nat) (table_name : string)
      (recreate rimi : bool) :
  emits (wait_deleted E fuel table_name 60) WD →
  emits (wait_table_active E fuel table_name 60) WA →
  emits (ensure_table E fuel table_name recreate rimi)
        (ensureS_over WD WA table_name recreate rimi).
Proof.
  intros HWD HWA. unfold ensure_table, ensureS_over.
  apply emits_bind; [apply emits_first_describe|]. intros desc.
  apply emits_bind.
  - destruct desc as [d|]; [|apply emits_retS].
    destruct (negb recreate); [|apply emits_retS].
    case_bool_decide; [|apply emits_retS].
    destruct rimi; [|apply emits_raiseS].
    apply emits_bind; [apply emits_delete_table|]. intros _.
    apply emits_bind; [apply HWD|]. intros _. apply emits_retS.
  - intros exists_. apply emits_bind.
    + destruct (exists_ && recreate); [|apply emits_retS].
      apply emits_bind; [apply emits_delete_table|]. intros _. apply HWD.
    + intros _. apply emits_bind.
      * destruct (negb exists_ || recreate); [apply emits_create_table|apply emits_retS].
      * intros _. apply emits_bind; [apply HWA|].
        intros _. apply emits_retS.
Qed.

Lemma ensure_table_spec (fuel : nat) (table_name : string) (recreate rimi : bool) :
  emits (ensure_table E fuel table_name recreate rimi) (ensureS table_name recreate rimi).
Proof.
  apply ensure_table_spec_over; [apply emits_wait_deleted|apply emits_wait_table_active].
Qed.

End EnsureTable.

(** *** What the statements of [ensure_table] add up to *)

Lemma seqS_retS_l {A B} (a : A) (K : A → Spec B) r evs :
  seqS (retS a) K r evs → K a r evs.
Proof. by intros (r1 & evs1 & [-> ->] & evs2 & HK & ->). Qed.

Lemma seqS_raiseS_l {A B} (e : exn) (K : A → Spec B) r evs :
  seqS (raiseS e) K r evs → r = Raise e ∧ evs = [].
Proof. by intros (r1 & evs1 & [-> ->] & -> & ->). Qed.

(** The result of [m ;;; ret b], from the one of [m]. *)
Definition then_ret {A B} (b : B) (r : result A) : result B :=
  match r with
  | Ret _ => Ret b
  | Raise e => Raise e
  | OutOfFuel => OutOfFuel
  end.

Lemma seqS_retS_r {A B} (S : Spec A) (b : B) r evs :
  seqS S (fun _ => retS b) r evs → ∃ r0, S r0 evs ∧ r = then_ret b r0.
Proof.
  intros (r0 & evs0 & HS & H). exists r0. destruct r0 as [a|e|].
  - destruct H as (evs2 & [-> ->] & ->). by rewrite app_nil_r.
  - by destruct H as [-> ->].
  - by destruct H as [-> ->].
Qed.

(** [create_table; wait_table_active; return b] *)
Definition buildS (table_name : string) (b : bool) : Spec bool :=
  fun r evs =>
    ∃ rc polls r0,
      evs = EvCreate (table_request table_name) rc :: polls ∧
      match rc with
      | Some code => r = Raise (ClientError code) ∧ polls = []
      | None => waitS active_answer table_name (not_active_msg table_name) r0 polls ∧
                r = then_ret b r0
      end.

(** [delete_table; wait_deleted], then [buildS]. *)
Definition rebuild_allS (table_name : string) (b : bool) : Spec bool :=
  fun r evs =>
    ∃ rd polls r0 rest,
      evs = EvDelete table_name rd :: polls ++ rest ∧
      match rd with
      | Some code => r = Raise (ClientError code) ∧ polls = [] ∧ rest = []
      | None =>
          waitS deleted_answer table_name (not_deleted_msg table_name) r0 polls ∧
          match r0 with
          | Ret _ => buildS table_name b r rest
          | _ => r = then_ret b r0 ∧ rest = []
          end
      end.

(** The requests of [ensure_table] after the first one, by its answer [a]. *)
Definition after_first (table_name : string) (recreate rimi : bool)
           (a : string + DescribeTableOutput) : Spec bool :=
  fun r rest =>
    match a with
    | inl code =>
        if bool_decide (code ≠ ResourceNotFoundException)
        then r = Raise (ClientError code) ∧ rest = []
        else buildS table_name false r rest
    | inr d =>
        if recreate then rebuild_allS table_name true r rest
        else if bool_decide (missing_indexes d ≠ []) then
               if rimi then rebuild_allS table_name false r rest
               else r = Raise (RuntimeError (missing_msg table_name d)) ∧ rest = []
             else ∃ r0, waitS active_answer table_name (not_active_msg table_name) r0 rest ∧
                        r = then_ret true r0
    end.

Lemma build_steps (table_name : string) (b : bool) r evs :
  seqS (createS (table_request table_name))
       (fun _ => seqS (waitS active_answer table_name (not_active_msg table_name))
                      (fun _ => retS b)) r evs →
  buildS table_name b r evs.
Proof.
  intros (r1 & evs1 & (rc & -> & ->) & H). destruct rc as [code|]; cbn in H.
  - destruct H as [-> ->]. by exists (Some code), [], (Ret tt).
  - destruct H as (evs2 & (r0 & Hw & ->)%seqS_retS_r & ->). by exists None, evs2, r0.
Qed.

Lemma drop_steps {B} (table_name : string) (K : Spec B) r evs :
  seqS (dropS table_name) (fun _ => K) r evs →
  ∃ rd polls r0 rest,
    evs = EvDelete table_name rd :: polls ++ rest ∧
    match rd with
    | Some code => r = Raise (ClientError code) ∧ polls = [] ∧ rest = []
    | None =>
        waitS deleted_answer table_name (not_deleted_msg table_name) r0 polls ∧
        match r0 with
        | Ret _ => K r rest
        | Raise e => r = Raise e ∧ rest = []
        | OutOfFuel => r = OutOfFuel ∧ rest = []
        end
    end.
Proof.
  intros (r1 & evs1 & (r2 & evs2 & (rd & -> & ->) & Hd) & H).
  destruct rd as [code|]; cbn in Hd.
  - destruct Hd as [-> ->]. destruct H as [-> ->]. by exists (Some code), [], (Ret tt), [].
  - destruct Hd as (polls & Hw & ->). exists None, polls, r1.
    destruct r1 as [[]|e|].
    + destruct H as (rest & HK & ->). by exists rest.
    + destruct H as [-> ->]. exists []. by rewrite app_nil_r.
    + destruct H as [-> ->]. exists []. by rewrite app_nil_r.
Qed.

Lemma ensureS_after_first (table_name : string) (recreate rimi : bool) r evs :
  ensureS table_name recreate rimi r evs →
  ∃ a rest, evs = EvDescribe table_name a :: rest ∧
            after_first table_name recreate rimi a r rest.
Proof.
  intros (r1 & evs1 & (a & -> & ->) & H). exists a. destruct a as [code|d]; cbn.
  - case_bool_decide.
    + destruct H as [-> ->]. by exists [].
    + destruct H as (rest & H & ->). exists rest. split; [done|].
      apply seqS_retS_l in H. cbn [andb orb negb] in H. apply seqS_retS_l in H.
      by apply build_steps.
  - destruct H as (rest & H & ->). exists rest. split; [done|].
    destruct recreate; cbn [negb] in *.
    + apply seqS_retS_l in H. cbn [andb orb negb] in H.
      apply drop_steps in H as (rd & polls & r0 & rest' & -> & H).
      exists rd, polls, r0, rest'. split; [done|]. destruct rd as [code|]; [done|].
      destruct H as [Hw H]. split; [done|]. destruct r0 as [[]|e|]; [|done..].
      by apply build_steps.
    + case_bool_decide as Hmiss.
      * destruct rimi.
        -- destruct H as (r2 & evs2 & H2 & H).
           destruct H2 as (r3 & evs3 & (rd & -> & ->) & H3).
           exists rd. destruct rd as [code|]; cbn in H3.
           { destruct H3 as [-> ->]. destruct H as [-> ->]. by exists [], (Ret tt), []. }
           destruct H3 as (evs4 & (r0 & Hw & ->)%seqS_retS_r & ->).
           exists evs4, r0. destruct r0 as [[]|e|]; cbn in H.
           ++ destruct H as (rest' & H & ->). exists rest'. split; [done|]. split; [done|].
              cbn [andb orb negb] in H. apply seqS_retS_l in H. by apply build_steps.
           ++ destruct H as [-> ->]. exists []. by rewrite app_nil_r.
           ++ destruct H as [-> ->]. exists []. by rewrite app_nil_r.
        -- by apply seqS_raiseS_l in H.
      * apply seqS_retS_l in H. cbn [andb orb negb] in H.
        apply seqS_retS_l in H. apply seqS_retS_l in H. by apply seqS_retS_r in H.
Qed.

Lemma ensure_table_run {W : Type} (E : Env W) (fuel : nat) (table_name : string)
      (recreate rimi : bool) (s : state W) :
  let run := ensure_table E fuel table_name recreate rimi s in
  ∃ a rest, trace run.2 = trace s ++ EvDescribe table_name a :: rest ∧
            after_first table_name recreate rimi a run.1 rest.
Proof.
  cbn zeta. destruct (ensure_table_spec E fuel table_name recreate rimi s) as (evs & Htr & H).
  apply ensureS_after_first in H as (a & rest & -> & H). by exists a, rest.
Qed.

(** A request to the table API: describe, delete or create. *)
Definition is_table_request (ev : event) : bool :=
  match ev with
  | EvDescribe _ _ | EvDelete _ _ | EvCreate _ _ => true
  | EvPut _ _ _ | EvWriterExit _ _ => false
  end.

Definition is_delete (ev : event) : bool :=
  match ev with EvDelete _ _ => true | _ => false end.

Lemma waitS_describes classify table_name msg r evs (P : event → Prop) :
  (∀ a, P (EvDescribe table_name a)) →
  waitS classify table_name msg r evs → Forall P evs.
Proof.
  intros HP (answers & -> & _). induction answers; constructor; auto.
Qed.

Lemma buildS_events (P : event → Prop) table_name b r evs :
  (∀ a, P (EvDescribe table_name a)) → (∀ rc, P (EvCreate (table_request table_name) rc)) →
  buildS table_name b r evs → Forall P evs.
Proof.
  intros Hd Hc (rc & polls & r0 & -> & H). constructor; [done|].
  destruct rc as [code|].
  - destruct H as [_ ->]. constructor.
  - destruct H as [Hw _]. by eapply waitS_describes.
Qed.

Lemma rebuild_allS_events (P : event → Prop) table_name b r evs :
  (∀ a, P (EvDescribe table_name a)) → (∀ rc, P (EvCreate (table_request table_name) rc)) →
  (∀ rd, P (EvDelete table_name rd)) →
  rebuild_allS table_name b r evs → Forall P evs.
Proof.
  intros Hd Hc Hdel (rd & polls & r0 & rest & -> & H). constructor; [done|].
  destruct rd as [code|].
  - destruct H as (_ & -> & ->). constructor.
  - destruct H as [Hw H]. apply Forall_app. split; [by eapply waitS_describes|].
    destruct r0 as [[]|e|].
    + by eapply buildS_events.
    + destruct H as [_ ->]. constructor.
    + destruct H as [_ ->]. constructor.
Qed.

Lemma after_first_events (P : event → Prop) table_name recreate rimi a r rest :
  (∀ a, P (EvDescribe table_name a)) → (∀ rc, P (EvCreate (table_request table_name) rc)) →
  (∀ rd, P (EvDelete table_name rd)) →
  after_first table_name recreate rimi a r rest → Forall P rest.
Proof.
  intros Hd Hc Hdel H. destruct a as [code|d]; cbn in H.
  - case_bool_decide; [destruct H as [_ ->]; constructor|by eapply buildS_events].
  - destruct recreate; [by eapply rebuild_allS_events|].
    case_bool_decide.
    + destruct rimi; [by eapply rebuild_allS_events|destruct H as [_ ->]; constructor].
    + destruct H as (r0 & Hw & _). by eapply waitS_describes.
Qed.

(** A run that returns has seen every request accepted, and the table
    ACTIVE in the answer to its last request. *)
Definition ends_active (table_name : string) (evs : list event) : Prop :=
  ∃ init a, evs = init ++ [EvDescribe table_name a] ∧ active_answer a = Ret true.

Lemma waitS_active_Ret table_name r0 polls :
  waitS active_answer table_name (not_active_msg table_name) r0 polls →
  (∃ u, r0 = Ret u) → ends_active table_name polls ∧ accepted polls.
Proof.
  intros Hw [u ->]. split.
  - destruct Hw as (answers & -> & init & a & -> & Ha & _).
    exists (EvDescribe table_name <$> init), a. by rewrite fmap_app.
  - eapply waitS_describes; [|exact Hw]. done.
Qed.

Lemma ends_active_app table_name evs1 evs2 :
  ends_active table_name evs2 → ends_active table_name (evs1 ++ evs2).
Proof. intros (init & a & -> & Ha). exists (evs1 ++ init), a. by rewrite app_assoc. Qed.

Lemma then_ret_Ret {A B} (b b' : B) (r0 : result A) :
  then_ret b r0 = Ret b' → b' = b ∧ ∃ u, r0 = Ret u.
Proof. destruct r0; cbn; [|done..]. intros [= ->]. eauto. Qed.

Lemma buildS_Ret table_name b b' evs :
  buildS table_name b (Ret b') evs →
  b' = b ∧ ends_active table_name evs ∧ accepted evs.
Proof.
  intros (rc & polls & r0 & -> & H). destruct rc as [code|]; [by destruct H|].
  destruct H as [Hw [-> Hr]%eq_sym%then_ret_Ret]. split; [done|].
  destruct (waitS_active_Ret _ _ _ Hw Hr) as [He Hacc]. split.
  - by apply (ends_active_app _ [_]).
  - by constructor.
Qed.

Lemma rebuild_allS_Ret table_name b b' evs :
  rebuild_allS table_name b (Ret b') evs →
  b' = b ∧ ends_active table_name evs ∧ accepted evs.
Proof.
  intros (rd & polls & r0 & rest & -> & H). destruct rd as [code|]; [by destruct H|].
  destruct H as [Hw H]. destruct r0 as [[]|e|]; [|by destruct H..].
  apply buildS_Ret in H as (-> & He & Hacc). split; [done|]. split.
  - apply (ends_active_app _ [_]). by apply ends_active_app.
  - constructor; [done|]. apply Forall_app. split; [|done].
    eapply waitS_describes; [|exact Hw]. done.
Qed.

Lemma after_first_Ret table_name recreate rimi a b rest :
  after_first table_name recreate rimi a (Ret b) rest →
  ends_active table_name rest ∧ accepted rest ∧
  (b = true ↔ ∃ d, a = inr d ∧ (recreate = true ∨ missing_indexes d = [])).
Proof.
  intros H. destruct a as [code|d]; cbn in H.
  - case_bool_decide; [by destruct H|].
    apply buildS_Ret in H as (-> & He & Hacc). split; [done|]. split; [done|].
    split; [done|]. by intros (d & [=] & _).
  - destruct recreate.
    { apply rebuild_allS_Ret in H as (-> & He & Hacc). split; [done|]. split; [done|].
      split; [|done]. intros _. exists d. auto. }
    case_bool_decide as Hmiss.
    + destruct rimi; [|by destruct H].
      apply rebuild_allS_Ret in H as (-> & He & Hacc). split; [done|]. split; [done|].
      split; [done|]. intros (d' & [= <-] & [|]); done.
    + destruct H as (r0 & Hw & [-> Hr]%eq_sym%then_ret_Ret).
      destruct (waitS_active_Ret _ _ _ Hw Hr) as [He Hacc]. split; [done|]. split; [done|].
      split; [|done]. intros _. exists d. split; [done|]. right.
      by destruct (decide (missing_indexes d = [])).
Qed.

(** X1: without [--recreate] and [--recreate-if-missing-indexes],
    [ensure_table] never issues [delete_table]; and when its first
    [describe_table] finds the table, it issues no [create_table] either,
    only further [describe_table] requests. *)
Theorem existing_table_is_kept {W : Type} (E : Env W) (fuel : nat) (table_name : string)
        (s : state W) :
  let run := ensure_table E fuel table_name false false s in
  ∃ a rest,
    trace run.2 = trace s ++ EvDescribe table_name a :: rest ∧
    Forall (fun ev => is_delete ev = false) rest ∧
    (∀ d, a = inr d → Forall (fun ev => is_write ev = false) rest).
Proof.
  cbn zeta. destruct (ensure_table_run E fuel table_name false false s) as (a & rest & Htr & H).
  exists a, rest. split; [exact Htr|]. destruct a as [code|d]; cbn in H.
  - split; [|done]. case_bool_decide.
    + destruct H as [_ ->]. constructor.
    + by eapply buildS_events.
  - case_bool_decide.
    + destruct H as [_ ->]. split; [constructor|]. intros _ _. constructor.
    + destruct H as (r0 & Hw & _). split; [|intros _ _]; by eapply waitS_describes.
Qed.

(** X2: when the first [describe_table] answers resource-not-found,
    [ensure_table] issues [create_table] with the request of [table_request]
    next, whatever the flags, and no [delete_table]; a rejected creation is
    raised at once, and a run that returns returns [False] after an accepted
    creation and a last poll that shows the table ACTIVE. *)
Theorem absent_table_is_created {W : Type} (E : Env W) (fuel : nat) (table_name : string)
        (recreate rimi : bool) (s : state W) (rest : list event) :
  let run := ensure_table E fuel table_name recreate rimi s in
  trace run.2 = trace s ++ EvDescribe table_name (inl ResourceNotFoundException) :: rest →
  ∃ rc answers,
    rest = EvCreate (table_request table_name) rc :: (EvDescribe table_name <$> answers) ∧
    (∀ code, rc = Some code → run.1 = Raise (ClientError code) ∧ answers = []) ∧
    (∀ b, run.1 = Ret b →
          b = false ∧ rc = None ∧
          ∃ init a, answers = init ++ [a] ∧ active_answer a = Ret true).
Proof.
  cbn zeta. intros Htr.
  destruct (ensure_table_run E fuel table_name recreate rimi s) as (a & rest' & Htr' & H).
  rewrite Htr in Htr'. apply app_inv_head in Htr'. injection Htr' as <- <-.
  cbn in H. rewrite bool_decide_false in H by (by intros []).
  destruct H as (rc & polls & r0 & -> & H). exists rc.
  destruct rc as [code|].
  - destruct H as [-> ->]. exists []. split; [done|]. split; [|done].
    by intros ? [= <-].
  - destruct H as [(answers & -> & Hw) ->]. exists answers. split; [done|].
    split; [done|]. intros b [-> [u ->]]%then_ret_Ret. split; [done|]. split; [done|].
    destruct Hw as (init & a & -> & Ha & _). by exists init, a.
Qed.

(** X3: a run of [ensure_table] that returns has had every [delete_table]
    and [create_table] accepted and has seen the table ACTIVE in the answer
    to its last request; it returns [True] exactly when the first
    [describe_table] found the table and the table was not dropped for its
    missing indexes. *)
Theorem ensure_table_returns_once_active {W : Type} (E : Env W) (fuel : nat)
        (table_name : string) (recreate rimi : bool) (s : state W) (b : bool) :
  let run := ensure_table E fuel table_name recreate rimi s in
  run.1 = Ret b →
  ∃ a rest,
    trace run.2 = trace s ++ EvDescribe table_name a :: rest ∧
    ends_active table_name rest ∧ accepted rest ∧
    (b = true ↔ ∃ d, a = inr d ∧ (recreate = true ∨ missing_indexes d = [])).
Proof.
  cbn zeta. intros Hr.
  destruct (ensure_table_run E fuel table_name recreate rimi s) as (a & rest & Htr & H).
  rewrite Hr in H. exists a, rest. split; [exact Htr|]. by apply after_first_Ret in H.
Qed.

(** ** seed_data: the first rejected write ends the run *)

(** An accepted run returns; otherwise the last event is the first rejected
    put, and its error code is raised. *)
Definition stops {A} (S : Spec A) : Prop :=
  ∀ r evs, S r evs →
    ((∃ a, r = Ret a) ∧ accepted evs) ∨
    (∃ l b item code,
        evs = l ++ [EvPut b item (Some code)] ∧ accepted l ∧ r = Raise (ClientError code)).

Lemma stops_putS {A} (b : string) (item : Item) (a : A) : stops (putS b item a).
Proof.
  intros r evs (pr & -> & ->). destruct pr as [code|].
  - right. exists [], b, item, code. split; [done|]. split; [constructor|done].
  - left. split; [by exists a|]. by repeat constructor.
Qed.

Lemma stops_seqS {A B} (S1 : Spec A) (S2 : A → Spec B) :
  stops S1 → (∀ a, stops (S2 a)) → stops (seqS S1 S2).
Proof.
  intros H1 H2 r evs (r1 & evs1 & HS1 & H).
  destruct (H1 _ _ HS1) as [[[a ->] Hacc]|(l & b & item & code & -> & Hacc & ->)].
  - destruct H as (evs2 & HS2 & ->).
    destruct (H2 _ _ _ HS2) as [[Hr Hacc2]|(l & b & item & code & -> & Hacc2 & ->)].
    + left. split; [done|]. by apply Forall_app.
    + right. exists (evs1 ++ l), b, item, code. rewrite app_assoc. split; [done|].
      split; [by apply Forall_app|done].
  - destruct H as [-> ->]. right. by exists l, b, item, code.
Qed.

Lemma stops_loopS {A} (body : Z → A → Spec A) :
  (∀ i a, stops (body i a)) → ∀ n i a, stops (loopS body i n a).
Proof.
  intros Hbody. induction n as [|n IH]; intros i a; cbn.
  - intros r evs [-> ->]. left. split; [by exists a|constructor].
  - apply stops_seqS; auto.
Qed.

Lemma stops_trackS b album_id ids : stops (trackS b album_id ids).
Proof. intros r evs (? & ? & ? & ? & ? & _ & H). revert H. apply stops_putS. Qed.

Lemma stops_albumS b artist_id n ids : stops (albumS b artist_id n ids).
Proof.
  intros r evs (? & ? & ? & ? & _ & H). revert H.
  apply stops_seqS; [apply stops_putS|]. intros _. apply stops_loopS. intros.
  apply stops_trackS.
Qed.

Lemma stops_artistS b n1 n2 ids : stops (artistS b n1 n2 ids).
Proof.
  intros r evs (? & ? & ? & ? & ? & _ & H). revert H.
  apply stops_seqS; [apply stops_putS|]. intros _. apply stops_loopS. intros.
  apply stops_albumS.
Qed.

Lemma stops_lineS b inv_id pool i total : stops (lineS b inv_id pool i total).
Proof. intros r evs (? & ? & ? & _ & _ & _ & H). revert H. apply stops_putS. Qed.

Lemma stops_invoiceS b cust_id pool n : stops (invoiceS b cust_id pool n).
Proof.
  intros r evs (? & ? & _ & H). revert H.
  apply stops_seqS; [apply stops_putS|]. intros _.
  apply stops_seqS; [|intros; apply stops_putS].
  apply stops_loopS. intros. apply stops_lineS.
Qed.

Lemma stops_customerS b pool n1 n2 : stops (customerS b pool n1 n2).
Proof.
  intros r evs (? & ? & ? & ? & _ & H). revert H.
  apply stops_seqS; [apply stops_putS|]. intros _. apply stops_loopS. intros.
  apply stops_invoiceS.
Qed.

Lemma stops_seed_bodyS table sizes : stops (seed_bodyS table sizes).
Proof.
  apply stops_seqS.
  - apply stops_loopS. intros. apply stops_artistS.
  - intros ids. apply stops_loopS. intros. apply stops_customerS.
Qed.

(** The requests of [seed_data] go to the batch writer of its table. *)
Definition writes_to (table : string) (ev : event) : Prop :=
  match ev with
  | EvPut b _ _ | EvWriterExit b _ => b = table
  | _ => False
  end.

Section Writes.
Variable table : string.

Let P : list event → Prop := Forall (writes_to table).

Lemma writes_put {A} item (a : A) : always (putS table item a) P.
Proof. apply always_putS. intros pr. by repeat constructor. Qed.

Lemma writes_trackS album_id ids : always (trackS table album_id ids) P.
Proof. intros r evs (? & ? & ? & ? & ? & _ & H). revert H. apply writes_put. Qed.

Lemma writes_albumS artist_id n ids : always (albumS table artist_id n ids) P.
Proof.
  intros r evs (? & ? & ? & ? & _ & H). revert H.
  apply always_seqS; [apply app_closed_Forall|apply writes_put|]. intros _.
  apply always_loopS; [apply app_closed_Forall|]. intros. apply writes_trackS.
Qed.

Lemma writes_artistS n1 n2 ids : always (artistS table n1 n2 ids) P.
Proof.
  intros r evs (? & ? & ? & ? & ? & _ & H). revert H.
  apply always_seqS; [apply app_closed_Forall|apply writes_put|]. intros _.
  apply always_loopS; [apply app_closed_Forall|]. intros. apply writes_albumS.
Qed.

Lemma writes_lineS inv_id pool i total : always (lineS table inv_id pool i total) P.
Proof. intros r evs (? & ? & ? & _ & _ & _ & H). revert H. apply writes_put. Qed.

Lemma writes_invoiceS cust_id pool n : always (invoiceS table cust_id pool n) P.
Proof.
  intros r evs (? & ? & _ & H). revert H.
  apply always_seqS; [apply app_closed_Forall|apply writes_put|]. intros _.
  apply always_seqS; [apply app_closed_Forall| |intros; apply writes_put].
  apply always_loopS; [apply app_closed_Forall|]. intros. apply writes_lineS.
Qed.

Lemma writes_customerS pool n1 n2 : always (customerS table pool n1 n2) P.
Proof.
  intros r evs (? & ? & ? & ? & _ & H). revert H.
  apply always_seqS; [apply app_closed_Forall|apply writes_put|]. intros _.
  apply always_loopS; [apply app_closed_Forall|]. intros. apply writes_invoiceS.
Qed.

Lemma writes_seedS sizes : always (seedS table sizes) P.
Proof.
  intros r evs (r0 & evs0 & pr & H & _ & -> & _).
  apply Forall_app. split; [|by repeat constructor]. revert H.
  apply always_seqS; [apply app_closed_Forall|..].
  - apply always_loopS; [apply app_closed_Forall|]. intros. apply writes_artistS.
  - intros ids. apply always_loopS; [apply app_closed_Forall|]. intros.
    apply writes_customerS.
Qed.

End Writes.

(** How a run of [seed_data] ends: the body as [stops] says, then the flush,
    whose error replaces the exception of the body. *)
Lemma seedS_ends table sizes r evs :
  seedS table sizes r evs →
  ∃ body pr r0,
    evs = body ++ [EvWriterExit table pr] ∧
    ((r0 = Ret tt ∧ accepted body) ∨
     (∃ l b item code,
         body = l ++ [EvPut b item (Some code)] ∧ accepted l ∧
         r0 = Raise (ClientError code))) ∧
    r = match pr with Some code => Raise (ClientError code) | None => r0 end.
Proof.
  intros (r0 & evs0 & pr & H & _ & -> & ->). exists evs0, pr, r0. split; [done|].
  split; [|done].
  destruct (stops_seed_bodyS _ _ _ _ H) as [[[[] ->] Hacc]|(l & b & item & code & -> & Hacc & ->)].
  - by left.
  - right. by exists l, b, item, code.
Qed.

Lemma first_rejected (l l1 l2 : list event) (ev ev' : event) :
  accepted l → write_answer ev' ≠ None →
  l ++ [ev] = l1 ++ ev' :: l2 → l1 = l ∧ ev' = ev ∧ l2 = [].
Proof.
  intros Hacc Hev'. revert l1. induction Hacc as [|x l Hx _ IH]; intros l1 Heq.
  - destruct l1 as [|y l1]; cbn in Heq.
    + by injection Heq as -> ->.
    + injection Heq as _ Heq. by destruct l1.
  - destruct l1 as [|y l1]; cbn in Heq; injection Heq as -> Heq; [done|].
    by destruct (IH _ Heq) as (-> & -> & ->).
Qed.

(** X4: a put that the service rejects is the last put of [seed_data]: the
    writer is flushed and nothing else is requested; the puts before it were
    accepted, and the run raises the client error of the rejected put, or
    the one of the flush when the flush fails too. *)
Theorem rejected_put_ends_seeding {W : Type} (E : Env W) (table : string) (sizes : Sizes)
        (s : state W) (l1 l2 : list event) (b : string) (item : Item) (code : string) :
  let run := seed_data E table sizes s in
  trace run.2 = trace s ++ l1 ++ EvPut b item (Some code) :: l2 →
  ∃ pr, l2 = [EvWriterExit table pr] ∧ accepted l1 ∧
        run.1 = Raise (ClientError (default code pr)).
Proof.
  cbn zeta. intros Htr. destruct (seed_data_spec E table sizes s) as (evs & Htr' & H).
  rewrite Htr in Htr'. apply app_inv_head in Htr'. subst evs.
  apply seedS_ends in H as (body & pr & r0 & Heq & Hbody & ->).
  destruct l2 as [|ev l2 _] using rev_ind.
  { by apply app_inj_tail in Heq as [_ [=]]. }
  change (l1 ++ EvPut b item (Some code) :: l2 ++ [ev])
    with (l1 ++ (EvPut b item (Some code) :: l2) ++ [ev]) in Heq.
  rewrite app_assoc in Heq. apply app_inj_tail in Heq as [<- ->].
  destruct Hbody as [[_ Hacc]|(l & b' & item' & code' & Heq & Hacc & ->)].
  { apply Forall_app in Hacc as [_ Hacc]. by apply Forall_cons in Hacc as [[=] _]. }
  symmetry in Heq. apply first_rejected in Heq as (-> & [= -> -> ->] & ->); [|done..].
  exists pr. split; [done|]. split; [done|]. by destruct pr.
Qed.

(** ** main *)

(** How [main] ends when [ensure_table] does not return. *)
Definition provision_outcome (r : result bool) : outcome :=
  match r with
  | Raise (ClientError _) | Raise (RuntimeError _) | Raise (TimeoutError _) => Exit 1
  | Raise e => Uncaught e
  | OutOfFuel => Hang
  | Ret _ => Exit 0
  end.

Definition seed_outcome (r : result unit) : outcome :=
  match r with
  | Ret _ => Exit 0
  | Raise e => Uncaught e
  | OutOfFuel => Hang
  end.

(** [main], from the runs of [ensure_table] and [seed_data]. *)
Lemma main_run {W : Type} (E : Env W) (fuel : nat) (args : Args) (w : W) :
  let run := main E fuel args (mkState w []) in
  ∃ a rest r1,
    after_first (arg_table args) (arg_recreate args) (arg_recreate_if_missing_indexes args)
                a r1 rest ∧
    ((run.1 = provision_outcome r1 ∧ trace run.2 = EvDescribe (arg_table args) a :: rest ∧
      ∀ existed, r1 = Ret existed →
                 existed && arg_skip_if_exists args && negb (arg_recreate args) = true) ∨
     (∃ existed r2 evs2,
         r1 = Ret existed ∧
         existed && arg_skip_if_exists args && negb (arg_recreate args) = false ∧
         seedS (arg_table args) (arg_sizes args) r2 evs2 ∧
         run.1 = seed_outcome r2 ∧
         trace run.2 = (EvDescribe (arg_table args) a :: rest) ++ evs2)).
Proof.
  cbn zeta. unfold main.
  destruct (ensure_table_run E fuel (arg_table args) (arg_recreate args)
              (arg_recreate_if_missing_indexes args) (mkState w [])) as (a & rest & Htr & H).
  cbn [trace app] in Htr.
  destruct (ensure_table E fuel _ _ _ _) as [r1 s1]. cbn [fst snd] in *.
  exists a, rest, r1. split; [exact H|].
  destruct r1 as [existed|e|].
  - destruct (existed && arg_skip_if_exists args && negb (arg_recreate args)) eqn:Hskip.
    + left. split; [done|]. split; [done|]. by intros ? [= <-].
    + right. destruct (seed_data_spec E (arg_table args) (arg_sizes args) s1) as (evs2 & Htr2 & H2).
      exists existed, (seed_data E (arg_table args) (arg_sizes args) s1).1, evs2.
      split; [done|]. split; [done|]. split; [done|].
      destruct (seed_data E _ _ s1) as [[[]|e|] s2]; cbn [fst snd] in *; by rewrite Htr2, Htr.
  - left. destruct e; done.
  - left. done.
Qed.











(** X5: [main] talks to the table API first and to the batch writer of
    its table afterwards, never the other way round; and when the batch
    writer is used at all, every [delete_table] and [create_table] before it
    was accepted and the last answer before it showed the table ACTIVE. *)
Theorem seeding_follows_provisioning {W : Type} (E : Env W) (fuel : nat) (args : Args)
        (w : W) :
  let run := main E fuel args (mkState w []) in
  ∃ evs1 evs2,
    trace run.2 = evs1 ++ evs2 ∧
    Forall (fun ev => is_table_request ev = true) evs1 ∧
    Forall (writes_to (arg_table args)) evs2 ∧
    (evs2 ≠ [] → accepted evs1 ∧ ends_active (arg_table args) evs1).
Proof.
  cbn zeta. destruct (main_run E fuel args w) as (a & rest & r1 & H1 & H).
  assert (Forall (fun ev => is_table_request ev = true)
            (EvDescribe (arg_table args) a :: rest)) as Hreq.
  { constructor; [done|]. by eapply after_first_events. }
  destruct H as [(_ & Htr & _)|(existed & r2 & evs2 & -> & _ & H2 & _ & Htr)].
  - exists (EvDescribe (arg_table args) a :: rest), []. rewrite app_nil_r.
    split; [done|]. split; [done|]. split; [constructor|done].
  - exists (EvDescribe (arg_table args) a :: rest), evs2. split; [done|]. split; [done|].
    split; [by eapply writes_seedS|]. intros _.
    apply after_first_Ret in H1 as (He & Hacc & _). split; [by constructor|].
    by apply (ends_active_app _ [_]).
Qed.


(** *** Termination *)

Lemma fueled_retS {A} (a : A) : fueled (retS a).
Proof. by intros evs [? _]. Qed.

Lemma fueled_raiseS {A} (e : exn) : fueled (raiseS (A := A) e).
Proof. by intros evs [? _]. Qed.

Lemma fueled_deleteS table_name : fueled (deleteS table_name).
Proof. intros evs (pr & _ & H). by destruct pr. Qed.

Lemma fueled_createS req : fueled (createS req).
Proof. intros evs (pr & _ & H). by destruct pr. Qed.

Lemma fueled_firstS table_name : fueled (firstS table_name).
Proof.
  intros evs (a & _ & H). destruct a as [code|d]; [|done]. by case_bool_decide.
Qed.

Lemma fueled_ensureS_over (WD WA : Spec unit) table_name recreate rimi :
  fueled WD → fueled WA → fueled (ensureS_over WD WA table_name recreate rimi).
Proof.
  intros HWD HWA. apply fueled_seqS; [apply fueled_firstS|]. intros desc.
  apply fueled_seqS.
  - destruct desc as [d|]; [|apply fueled_retS].
    destruct (negb recreate); [|apply fueled_retS].
    case_bool_decide; [|apply fueled_retS].
    destruct rimi; [|apply fueled_raiseS].
    apply fueled_seqS; [apply fueled_deleteS|]. intros _.
    apply fueled_seqS; [done|]. intros _. apply fueled_retS.
  - intros exists_. apply fueled_seqS.
    + destruct (exists_ && recreate); [|apply fueled_retS].
      apply fueled_seqS; [apply fueled_deleteS|done].
    + intros _. apply fueled_seqS.
      * destruct (negb exists_ || recreate); [apply fueled_createS|apply fueled_retS].
      * intros _. apply fueled_seqS; [done|]. intros _. apply fueled_retS.
Qed.

Section Termination.
Context {W : Type} (E : Env W).
Hypothesis laws : ClockLaws E.
Variable fuel : nat.
Hypothesis enough : (122 ≤ fuel)%nat.

Lemma rounds_left_start (c : Z) : rounds_left 60000000 c c ≤ Z.of_nat fuel.
Proof.
  unfold rounds_left. rewrite Z.sub_diag.
  change (if 60000000 <? 0 then 1 else (60000000 - 0) / 500000 + 2) with 122. lia.
Qed.

Lemma wait_deleted_fueled (table_name : string) :
  emits (wait_deleted E fuel table_name 60) (fun r _ => r ≠ OutOfFuel).
Proof.
  intros s. destruct (wait_deleted_spec E fuel table_name s) as (evs & Htr & _).
  exists evs. split; [done|]. rewrite wait_deleted_eq.
  apply wait_loop_terminates;
    [apply deleted_answer_fueled|exact laws|apply rounds_left_start].
Qed.

Lemma wait_table_active_fueled (table_name : string) :
  emits (wait_table_active E fuel table_name 60) (fun r _ => r ≠ OutOfFuel).
Proof.
  intros s. destruct (wait_table_active_spec E fuel table_name s) as (evs & Htr & _).
  exists evs. split; [done|]. rewrite wait_table_active_eq.
  apply wait_loop_terminates;
    [apply active_answer_fueled|exact laws|apply rounds_left_start].
Qed.

Lemma ensure_table_fueled (table_name : string) (recreate rimi : bool) (s : state W) :
  (ensure_table E fuel table_name recreate rimi s).1 ≠ OutOfFuel.
Proof.
  destruct (ensure_table_spec_over E _ _ fuel table_name recreate rimi
              (wait_deleted_fueled table_name) (wait_table_active_fueled table_name) s)
    as (evs & _ & H).
  intros Hr. rewrite Hr in H. revert H. by apply fueled_ensureS_over; intros ? ?.
Qed.

Lemma seed_data_fueled (table : string) (sizes : Sizes) (s : state W) :
  (seed_data E table sizes s).1 ≠ OutOfFuel.
Proof.
  destruct (seed_data_spec E table sizes s) as (evs & _ & r0 & evs0 & pr & _ & Hr0 & _ & Hr).
  rewrite Hr. by destruct pr.
Qed.

End Termination.

(** X7: [main] terminates.  With a clock that advances by what is slept,
    122 rounds are enough for each polling loop, so that a run ends with an
    exit code or with an exception: the loops of [seed_data] are bounded by
    the sizes and the waits by their timeout. *)
Theorem main_terminates {W : Type} (E : Env W) (fuel : nat) (args : Args) (s : state W) :
  ClockLaws E → (122 ≤ fuel)%nat →
  (main E fuel args s).1 ≠ Hang ∧ is_Some (exit_code (main E fuel args s).1).
Proof.
  intros laws Hfuel.
  assert ((main E fuel args s).1 ≠ Hang) as Hmain.
  { unfold main.
    pose proof (ensure_table_fueled E laws fuel Hfuel (arg_table args) (arg_recreate args)
                  (arg_recreate_if_missing_indexes args) s) as He.
    destruct (ensure_table E fuel _ _ _ s) as [[existed|e|] s1]; [| |done].
    - destruct (existed && _ && _); [done|].
      pose proof (seed_data_fueled E (arg_table args) (arg_sizes args) s1) as Hs.
      by destruct (seed_data E _ _ s1) as [[[]|e|] s2].
    - by destruct e. }
  split; [done|]. by destruct (main E fuel args s).1.
Qed.

(** *** The first answer *)

Section FirstAnswer.
Context {W : Type} (E : Env W).

Lemma ensure_table_refused (fuel : nat) (table_name : string) (recreate rimi : bool)
      (w w1 : W) (tr : list event) (code : string) :
  env_describe_table E table_name w = (inl code, w1) →
  code ≠ ResourceNotFoundException →
  ensure_table E fuel table_name recreate rimi (mkState w tr)
  = (Raise (ClientError code), mkState w1 (tr ++ [EvDescribe table_name (inl code)])).
Proof.
  intros Hd Hcode. unfold ensure_table. unfold bind at 1. unfold catch. unfold bind at 1.
  unfold describe_table, call. cbn [world trace]. rewrite Hd. cbn.
  by rewrite bool_decide_true.
Qed.

Lemma ensure_table_absent (fuel : nat) (table_name : string) (recreate rimi : bool)
      (w w1 : W) (tr : list event) :
  env_describe_table E table_name w = (inl ResourceNotFoundException, w1) →
  ensure_table E fuel table_name recreate rimi (mkState w tr)
  = (create_table E (table_request table_name) ;;;
     wait_table_active E fuel table_name 60 ;;;
     ret false)
      (mkState w1 (tr ++ [EvDescribe table_name (inl ResourceNotFoundException)])).
Proof.
  intros Hd. unfold ensure_table. unfold bind at 1. unfold catch. unfold bind at 1.
  unfold describe_table, call. cbn [world trace]. rewrite Hd. cbn.
  rewrite bool_decide_false by (by intros []). reflexivity.
Qed.

Lemma bind_Ret {A B} (m : M W A) (k : A → M W B) (s s' : state W) (b : B) :
  bind m k s = (Ret b, s') → ∃ a s1, m s = (Ret a, s1) ∧ k a s1 = (Ret b, s').
Proof.
  unfold bind. destruct (m s) as [[a|e|] s1]; [|done..]. intros H. by exists a, s1.
Qed.

End FirstAnswer.

(** X8: an error of the first [describe_table] other than
    resource-not-found is fatal: [main] issues no other request and exits
    with code 1. *)
Theorem describe_error_is_fatal {W : Type} (E : Env W) (fuel : nat) (args : Args)
        (w w1 : W) (code : string) :
  env_describe_table E (arg_table args) w = (inl code, w1) →
  code ≠ ResourceNotFoundException →
  main E fuel args (mkState w [])
  = (Exit 1, mkState w1 [EvDescribe (arg_table args) (inl code)]).
Proof.
  intros Hd Hcode. unfold main.
  by rewrite (ensure_table_refused E fuel _ _ _ w w1 [] code Hd Hcode).
Qed.

(** The arguments without [--skip-if-exists]. *)
Definition without_skip (args : Args) : Args :=
  mkArgs (arg_table args) (arg_recreate args) (arg_recreate_if_missing_indexes args) false
         (arg_sizes args).

(** X9: [--skip-if-exists] changes a run only when [--recreate] is not
    given and the first [describe_table] finds the table with both indexes:
    a table that was absent, or was dropped for its missing indexes, is
    seeded all the same. *)
Theorem skip_needs_a_valid_table {W : Type} (E : Env W) (fuel : nat) (args : Args)
        (s : state W) :
  (∀ d w1, env_describe_table E (arg_table args) (world s) = (inr d, w1) →
           arg_recreate args = true ∨ missing_indexes d ≠ []) →
  main E fuel args s = main E fuel (without_skip args) s.
Proof.
  intros Hfirst. unfold main, without_skip. cbn [arg_table arg_recreate arg_sizes
    arg_recreate_if_missing_indexes arg_skip_if_exists].
  destruct (ensure_table E fuel _ _ _ s) as [[existed|e|] s1] eqn:Hrun; [|done..].
  assert (existed && negb (arg_recreate args) = false) as Hex.
  { destruct (arg_recreate args) eqn:Hre; [by rewrite andb_false_r|].
    rewrite andb_true_r. destruct s as [w tr]. cbn [world] in Hfirst.
    destruct (env_describe_table E (arg_table args) w) as [[code|d] w1] eqn:Hd.
    - destruct (decide (code = ResourceNotFoundException)) as [->|Hcode].
      + rewrite (ensure_table_absent E fuel _ _ _ w w1 tr Hd) in Hrun.
        apply bind_Ret in Hrun as (_ & s2 & _ & Hrun).
        apply bind_Ret in Hrun as (_ & s3 & _ & Hrun). by injection Hrun as <- _.
      + by rewrite (ensure_table_refused E fuel _ _ _ w w1 tr code Hd Hcode) in Hrun.
    - destruct (Hfirst d w1 eq_refl) as [|Hmiss]; [done|].
      destruct (arg_recreate_if_missing_indexes args).
      + rewrite (ensure_table_rebuild E fuel _ w w1 tr d Hd Hmiss) in Hrun.
        apply bind_Ret in Hrun as (_ & s2 & _ & Hrun).
        apply bind_Ret in Hrun as (_ & s3 & _ & Hrun).
        apply bind_Ret in Hrun as (_ & s4 & _ & Hrun).
        apply bind_Ret in Hrun as (_ & s5 & _ & Hrun). by injection Hrun as <- _.
      + by rewrite (ensure_table_missing E fuel _ w w1 tr d Hd Hmiss) in Hrun. }
  destruct existed, (arg_skip_if_exists args), (arg_recreate args); try done.
Qed.

(** ** Services that refuse *)

(** The simulated service, with every [describe_table] refused. *)
Definition denied_env : Env Sim.t :=
  {| env_describe_table := fun _ w => (inl "AccessDeniedException", w);
     env_delete_table := Sim.delete;
     env_create_table := Sim.create;
     env_put_item := Sim.put;
     env_writer_exit := Sim.flush;
     env_clock := Sim.now;
     env_sleep := Sim.sleep;
     env_random := Sim.draw |}.

(** The simulated service, with room for [cap] items: a put beyond them is
    refused. *)
Definition full_env (cap : nat) : Env Sim.t :=
  {| env_describe_table := Sim.describe;
     env_delete_table := Sim.delete;
     env_create_table := Sim.create;
     env_put_item := fun name item w =>
       if bool_decide (length (Sim.items w) < cap)%nat then Sim.put name item w
       else (Some "ProvisionedThroughputExceededException", w);
     env_writer_exit := Sim.flush;
     env_clock := Sim.now;
     env_sleep := Sim.sleep;
     env_random := Sim.draw |}.

(** What a put event asked and was answered. *)
Definition put_table (ev : event) : string :=
  match ev with EvPut b _ _ => b | _ => "" end.
Definition put_item_of (ev : event) : Item :=
  match ev with EvPut _ item _ => item | _ => ∅ end.
Definition put_error (ev : event) : string :=
  match ev with EvPut _ _ (Some code) => code | _ => "" end.
Definition is_rejected_put (ev : event) : bool :=
  match ev with EvPut _ _ (Some _) => true | _ => false end.

Lemma rejected_put_eq (ev : event) :
  is_rejected_put ev = true → ev = EvPut (put_table ev) (put_item_of ev) (Some (put_error ev)).
Proof. by destruct ev as [| | |b item [code|]|]. Qed.

Lemma describe_error_is_fatal_witness :
  let args := music_args false false false (mkSizes 2 1 1 1 1 2) in
  env_describe_table denied_env (arg_table args) demo_world
  = (inl "AccessDeniedException", demo_world) ∧
  "AccessDeniedException" ≠ ResourceNotFoundException ∧
  main denied_env 122 args (mkState demo_world [])
  = (Exit 1, mkState demo_world [EvDescribe "music" (inl "AccessDeniedException")]).
Proof.
  cbv zeta.
  assert ("AccessDeniedException" ≠ ResourceNotFoundException) as Hcode by discriminate.
  split; [reflexivity|]. split; [exact Hcode|].
  exact (describe_error_is_fatal denied_env 122
           (music_args false false false (mkSizes 2 1 1 1 1 2)) demo_world demo_world
           "AccessDeniedException" eq_refl Hcode).
Defined.

Lemma main_terminates_witness :
  let run := main Sim.env 122 (music_args true false false (mkSizes 2 1 1 1 1 2))
                  (mkState (Sim.bare "music" 1700000000000000 []) []) in
  ClockLaws Sim.env ∧ (122 ≤ 122)%nat ∧ run.1 ≠ Hang ∧ exit_code run.1 = Some 0.
Proof.
  cbv zeta. assert (122 ≤ 122)%nat as Hfuel by lia.
  pose proof (main_terminates Sim.env 122 (music_args true false false (mkSizes 2 1 1 1 1 2))
                (mkState (Sim.bare "music" 1700000000000000 []) []) Sim_clock_laws Hfuel)
    as [Hmain _].
  split; [exact Sim_clock_laws|]. split; [exact Hfuel|]. split; [exact Hmain|].
  vm_compute. reflexivity.
Defined.

Lemma absent_table_is_created_witness :
  let s := mkState (Sim.fresh 1700000000000000 []) [] in
  let run := ensure_table Sim.env 122 "music" false false s in
  trace run.2
  = trace s ++ EvDescribe "music" (inl ResourceNotFoundException) :: drop 1 (trace run.2) ∧
  run.1 = Ret false ∧
  ∃ rc answers,
    drop 1 (trace run.2)
    = EvCreate (table_request "music") rc :: (EvDescribe "music" <$> answers) ∧
    rc = None ∧ ∃ init a, answers = init ++ [a] ∧ active_answer a = Ret true.
Proof.
  cbv zeta.
  assert (trace (ensure_table Sim.env 122 "music" false false
                   (mkState (Sim.fresh 1700000000000000 []) [])).2
          = trace (mkState (Sim.fresh 1700000000000000 []) [])
              ++ EvDescribe "music" (inl ResourceNotFoundException)
              :: drop 1 (trace (ensure_table Sim.env 122 "music" false false
                                  (mkState (Sim.fresh 1700000000000000 []) [])).2)) as Htr
    by (vm_compute; reflexivity).
  assert ((ensure_table Sim.env 122 "music" false false
             (mkState (Sim.fresh 1700000000000000 []) [])).1 = Ret false) as Hr
    by (vm_compute; reflexivity).
  split; [exact Htr|]. split; [exact Hr|].
  destruct (absent_table_is_created Sim.env 122 "music" false false
              (mkState (Sim.fresh 1700000000000000 []) []) _ Htr)
    as (rc & answers & Hrest & _ & Hret).
  destruct (Hret false Hr) as (_ & Hrc & Hact).
  exists rc, answers. split; [exact Hrest|]. split; [exact Hrc|exact Hact].
Defined.

Lemma ensure_table_returns_once_active_witness :
  let s := mkState (Sim.bare "music" 1700000000000000 []) [] in
  let run := ensure_table Sim.env 122 "music" false true s in
  run.1 = Ret false ∧
  ∃ a rest,
    trace run.2 = trace s ++ EvDescribe "music" a :: rest ∧
    ends_active "music" rest ∧ accepted rest ∧
    (false = true ↔ ∃ d, a = inr d ∧ (false = true ∨ missing_indexes d = [])).
Proof.
  cbv zeta.
  assert ((ensure_table Sim.env 122 "music" false true
             (mkState (Sim.bare "music" 1700000000000000 []) [])).1 = Ret false) as Hr
    by (vm_compute; reflexivity).
  split; [exact Hr|].
  exact (ensure_table_returns_once_active Sim.env 122 "music" false true
           (mkState (Sim.bare "music" 1700000000000000 []) []) false Hr).
Defined.

Lemma refused_length :
  length (trace (seed_data (full_env 1) "music" (mkSizes 2 1 1 1 1 2)
                   (mkState demo_world [])).2) = 3%nat.
Proof. vm_compute. reflexivity. Qed.

Lemma rejected_put_ends_seeding_witness :
  let s := mkState demo_world [] in
  let run := seed_data (full_env 1) "music" (mkSizes 2 1 1 1 1 2) s in
  let ev := default (EvWriterExit "" None) (trace run.2 !! 1%nat) in
  is_rejected_put ev = true ∧
  put_error ev = "ProvisionedThroughputExceededException" ∧
  item_type (put_item_of ev) = Some "Album" ∧
  ∃ pr, drop 2 (trace run.2) = [EvWriterExit "music" pr] ∧ accepted (take 1 (trace run.2)) ∧
        run.1 = Raise (ClientError (default (put_error ev) pr)).
Proof.
  cbv zeta.
  assert (is_rejected_put
            (default (EvWriterExit "" None)
               (trace (seed_data (full_env 1) "music" (mkSizes 2 1 1 1 1 2)
                         (mkState demo_world [])).2 !! 1%nat)) = true) as Hrej
    by (vm_compute; reflexivity).
  split; [exact Hrej|]. split; [vm_compute; reflexivity|]. split; [vm_compute; reflexivity|].
  pose proof (split_at_index (EvWriterExit "" None) 1 _
                ltac:(rewrite refused_length; lia)) as Htr.
  rewrite (rejected_put_eq _ Hrej) in Htr at 1.
  exact (rejected_put_ends_seeding (full_env 1) "music" (mkSizes 2 1 1 1 1 2)
           (mkState demo_world []) _ _ _ _ _ Htr).
Defined.

Lemma skip_needs_a_valid_table_witness :
  let args := music_args false false true (mkSizes 2 1 1 1 1 2) in
  let s := mkState demo_world [] in
  (∀ d w1, env_describe_table Sim.env (arg_table args) (world s) = (inr d, w1) →
           arg_recreate args = true ∨ missing_indexes d ≠ []) ∧
  main Sim.env 122 args s = main Sim.env 122 (without_skip args) s ∧
  length (puts (trace (main Sim.env 122 args s).2)) = 11%nat.
Proof.
  cbv zeta.
  assert (∀ d w1,
             env_describe_table Sim.env
               (arg_table (music_args false false true (mkSizes 2 1 1 1 1 2)))
               (world (mkState demo_world [])) = (inr d, w1) →
             arg_recreate (music_args false false true (mkSizes 2 1 1 1 1 2)) = true
             ∨ missing_indexes d ≠ []) as Hfirst by (intros d w1; discriminate).
  split; [exact Hfirst|]. split; [|vm_compute; reflexivity].
  exact (skip_needs_a_valid_table Sim.env 122
           (music_args false false true (mkSizes 2 1 1 1 1 2)) (mkState demo_world []) Hfirst).
Defined.

(** ** seed_data: how many items, for all sizes *)

Lemma count_kind_cons (k : kind) (item : Item) (items : list Item) :
  length (filter (fun item => is_kind k item = true) (item :: items))
  = ((if is_kind k item then 1 else 0)
     + length (filter (fun item => is_kind k item = true) items))%nat.
Proof. rewrite filter_cons. by destruct (is_kind k item). Qed.

Lemma kinds_partition (items : list Item) :
  Forall (fun item => is_Some (item_kind item)) items →
  length items
  = (length (filter (fun item => is_kind KArtist item = true) items)
     + length (filter (fun item => is_kind KAlbum item = true) items)
     + length (filter (fun item => is_kind KTrack item = true) items)
     + length (filter (fun item => is_kind KCustomer item = true) items)
     + length (filter (fun item => is_kind KInvoice item = true) items)
     + length (filter (fun item => is_kind KTotal item = true) items)
     + length (filter (fun item => is_kind KLine item = true) items))%nat.
Proof.
  induction 1 as [|item items [k Hk] _ IH]; [done|].
  assert (∀ k', is_kind k' item = kind_eqb k k') as Hi.
  { intros k'. unfold is_kind. rewrite Hk.
    destruct k, k'; first [by apply bool_decide_eq_true_2|by apply bool_decide_eq_false_2]. }
  rewrite !count_kind_cons, !Hi. cbn [length].
  destruct k; cbn [kind_eqb]; lia.
Qed.

Lemma is_Some_item_kind table sizes r evs :
  seedS table sizes r evs → Forall (fun item => is_Some (item_kind item)) (puts evs).
Proof.
  apply (seedS_items (fun item => is_Some (item_kind item)) sizes); intros; by eexists.
Qed.

(** The number of puts the sizes ask for: a negative size counts as zero. *)
Definition seed_total (sizes : Sizes) : nat :=
  let a := Z.to_nat (artists sizes) in
  let b := Z.to_nat (albums_per_artist sizes) in
  let t := Z.to_nat (tracks_per_album sizes) in
  let c := Z.to_nat (customers sizes) in
  let i := Z.to_nat (invoices_per_customer sizes) in
  let l := Z.to_nat (lines_per_invoice sizes) in
  (a * (1 + b * (1 + t)) + c * (1 + i * (2 + l)))%nat.

(** X10: for all sizes, a run of [seed_data] whose writes are all accepted
    returns after putting one item per artist, album, track, customer and
    invoice line the nested loops ask for, and two per invoice (the insert
    and the upsert with the total), a negative size counting as zero. *)
Theorem seed_data_counts {W : Type} (E : Env W) (table : string) (sizes : Sizes) (w : W) :
  let run := seed_data E table sizes (mkState w []) in
  accepted (trace run.2) →
  run.1 = Ret tt ∧
  (∀ k, count_kind k (trace run.2) = seed_count sizes k) ∧
  length (puts (trace run.2)) = seed_total sizes.
Proof.
  cbn zeta. intros Hacc.
  destruct (seed_data_spec E table sizes (mkState w [])) as (evs & Htr & H).
  rewrite Htr in *. cbn [trace app] in *.
  destruct (seedS_yields table _ _ _ H Hacc) as [[[] ->] Hcount].
  split; [done|]. split; [exact Hcount|].
  rewrite (kinds_partition _ (is_Some_item_kind _ _ _ _ H)).
  pose proof (Hcount KArtist) as H1. pose proof (Hcount KAlbum) as H2.
  pose proof (Hcount KTrack) as H3. pose proof (Hcount KCustomer) as H4.
  pose proof (Hcount KInvoice) as H5. pose proof (Hcount KTotal) as H6.
  pose proof (Hcount KLine) as H7. unfold count_kind in *.
  rewrite H1, H2, H3, H4, H5, H6, H7. unfold seed_count, seed_total. lia.
Qed.

(** ** seed_data: what an item holds *)

(** boto3 refuses a Python [float] in an item: numbers go in as [int] or
    [Decimal]. *)
Definition no_float (v : AttrValue) : Prop :=
  match v with
  | AFloat _ => False
  | _ => True
  end.

Lemma map_Forall_dict (P : string → AttrValue → Prop) (l : list (string * AttrValue)) :
  Forall (fun kv => P kv.1 kv.2) l → map_Forall P (dict l).
Proof.
  unfold dict. induction 1 as [|[k v] l Hkv _ IH]; cbn.
  - apply map_Forall_empty.
  - by apply map_Forall_insert_2.
Qed.

Lemma map_Forall_add_index_keys (P : string → AttrValue → Prop) item t pk sk lsi :
  (∀ k s, P k (AStr s)) → map_Forall P item →
  map_Forall P (add_index_keys item t pk sk lsi).
Proof.
  intros HP Hitem. unfold add_index_keys. by repeat apply map_Forall_insert_2.
Qed.

(** X11: no item that [seed_data] puts holds a binary float: every
    attribute is a string, an int, a Decimal or a list of strings. *)
Theorem no_float_is_stored {W : Type} (E : Env W) (table : string) (sizes : Sizes)
        (w : W) :
  Forall (map_Forall (fun _ => no_float))
         (puts (trace (seed_data E table sizes (mkState w [])).2)).
Proof.
  destruct (seed_data_spec E table sizes (mkState w [])) as (evs & -> & H).
  cbn [trace app]. revert H.
  apply (seedS_items (map_Forall (fun _ => no_float)) sizes); intros;
    (apply map_Forall_add_index_keys; [done|]);
    apply map_Forall_dict; by repeat constructor.
Qed.

(** The key patterns of the module's docstring. *)
Definition key_pattern (lines : Z) (t pk sk : string) : Prop :=
  if bool_decide (t = "Artist") then is_rand_id "ARTIST" pk ∧ sk = pk
  else if bool_decide (t = "Album") then is_rand_id "ARTIST" pk ∧ is_rand_id "ALBUM" sk
  else if bool_decide (t = "Track") then is_rand_id "ALBUM" pk ∧ is_rand_id "TRACK" sk
  else if bool_decide (t = "Customer") then is_rand_id "CUSTOMER" pk ∧ sk = "PROFILE"
  else if bool_decide (t = "Invoice") then is_rand_id "CUSTOMER" pk ∧ is_rand_id "INVOICE" sk
  else if bool_decide (t = "InvoiceLine") then
    is_rand_id "INVOICE" pk ∧ ∃ n, 1 ≤ n ≤ lines ∧ sk = "LINE#" +:+ py_str_int n
  else False.

Definition keyed (lines : Z) (item : Item) : Prop :=
  ∃ t pk sk,
    item_type item = Some t ∧ attr_str "PK" item = Some pk ∧ attr_str "SK" item = Some sk ∧
    key_pattern lines t pk sk ∧
    attr_str "GSI1PK" item = Some ("TYPE#" +:+ t) ∧
    attr_str "GSI1SK" item = Some (pk +:+ "#" +:+ sk) ∧
    is_Some (attr_str "LSI1SK" item).

(** X12: every item that [seed_data] puts has a type among the six, string
    keys PK and SK of the pattern the docstring gives for its type
    (ARTIST#id / ARTIST#id, ARTIST#id / ALBUM#id, ALBUM#id / TRACK#id,
    CUSTOMER#id / PROFILE, CUSTOMER#id / INVOICE#id, INVOICE#id / LINE#n with
    n from 1 to lines-per-invoice), and the index attributes GSI1PK =
    "TYPE#" + type, GSI1SK = PK + "#" + SK and a string LSI1SK. *)
Theorem items_follow_key_patterns {W : Type} (E : Env W) (table : string) (sizes : Sizes)
        (w : W) :
  Forall (keyed (lines_per_invoice sizes))
         (puts (trace (seed_data E table sizes (mkState w [])).2)).
Proof.
  destruct (seed_data_spec E table sizes (mkState w [])) as (evs & -> & H).
  cbn [trace app]. revert H.
  apply (seedS_items (keyed (lines_per_invoice sizes)) sizes).
  - intros a n c f m Ha. exists "Artist", a, a. repeat split; first [done|by eexists].
  - intros a b t y g Ha Hb. exists "Album", a, b. repeat split; first [done|by eexists].
  - intros a t n m b p Ha Ht. exists "Track", a, t. repeat split; first [done|by eexists].
  - intros c n e ci Hc. exists "Customer", c, "PROFILE". repeat split; first [done|by eexists].
  - intros c i ts Hc Hi. exists "Invoice", c, i. repeat split; first [done|by eexists].
  - intros c i ts t Hc Hi. exists "Invoice", c, i. repeat split; first [done|by eexists].
  - intros i n t d q Hi Hn _ _ price.
    exists "InvoiceLine", i, ("LINE#" +:+ py_str_int n).
    repeat split; first [done|by eexists|by exists n].
Qed.

(** ** seed_data: the lines of an invoice *)

Definition line_key (inv_id : string) (n : Z) : option (string * string) :=
  Some (inv_id, "LINE#" +:+ py_str_int n).

(** The lines between the insert [first] of an invoice and its upsert: as
    many as asked, numbered from 1, under the invoice id as partition key. *)
Definition numbered (lines_per_invoice : Z) (first : Item) (lines : list Item) (item : Item)
  : Prop :=
  Forall (fun line => item_type line = Some "InvoiceLine") lines ∧
  ∃ inv_id, attr_str "SK" first = Some inv_id ∧
            primary_key <$> lines = line_key inv_id <$> seqZ 1 lines_per_invoice.

Lemma lines_loop_keys b inv_id pool (n : nat) :
  ∀ i total total' evl,
    loopS (lineS b inv_id pool) i n total (Ret total') evl →
    Forall (fun line => item_type line = Some "InvoiceLine") (puts evl) ∧
    primary_key <$> puts evl = line_key inv_id <$> seqZ i (Z.of_nat n).
Proof.
  induction n as [|n IH]; intros i total total' evl; cbn [loopS].
  - intros [_ ->]. split; [constructor|done].
  - intros (r1 & evs1 & (trk & d & qty & _ & _ & _ & pr & -> & ->) & H).
    destruct pr as [code|]; [by destruct H|].
    destruct H as (evs2 & H & ->). apply IH in H as [Hty Hkeys].
    cbn [app]. rewrite puts_cons_put. split; [by constructor|].
    rewrite seqZ_cons by lia. rewrite !fmap_cons, Hkeys.
    f_equal. f_equal. f_equal; lia.
Qed.

(** X13: between the insert of an invoice and its final upsert
    [seed_data] puts the lines of that invoice and nothing else:
    lines-per-invoice of them (none when that is not positive), with keys
    INVOICE#id / LINE#1, LINE#2, ... in this order. *)
Theorem lines_are_numbered {W : Type} (E : Env W) (table : string) (sizes : Sizes)
        (w : W) (l1 l2 : list Item) (item : Item) :
  puts (trace (seed_data E table sizes (mkState w [])).2) = l1 ++ item :: l2 →
  is_upsert item →
  ∃ l0 first lines,
    l1 = l0 ++ first :: lines ∧ overwrites first item ∧
    numbered (lines_per_invoice sizes) first lines item.
Proof.
  destruct (seed_data_spec E table sizes (mkState w [])) as (evs & -> & H).
  cbn [trace app]. revert H l1 item l2.
  apply (seedS_upserts
           (fun first lines item =>
              overwrites first item ∧ numbered (lines_per_invoice sizes) first lines item)
           sizes).
  intros b cust_id inv_id ts pool total evl _ _ Hloop. cbn zeta.
  split; [apply invoice_total_overwrites|].
  apply lines_loop_keys in Hloop as [Hty Hkeys]. split; [exact Hty|].
  exists inv_id. split; [reflexivity|]. rewrite Hkeys. unfold seqZ. by rewrite Nat2Z.id.
Qed.

(** ** seed_data: parents first *)

(** [parent] is the item under which [child] is filed: the artist of an
    album, the album of a track, the customer of an invoice, the invoice of
    a line. *)
Definition parent_of (child parent : Item) : Prop :=
  match item_type child with
  | Some t =>
      if bool_decide (t = "Album") then
        item_type parent = Some "Artist" ∧ attr_str "SK" parent = attr_str "PK" child
      else if bool_decide (t = "Track") then
        item_type parent = Some "Album" ∧ attr_str "SK" parent = attr_str "PK" child
      else if bool_decide (t = "Invoice") then
        item_type parent = Some "Customer" ∧ attr_str "PK" parent = attr_str "PK" child
      else if bool_decide (t = "InvoiceLine") then
        item_type parent = Some "Invoice" ∧ attr_str "SK" parent = attr_str "PK" child
      else False
  | None => False
  end.

Definition is_root (item : Item) : Prop :=
  item_type item = Some "Artist" ∨ item_type item = Some "Customer".

(** Every item of [items] is a root or comes after its parent, which is in
    [ctx] or in [items]. *)
Definition rooted (ctx items : list Item) : Prop :=
  ∀ l1 item l2, items = l1 ++ item :: l2 →
                is_root item ∨ ∃ p, p ∈ ctx ++ l1 ∧ parent_of item p.

Lemma rooted_nil ctx : rooted ctx [].
Proof. intros l1 item l2 Heq. by destruct l1. Qed.

Lemma rooted_single ctx item :
  is_root item ∨ (∃ p, p ∈ ctx ∧ parent_of item p) → rooted ctx [item].
Proof.
  intros H l1 item' l2 Heq. destruct l1 as [|x l1]; cbn in Heq.
  - injection Heq as <- _. by rewrite app_nil_r.
  - injection Heq as _ Heq. by destruct l1.
Qed.

Lemma rooted_app ctx xs ys : rooted ctx xs → rooted (ctx ++ xs) ys → rooted ctx (xs ++ ys).
Proof.
  intros Hx Hy l1 item l2 Heq.
  apply app_eq_cons_inv in Heq as [(l2' & Heq & _)|(l1' & -> & Heq)].
  - by apply (Hx _ _ _ Heq).
  - destruct (Hy _ _ _ Heq) as [|(p & Hp & Hpar)]; [by left|right].
    exists p. by rewrite app_assoc.
Qed.

Lemma rooted_put ctx b item pr :
  is_root item ∨ (∃ p, p ∈ ctx ∧ parent_of item p) → rooted ctx (puts [EvPut b item pr]).
Proof. apply rooted_single. Qed.

Lemma rooted_loopS {A} (body : Z → A → Spec A) (C : list Item → Prop) :
  (∀ ctx xs, C ctx → C (ctx ++ xs)) →
  (∀ i a r evs ctx, body i a r evs → C ctx → rooted ctx (puts evs)) →
  ∀ n i a r evs ctx, loopS body i n a r evs → C ctx → rooted ctx (puts evs).
Proof.
  intros HC Hbody. induction n as [|n IH]; intros i a r evs ctx; cbn [loopS].
  - intros [_ ->] _. apply rooted_nil.
  - intros (r1 & evs1 & H1 & H) Hctx. destruct r1 as [a'|e|].
    + destruct H as (evs2 & H2 & ->). rewrite puts_app. apply rooted_app.
      * by eapply Hbody.
      * eapply IH; [exact H2|]. by apply HC.
    + destruct H as [_ ->]. by eapply Hbody.
    + destruct H as [_ ->]. by eapply Hbody.
Qed.

(** An item of type [t] whose attribute [key] is [id] is in [ctx]. *)
Definition holds (t key id : string) (ctx : list Item) : Prop :=
  ∃ p, p ∈ ctx ∧ item_type p = Some t ∧ attr_str key p = Some id.

Lemma holds_app t key id ctx xs : holds t key id ctx → holds t key id (ctx ++ xs).
Proof. intros (p & Hp & H). exists p. split; [|done]. apply elem_of_app. by left. Qed.

Lemma holds_last t key id ctx p :
  item_type p = Some t → attr_str key p = Some id → holds t key id (ctx ++ [p]).
Proof. intros Ht Hk. exists p. split; [|done]. apply elem_of_app. right. by left. Qed.

Lemma rooted_trackS b album_id ids r evs ctx :
  trackS b album_id ids r evs → holds "Album" "SK" album_id ctx → rooted ctx (puts evs).
Proof.
  intros (track_id & name & ms & bytes & price & _ & pr & -> & _) (p & Hp & Ht & Hsk).
  apply rooted_put. right. by exists p.
Qed.

Lemma rooted_albumS b artist_id n ids r evs ctx :
  albumS b artist_id n ids r evs → holds "Artist" "SK" artist_id ctx → rooted ctx (puts evs).
Proof.
  intros (album_id & title & year & genre & _ & r1 & evs1 & (pr & -> & ->) & H)
         (p & Hp & Ht & Hsk).
  assert (rooted ctx (puts [EvPut b (album_item artist_id album_id title year genre) pr]))
    as Hfirst.
  { apply rooted_put. right. by exists p. }
  destruct pr as [code|]; [by destruct H as [_ ->]|].
  destruct H as (evs2 & H & ->). rewrite puts_app. apply rooted_app; [done|].
  eapply (rooted_loopS _ (holds "Album" "SK" album_id)); [| |exact H|].
  - intros. by apply holds_app.
  - intros i9 a9 r9 evs9 ctx9 Hb HC. exact (rooted_trackS _ _ _ _ _ _ Hb HC).
  - by apply holds_last.
Qed.

Lemma rooted_artistS b n1 n2 ids r evs ctx :
  artistS b n1 n2 ids r evs → rooted ctx (puts evs).
Proof.
  intros (artist_id & name & city & formed & members & _ & r1 & evs1 & (pr & -> & ->) & H).
  assert (rooted ctx (puts [EvPut b (artist_item artist_id name city formed members) pr]))
    as Hfirst.
  { apply rooted_put. left. by left. }
  destruct pr as [code|]; [by destruct H as [_ ->]|].
  destruct H as (evs2 & H & ->). rewrite puts_app. apply rooted_app; [done|].
  eapply (rooted_loopS _ (holds "Artist" "SK" artist_id)); [| |exact H|].
  - intros. by apply holds_app.
  - intros i9 a9 r9 evs9 ctx9 Hb HC. exact (rooted_albumS _ _ _ _ _ _ _ Hb HC).
  - by apply holds_last.
Qed.

Lemma rooted_lineS b inv_id pool i total r evs ctx :
  lineS b inv_id pool i total r evs → holds "Invoice" "SK" inv_id ctx → rooted ctx (puts evs).
Proof.
  intros (trk & d & qty & _ & _ & _ & pr & -> & _) (p & Hp & Ht & Hsk).
  apply rooted_put. right. by exists p.
Qed.

Lemma rooted_invoiceS b cust_id pool n r evs ctx :
  invoiceS b cust_id pool n r evs → holds "Customer" "PK" cust_id ctx → rooted ctx (puts evs).
Proof.
  intros (inv_id & ts & _ & r1 & evs1 & (pr & -> & ->) & H) (p & Hp & Ht & Hpk).
  set (lsi := "INVOICE#" +:+ py_format_0d 10 ts +:+ "#" +:+ inv_id) in *.
  assert (rooted ctx (puts [EvPut b (invoice_item cust_id inv_id ts lsi) pr])) as Hfirst.
  { apply rooted_put. right. by exists p. }
  destruct pr as [code|]; [by destruct H as [_ ->]|].
  destruct H as (evs2 & (r2 & evl & Hlines & H) & ->).
  rewrite puts_app. apply rooted_app; [done|].
  assert (rooted (ctx ++ puts [EvPut b (invoice_item cust_id inv_id ts lsi) None]) (puts evl))
    as Hl.
  { eapply (rooted_loopS _ (holds "Invoice" "SK" inv_id)); [| |exact Hlines|].
    - intros. by apply holds_app.
    - intros i9 a9 r9 evs9 ctx9 Hb HC. exact (rooted_lineS _ _ _ _ _ _ _ _ Hb HC).
    - by apply holds_last. }
  destruct r2 as [total|e|]; [|by destruct H as [_ ->]..].
  destruct H as (evs3 & (pr & -> & _) & ->). rewrite puts_app. apply rooted_app; [done|].
  apply rooted_put. right. exists p. split; [|done].
  rewrite !elem_of_app. auto.
Qed.

Lemma rooted_customerS b pool n1 n2 r evs ctx :
  customerS b pool n1 n2 r evs → rooted ctx (puts evs).
Proof.
  intros (cust_id & name & email & city & _ & r1 & evs1 & (pr & -> & ->) & H).
  assert (rooted ctx (puts [EvPut b (customer_item cust_id name email city) pr])) as Hfirst.
  { apply rooted_put. left. by right. }
  destruct pr as [code|]; [by destruct H as [_ ->]|].
  destruct H as (evs2 & H & ->). rewrite puts_app. apply rooted_app; [done|].
  eapply (rooted_loopS _ (holds "Customer" "PK" cust_id)); [| |exact H|].
  - intros. by apply holds_app.
  - intros i9 a9 r9 evs9 ctx9 Hb HC. exact (rooted_invoiceS _ _ _ _ _ _ _ Hb HC).
  - by apply holds_last.
Qed.

Lemma rooted_seedS table sizes r evs : seedS table sizes r evs → rooted [] (puts evs).
Proof.
  intros (r0 & evs0 & pr & (r1 & evs1 & H1 & H) & _ & -> & _).
  rewrite puts_app. cbn [puts omap]. rewrite app_nil_r.
  assert (rooted [] (puts evs1)) as Hcat.
  { eapply (rooted_loopS _ (fun _ => True)); [done| |exact H1|done].
    intros i9 a9 r9 evs9 ctx9 Hb _. exact (rooted_artistS _ _ _ _ _ _ _ Hb). }
  destruct r1 as [ids|e|]; [|by destruct H as [_ ->]..].
  destruct H as (evs2 & H2 & ->). rewrite puts_app. apply rooted_app; [done|].
  eapply (rooted_loopS _ (fun _ => True)); [done| |exact H2|done].
  intros i9 a9 r9 evs9 ctx9 Hb _. exact (rooted_customerS _ _ _ _ _ _ _ Hb).
Qed.

(** X14: [seed_data] puts a parent before its children: every album comes
    after the artist whose id is its partition key, every track after its
    album, every invoice (insert and upsert) after its customer, and every
    invoice line after the insert of its invoice. *)
Theorem parents_are_put_first {W : Type} (E : Env W) (table : string) (sizes : Sizes)
        (w : W) (l1 l2 : list Item) (item : Item) :
  puts (trace (seed_data E table sizes (mkState w [])).2) = l1 ++ item :: l2 →
  is_root item ∨ ∃ parent, parent ∈ l1 ∧ parent_of item parent.
Proof.
  destruct (seed_data_spec E table sizes (mkState w [])) as (evs & -> & H).
  cbn [trace app]. intros Heq. exact (rooted_seedS _ _ _ _ H _ _ _ Heq).
Qed.

Lemma seed_data_counts_witness :
  accepted (trace demo_seed.2) ∧ demo_seed.1 = Ret tt ∧
  (∀ k, count_kind k (trace demo_seed.2) = seed_count (mkSizes 2 1 1 1 1 2) k) ∧
  length (puts (trace demo_seed.2)) = 11%nat.
Proof.
  unfold demo_seed. split; [exact demo_accepted|].
  exact (seed_data_counts Sim.env "music" (mkSizes 2 1 1 1 1 2) demo_world demo_accepted).
Defined.

Lemma lines_are_numbered_witness :
  puts (trace demo_seed.2) = take 10 demo_items ++ demo_upsert :: drop 11 demo_items ∧
  is_upsert demo_upsert ∧
  ∃ l0 first lines,
    take 10 demo_items = l0 ++ first :: lines ∧ overwrites first demo_upsert ∧
    numbered 2 first lines demo_upsert.
Proof.
  unfold demo_upsert, demo_items, demo_seed.
  pose proof (split_at_index ∅ 10 _ ltac:(rewrite demo_length; lia)) as Heq.
  assert (is_upsert
            (default ∅ (puts (trace (seed_data Sim.env "music" (mkSizes 2 1 1 1 1 2)
                                       (mkState demo_world [])).2) !! 10%nat))) as Hup.
  { split; [vm_compute; reflexivity|]. vm_compute. eexists. reflexivity. }
  split; [exact Heq|]. split; [exact Hup|].
  exact (lines_are_numbered Sim.env "music" (mkSizes 2 1 1 1 1 2) demo_world _ _ _ Heq Hup).
Defined.

Lemma parents_are_put_first_witness :
  puts (trace demo_seed.2) = take 8 demo_items ++ demo_line :: drop 9 demo_items ∧
  item_type demo_line = Some "InvoiceLine" ∧
  (is_root demo_line ∨ ∃ parent, parent ∈ take 8 demo_items ∧ parent_of demo_line parent).
Proof.
  unfold demo_line, demo_items, demo_seed.
  pose proof (split_at_index ∅ 8 _ ltac:(rewrite demo_length; lia)) as Heq.
  split; [exact Heq|]. split; [vm_compute; reflexivity|].
  exact (parents_are_put_first Sim.env "music" (mkSizes 2 1 1 1 1 2) demo_world _ _ _ Heq).
Defined.

(** ** seed_data: the values of the attributes *)

(** What the generators return. *)
Definition is_title (s : string) : Prop :=
  ∃ a b, a ∈ ALBUM_WORDS ∧ b ∈ ALBUM_WORDS ∧ s = a +:+ " " +:+ b.

Definition is_track_name (s : string) : Prop :=
  ∃ a b, a ∈ ["Lost"; "Found"; "Faded"; "Bright"; "Hidden"; "Open"] ∧
         b ∈ ["Waves"; "Lines"; "Skies"; "Rooms"; "Streets"; "Windows"] ∧
         s = a +:+ " " +:+ b.

Definition is_person_name (s : string) : Prop :=
  ∃ first last,
    first ∈ ["Alex"; "Sam"; "Charlie"; "Taylor"; "Morgan"; "Riley"; "Jordan"; "Casey";
             "Avery"; "Quinn"] ∧
    last ∈ ["Smith"; "Lee"; "Martinez"; "Kim"; "Nguyen"; "Garcia"; "Patel"; "Cohen";
            "Novak"; "Khan"] ∧
    s = first +:+ " " +:+ last.

Definition is_email_of (name email : string) : Prop :=
  ∃ domain, domain ∈ ["example.com"; "mail.test"; "demo.local"] ∧
            email = py_replace_char " " "." (py_lower name) +:+ "@" +:+ domain.

(** [k] elements of [pool], no position of [pool] taken twice. *)
Definition is_sample {A} (pool : list A) (k : nat) (l : list A) : Prop :=
  length l = k ∧ l ⊆ pool ∧ (NoDup pool → NoDup l).

(** The seconds of the clock reading [now], [days] days back. *)
Definition days_back (now days : Z) : Z :=
  py_int (int_truediv (now - days * 86400000000) 1000000).

Section Generators.
Context {W : Type} (E : Env W).

(** [time_time] returns what the clock shows in some state of the world. *)
Lemma silent_time_reading : silent (time_time E) (fun now => ∃ w, now = env_clock E w).
Proof. intros s. exists []. cbn. rewrite app_nil_r. eauto 6. Qed.

Lemma silent_rand_title_words : silent (rand_title E) is_title.
Proof.
  unfold rand_title.
  eapply silent_bind; [by apply silent_random_choice|]. intros a Ha.
  eapply silent_bind; [by apply silent_random_choice|]. intros b Hb.
  apply silent_ret. by exists a, b.
Qed.

Lemma silent_rand_track_name_words : silent (rand_track_name E) is_track_name.
Proof.
  unfold rand_track_name.
  eapply silent_bind; [by apply silent_random_choice|]. intros a Ha.
  eapply silent_bind; [by apply silent_random_choice|]. intros b Hb.
  apply silent_ret. by exists a, b.
Qed.

Lemma silent_rand_name_words : silent (rand_name E) is_person_name.
Proof.
  unfold rand_name.
  eapply silent_bind; [by apply silent_random_choice|]. intros a Ha.
  eapply silent_bind; [by apply silent_random_choice|]. intros b Hb.
  apply silent_ret. by exists a, b.
Qed.

Lemma silent_rand_email_of (name : string) : silent (rand_email E name) (is_email_of name).
Proof.
  unfold rand_email.
  eapply silent_bind; [by apply silent_random_choice|]. intros d Hd.
  apply silent_ret. by exists d.
Qed.

Lemma lookup_nth {A} (l : list A) (i : nat) (d : A) :
  (i < length l)%nat → l !! i = Some (nth i l d).
Proof.
  intros Hi. destruct (lookup_lt_is_Some_2 l i Hi) as [y Hy]. rewrite Hy. f_equal.
  symmetry. by apply nth_lookup_Some.
Qed.

(** The pool without its position [j], the last element in that place. *)
Lemma sample_rest {A} (pool : list A) (x : A) (j : nat) :
  (j < length pool)%nat →
  let rest := take (length pool - 1) (<[j := nth (length pool - 1) pool x]> pool) in
  rest ⊆ pool ∧ (NoDup pool → NoDup rest ∧ nth j pool x ∉ rest).
Proof.
  intros Hj rest.
  assert (∀ i y, rest !! i = Some y →
                 (i < length pool - 1)%nat ∧
                 pool !! (if decide (i = j) then (length pool - 1)%nat else i) = Some y)
    as Hrest.
  { intros i y Hi. unfold rest in Hi. apply lookup_take_Some in Hi as [Hi Hlt].
    split; [done|]. destruct (decide (i = j)) as [->|Hne].
    - rewrite list_lookup_insert_eq in Hi by done. injection Hi as <-.
      apply lookup_nth. lia.
    - by rewrite list_lookup_insert_ne in Hi. }
  split.
  - intros y [i Hi]%list_elem_of_lookup. apply Hrest in Hi as [_ Hi].
    by eapply list_elem_of_lookup_2.
  - intros Hnd. rewrite NoDup_alt in Hnd. split.
    + apply NoDup_alt. intros i1 i2 y H1 H2.
      apply Hrest in H1 as [Hl1 H1], H2 as [Hl2 H2].
      pose proof (Hnd _ _ _ H1 H2) as Heq.
      destruct (decide (i1 = j)), (decide (i2 = j)); lia.
    + intros [i Hi]%list_elem_of_lookup. apply Hrest in Hi as [Hl Hi].
      assert (pool !! j = Some (nth j pool x)) as Hjx.
      { by apply lookup_nth. }
      pose proof (Hnd _ _ _ Hi Hjx) as Heq. destruct (decide (i = j)); lia.
Qed.

Lemma silent_random_sample_distinct {A} (k : nat) :
  ∀ pool : list A, (k ≤ length pool)%nat →
                    silent (random_sample E pool k) (is_sample pool k).
Proof.
  induction k as [|k IH]; intros pool Hk; cbn.
  - apply silent_ret. split; [done|]. split; [by intros ? ?%elem_of_nil|]. constructor.
  - destruct pool as [|x pool]; [cbn in Hk; lia|].
    eapply silent_bind; [apply silent_random_below; cbn; lia|]. intros j Hj.
    cbn beta in Hj. set (n := length (x :: pool)) in *.
    assert (Z.to_nat j < n)%nat as Hjn by lia.
    destruct (sample_rest (x :: pool) x (Z.to_nat j) Hjn) as [Hsub Hnd].
    eapply silent_bind.
    + apply IH. rewrite length_take, length_insert. cbn in *. lia.
    + intros xs (Hlen & Hxs & Hdist). apply silent_ret. split; [cbn; by rewrite Hlen|].
      split.
      * intros y [->|Hy]%elem_of_cons; [|by apply Hsub, Hxs].
        apply list_elem_of_In, nth_In. exact Hjn.
      * intros Hpool. destruct (Hnd Hpool) as [Hrest Hnot].
        constructor; [|by apply Hdist]. intros Hin. apply Hnot. by apply Hxs.
Qed.

End Generators.

Section Values.
Context {W : Type} (E : Env W).
Variable Q : Item → Prop.
Variable sizes : Sizes.

Hypothesis V_artist : ∀ artist_id name city formed members,
    is_rand_id "ARTIST" artist_id → name ∈ ARTIST_NAMES → city ∈ CITIES →
    1970 ≤ formed ≤ 2020 →
    (2 ≤ length members ≤ 4)%nat → members ⊆ INSTRUMENTS → NoDup members →
    Q (artist_item artist_id name city formed members).
Hypothesis V_album : ∀ artist_id album_id title year genre,
    is_rand_id "ARTIST" artist_id → is_rand_id "ALBUM" album_id → is_title title →
    1995 ≤ year ≤ 2024 → genre ∈ GENRES →
    Q (album_item artist_id album_id title year genre).
Hypothesis V_track : ∀ album_id track_id name milliseconds bytes d,
    is_rand_id "ALBUM" album_id → is_rand_id "TRACK" track_id → is_track_name name →
    90000 ≤ milliseconds ≤ 360000 → 512000 ≤ bytes ≤ 8000000 → 0 ≤ d < 2 ^ 53 →
    Q (track_item album_id track_id name milliseconds bytes
                  (Decimal_of_float (py_round2 (uniform_price d)))).
Hypothesis V_customer : ∀ cust_id name email city,
    is_rand_id "CUSTOMER" cust_id → is_person_name name → is_email_of name email →
    city ∈ CITIES →
    Q (customer_item cust_id name email city).
Hypothesis V_invoice : ∀ cust_id inv_id w days,
    is_rand_id "CUSTOMER" cust_id → is_rand_id "INVOICE" inv_id → 0 ≤ days ≤ 365 →
    let ts := days_back (env_clock E w) days in
    Q (invoice_item cust_id inv_id ts ("INVOICE#" +:+ py_format_0d 10 ts +:+ "#" +:+ inv_id)).
Hypothesis V_invoice_total : ∀ cust_id inv_id w days total,
    is_rand_id "CUSTOMER" cust_id → is_rand_id "INVOICE" inv_id → 0 ≤ days ≤ 365 →
    let ts := days_back (env_clock E w) days in
    Q (invoice_total_item cust_id inv_id ts (Decimal_of_float (py_round2 total))
                          ("INVOICE#" +:+ py_format_0d 10 ts +:+ "#" +:+ inv_id)).
Hypothesis V_line : ∀ inv_id line_ix trk d qty,
    is_rand_id "INVOICE" inv_id → 1 ≤ line_ix ≤ lines_per_invoice sizes →
    0 ≤ d < 2 ^ 53 → 1 ≤ qty ≤ 3 →
    let price := py_round2 (uniform_price d) in
    Q (line_item inv_id line_ix trk (Decimal_of_float price) (Decimal_of_int qty)
                 (py_round (fmul price (float_of_int 100)))).

(** Every item that [m] puts satisfies [Q]. *)
Definition putting {A} (m : M W A) : Prop := emits m (fun _ evs => puts_all Q evs).

Lemma putting_ret {A} (a : A) : putting (ret a).
Proof. apply emits_ret. constructor. Qed.

Lemma putting_bind {A B} (m : M W A) (k : A → M W B) :
  putting m → (∀ a, putting (k a)) → putting (bind m k).
Proof.
  intros Hm Hk.
  eapply emits_mono;
    [apply (emits_bind _ _ (fun _ evs => puts_all Q evs) (fun _ _ evs => puts_all Q evs));
     [exact Hm|exact Hk]|].
  apply (always_seqS _ _ (puts_all Q)); [apply app_closed_puts_all|..]; by intros ? ? ?.
Qed.

Lemma putting_put (b : string) (item : Item) : Q item → putting (put_item E b item).
Proof.
  intros HQ. eapply emits_mono; [apply emits_put_item_last|].
  apply (always_putS _ _ _ (puts_all Q)). intros pr. by apply puts_all_put.
Qed.

Lemma putting_for_loop {A} (body : Z → A → M W A) (P : Z → Prop) :
  (∀ i a, P i → putting (body i a)) →
  ∀ n i a, (∀ j, i ≤ j < i + Z.of_nat n → P j) → putting (for_loop body i n a).
Proof.
  intros Hbody. induction n as [|n IH]; intros i a HP; cbn.
  - apply putting_ret.
  - apply putting_bind; [apply Hbody, HP; lia|]. intros a'. apply IH.
    intros j Hj. apply HP. lia.
Qed.

Lemma putting_for_range {A} (lo hi : Z) (body : Z → A → M W A) (a : A) :
  (∀ i a, lo ≤ i < hi → putting (body i a)) → putting (for_range lo hi body a).
Proof.
  intros Hbody. unfold for_range.
  apply (putting_for_loop body (fun i => lo ≤ i < hi)); [done|]. lia.
Qed.

Lemma putting_track b album_id ids :
  is_rand_id "ALBUM" album_id → putting (seed_track E b album_id ids).
Proof.
  intros Hal. unfold seed_track.
  eapply emits_bind_silent; [apply silent_rand_id|]. intros track_id Hid.
  eapply emits_bind_silent; [apply silent_rand_track_name_words|]. intros name Hname.
  eapply emits_bind_silent; [by apply silent_random_randint|]. intros ms Hms.
  eapply emits_bind_silent; [by apply silent_random_randint|]. intros bytes Hbytes.
  eapply emits_bind_silent; [apply silent_random_uniform_price|]. intros price (d & Hd & ->).
  cbn zeta. apply putting_bind; [|intros; apply putting_ret].
  apply putting_put. by apply V_track.
Qed.

Lemma putting_album b artist_id n ids :
  is_rand_id "ARTIST" artist_id → putting (seed_album E b artist_id n ids).
Proof.
  intros Har. unfold seed_album.
  eapply emits_bind_silent; [apply silent_rand_id|]. intros album_id Hid.
  eapply emits_bind_silent; [apply silent_rand_title_words|]. intros title Htitle.
  eapply emits_bind_silent; [by apply silent_random_randint|]. intros year Hyear.
  eapply emits_bind_silent; [by apply silent_random_choice|]. intros genre Hgenre.
  cbn zeta. apply putting_bind; [apply putting_put; by apply V_album|]. intros _.
  apply putting_for_range. intros. by apply putting_track.
Qed.

Lemma putting_artist b n1 n2 ids : putting (seed_artist E b n1 n2 ids).
Proof.
  unfold seed_artist.
  eapply emits_bind_silent; [apply silent_rand_id|]. intros artist_id Hid.
  eapply emits_bind_silent; [by apply silent_random_choice|]. intros name Hname.
  eapply emits_bind_silent; [by apply silent_random_choice|]. intros city Hcity.
  eapply emits_bind_silent; [by apply silent_random_randint|]. intros formed Hformed.
  eapply emits_bind_silent; [by apply silent_random_randint|]. intros k Hk.
  cbn beta in Hk.
  eapply emits_bind_silent; [apply silent_random_sample_distinct; cbn; lia|].
  intros members (Hlen & Hsub & Hnd).
  cbn zeta. apply putting_bind.
  - apply putting_put. apply V_artist; try done; [lia|].
    apply Hnd. unfold INSTRUMENTS. apply (bool_decide_unpack _). by vm_compute.
  - intros _. apply putting_for_range. intros. by apply putting_album.
Qed.

Lemma putting_line b inv_id pool i total :
  is_rand_id "INVOICE" inv_id → 1 ≤ i ≤ lines_per_invoice sizes →
  putting (seed_line E b inv_id pool i total).
Proof.
  intros Hinv Hi. unfold seed_line.
  apply emits_bind_silent with (P := fun _ => True).
  { case_bool_decide.
    - eapply silent_mono; [by apply silent_random_choice|done].
    - eapply silent_mono; [apply silent_rand_id|done]. }
  intros trk _.
  eapply emits_bind_silent; [apply silent_random_uniform_price|]. intros x (d & Hd & ->).
  eapply emits_bind_silent; [by apply silent_random_randint|]. intros qty Hqty.
  cbn beta in Hqty. cbn zeta. apply putting_bind; [|intros; apply putting_ret].
  apply putting_put. by apply V_line.
Qed.

Lemma putting_invoice b cust_id pool :
  is_rand_id "CUSTOMER" cust_id →
  putting (seed_invoice E b cust_id pool (lines_per_invoice sizes)).
Proof.
  intros Hcu. unfold seed_invoice.
  eapply emits_bind_silent; [apply silent_rand_id|]. intros inv_id Hid.
  eapply emits_bind_silent; [apply silent_time_reading|]. intros now [w0 ->].
  eapply emits_bind_silent; [by apply silent_random_randint|]. intros days Hdays.
  cbn beta in Hdays. cbn zeta.
  apply putting_bind; [apply putting_put; by apply V_invoice|]. intros _.
  apply putting_bind.
  - apply putting_for_range. intros. apply putting_line; [done|lia].
  - intros total. apply putting_put. by apply V_invoice_total.
Qed.

Lemma putting_customer b pool n :
  putting (seed_customer E b pool n (lines_per_invoice sizes)).
Proof.
  unfold seed_customer.
  eapply emits_bind_silent; [apply silent_rand_id|]. intros cust_id Hid.
  eapply emits_bind_silent; [apply silent_rand_name_words|]. intros name Hname.
  eapply emits_bind_silent; [apply silent_rand_email_of|]. intros email Hemail.
  eapply emits_bind_silent; [by apply silent_random_choice|]. intros city Hcity.
  cbn zeta. apply putting_bind; [apply putting_put; by apply V_customer|]. intros _.
  apply putting_for_range. intros. by apply putting_invoice.
Qed.

Lemma putting_with_batch_writer {A} (b : string) (body : M W A) :
  putting body → putting (with_batch_writer E b body).
Proof.
  intros Hbody s. unfold with_batch_writer.
  destruct (Hbody s) as (evs0 & Htr & H). destruct (body s) as [[a|e|] s0]; cbn [fst snd] in *.
  3: by exists evs0.
  all: unfold bind, writer_exit, call;
    destruct (env_writer_exit E b (world s0)) as [pr w];
    exists (evs0 ++ [EvWriterExit b pr]);
    (split; [destruct pr; cbn; by rewrite Htr, app_assoc|]);
    apply app_closed_puts_all; [done|constructor].
Qed.

Lemma seed_data_values (table : string) (w : W) :
  Forall Q (puts (trace (seed_data E table sizes (mkState w [])).2)).
Proof.
  assert (putting (seed_data E table sizes)) as H.
  { unfold seed_data. apply putting_with_batch_writer. apply putting_bind.
    - apply putting_for_range. intros. apply putting_artist.
    - intros ids. apply putting_for_range. intros. apply putting_customer. }
  destruct (H (mkState w [])) as (evs & -> & Hevs). exact Hevs.
Qed.

End Values.

(** What the attributes of an artist, an album, a track and a customer are
    drawn from. *)
Definition artist_ok (item : Item) : Prop :=
  ∃ name city formed members,
    item !! "name" = Some (AStr name) ∧ name ∈ ARTIST_NAMES ∧
    item !! "city" = Some (AStr city) ∧ city ∈ CITIES ∧
    item !! "formed" = Some (AInt formed) ∧ 1970 ≤ formed ≤ 2020 ∧
    item !! "members" = Some (AList members) ∧
    (2 ≤ length members ≤ 4)%nat ∧ members ⊆ INSTRUMENTS ∧ NoDup members.

Definition album_ok (item : Item) : Prop :=
  ∃ title year genre,
    item !! "album_id" = item !! "SK" ∧
    item !! "title" = Some (AStr title) ∧ is_title title ∧
    item !! "year" = Some (AInt year) ∧ 1995 ≤ year ≤ 2024 ∧
    item !! "genre" = Some (AStr genre) ∧ genre ∈ GENRES.

Definition track_ok (item : Item) : Prop :=
  ∃ name milliseconds bytes,
    item !! "track_id" = item !! "SK" ∧
    item !! "name" = Some (AStr name) ∧ is_track_name name ∧
    item !! "milliseconds" = Some (AInt milliseconds) ∧ 90000 ≤ milliseconds ≤ 360000 ∧
    item !! "bytes" = Some (AInt bytes) ∧ 512000 ≤ bytes ≤ 8000000.

Definition customer_ok (item : Item) : Prop :=
  ∃ name email city,
    item !! "name" = Some (AStr name) ∧ is_person_name name ∧
    item !! "email" = Some (AStr email) ∧ is_email_of name email ∧
    item !! "city" = Some (AStr city) ∧ city ∈ CITIES ∧
    attr_str "LSI1SK" item = Some ("PROFILE#" +:+ name).

Definition catalogue_ok (item : Item) : Prop :=
  (item_type item = Some "Artist" → artist_ok item) ∧
  (item_type item = Some "Album" → album_ok item) ∧
  (item_type item = Some "Track" → track_ok item).

(** X15: the catalogue items hold what the generators draw: an artist a
    name and a city of the fixed lists, a year of formation from 1970 to
    2020 and two to four different instruments; an album its own id, a title
    of two album words, a year from 1995 to 2024 and a genre of the list; a
    track its own id, a name of two words, 90 to 360 seconds in milliseconds
    and 512,000 to 8,000,000 bytes. *)
Theorem catalogue_values {W : Type} (E : Env W) (table : string) (sizes : Sizes) (w : W) :
  Forall catalogue_ok (puts (trace (seed_data E table sizes (mkState w [])).2)).
Proof.
  apply (seed_data_values E catalogue_ok sizes).
  - intros a n c f m _ Hn Hc Hf Hlen Hsub Hnd. split; [|by split; intros [=]].
    intros _. by exists n, c, f, m.
  - intros a b t y g _ _ Ht Hy Hg. split; [by intros [=]|]. split; [|by intros [=]].
    intros _. by exists t, y, g.
  - intros a t n ms by_ d _ _ Hn Hms Hby _. split; [by intros [=]|]. split; [by intros [=]|].
    intros _. by exists n, ms, by_.
  - intros c n e ci _ _ _ _. by repeat split; intros [=].
  - intros c i w0 days _ _ _ ts. by repeat split; intros [=].
  - intros c i w0 days total _ _ _ ts. by repeat split; intros [=].
  - intros i n t d q _ _ _ _ price. by repeat split; intros [=].
Qed.

(** X16: a customer holds a first and a last name of the fixed lists, an
    email address made of that name in lower case with a dot for the space,
    at one of the three test domains, a city of the list, and the sort value
    PROFILE#name. *)
Theorem customer_values {W : Type} (E : Env W) (table : string) (sizes : Sizes) (w : W) :
  Forall (fun item => item_type item = Some "Customer" → customer_ok item)
         (puts (trace (seed_data E table sizes (mkState w [])).2)).
Proof.
  apply (seed_data_values E (fun item => item_type item = Some "Customer" → customer_ok item)
                          sizes).
  - by intros a n c f m _ _ _ _ _ _ _ [=].
  - by intros a b t y g _ _ _ _ _ [=].
  - by intros a t n ms by_ d _ _ _ _ _ _ [=].
  - intros c n e ci _ Hn He Hc _. by exists n, e, ci.
  - by intros c i w0 days _ _ _ ts [=].
  - by intros c i w0 days total _ _ _ ts [=].
  - by intros i n t d q _ _ _ _ price [=].
Qed.

(** ** missing_indexes: which descriptions pass *)

(** A dict comprehension keeps, for each key, the value of the last element
    with that key. *)
Lemma comprehension_lookup {A V} (key : A → string) (val : A → V) (l : list A) :
  ∀ (m : gmap string V) (k : string),
    foldl (fun m x => <[key x := val x]> m) m l !! k
    = match last (filter (fun x => key x = k) l) with
      | Some x => Some (val x)
      | None => m !! k
      end.
Proof.
  induction l as [|x l IH]; intros m k; [done|]. cbn [foldl]. rewrite IH, filter_cons.
  destruct (decide (key x = k)) as [Hk|Hk].
  - rewrite last_cons. destruct (last (filter _ l)); [done|]. by rewrite Hk, lookup_insert_eq.
  - destruct (last (filter _ l)); [done|]. by rewrite lookup_insert_ne.
Qed.

(** The index description that [{g["IndexName"]: g for g in indexes}] files
    under [name], and the attribute that [index_key_schema] files under a
    key type. *)
Definition named (name : string) (indexes : list IndexDescription) : option IndexDescription :=
  last (filter (fun g => IndexName g = name) indexes).

Definition key_of_type (ty : string) (index : IndexDescription) : option string :=
  AttributeName <$> last (filter (fun k => KeyType k = ty) (default [] (KeySchema index))).

(** The index has a HASH key [hash], a RANGE key [range] and no key of
    another type. *)
Definition index_ok (hash range : string) (index : IndexDescription) : Prop :=
  key_of_type "HASH" index = Some hash ∧ key_of_type "RANGE" index = Some range ∧
  Forall (fun k => KeyType k = "HASH" ∨ KeyType k = "RANGE") (default [] (KeySchema index)).

Lemma index_key_schema_lookup (index : IndexDescription) (ty : string) :
  index_key_schema index !! ty = key_of_type ty index.
Proof.
  unfold index_key_schema, key_of_type. rewrite comprehension_lookup.
  by destruct (last _).
Qed.

Lemma key_of_type_None (index : IndexDescription) (ty : string) :
  key_of_type ty index = None ↔
  Forall (fun k => KeyType k ≠ ty) (default [] (KeySchema index)).
Proof.
  unfold key_of_type. rewrite fmap_None, last_None.
  induction (default [] (KeySchema index)) as [|k l IH]; [done|].
  rewrite filter_cons, Forall_cons. destruct (decide (KeyType k = ty)); [|tauto].
  split; [done|tauto].
Qed.

Lemma index_key_schema_ok (hash range : string) (index : IndexDescription) :
  index_key_schema index = <["RANGE" := range]> {["HASH" := hash]} ↔
  index_ok hash range index.
Proof.
  split.
  - intros Heq. unfold index_ok. rewrite <- !index_key_schema_lookup, Heq.
    split; [done|]. split; [done|].
    apply Forall_forall. intros k Hk.
    destruct (decide (KeyType k = "HASH")) as [|Hh]; [by left|].
    destruct (decide (KeyType k = "RANGE")) as [|Hr]; [by right|]. exfalso.
    assert (index_key_schema index !! KeyType k = None) as Hnone.
    { rewrite Heq. rewrite lookup_insert_ne by done. by rewrite lookup_singleton_ne. }
    rewrite index_key_schema_lookup, key_of_type_None, Forall_forall in Hnone.
    by apply (Hnone k).
  - intros (Hh & Hr & Hall). apply map_eq. intros ty.
    rewrite index_key_schema_lookup.
    destruct (decide (ty = "RANGE")) as [->|Hnr]; [by rewrite Hr|].
    rewrite lookup_insert_ne by done.
    destruct (decide (ty = "HASH")) as [->|Hnh]; [by rewrite Hh|].
    rewrite lookup_singleton_ne by done. apply key_of_type_None.
    eapply Forall_impl; [exact Hall|]. intros k [Hk|Hk]; congruence.
Qed.

Lemma index_mismatch_false (indexes : list IndexDescription) (name hash range : string) :
  index_mismatch (by_index_name indexes !! name) (<["RANGE" := range]> {["HASH" := hash]})
  = false ↔
  ∃ index, named name indexes = Some index ∧ index_ok hash range index.
Proof.
  unfold by_index_name, named. rewrite comprehension_lookup, lookup_empty.
  destruct (last _) as [index|]; cbn.
  - rewrite bool_decide_eq_false. split.
    + intros H. exists index. split; [done|]. apply index_key_schema_ok.
      by destruct (decide (index_key_schema index = <["RANGE":=range]> {["HASH":=hash]})).
    + intros (? & [= <-] & H%index_key_schema_ok). auto.
  - split; [done|]. by intros (? & [=] & _).
Qed.

(** X17: [missing_indexes] lists GSI1 unless the description has a global
    index of that name (the last one, if several) whose key schema has HASH
    key GSI1PK, RANGE key GSI1SK and no key of another type, in whatever
    order; it lists LSI1 after it unless a local index of that name has HASH
    key PK and RANGE key LSI1SK in the same sense; and it lists nothing
    else. *)
Theorem missing_indexes_spec (desc : DescribeTableOutput) :
  let gsis := default [] (Table desc ≫= GlobalSecondaryIndexes) in
  let lsis := default [] (Table desc ≫= LocalSecondaryIndexes) in
  ("GSI1" ∈ missing_indexes desc ↔
   ¬ ∃ index, named "GSI1" gsis = Some index ∧ index_ok "GSI1PK" "GSI1SK" index) ∧
  ("LSI1" ∈ missing_indexes desc ↔
   ¬ ∃ index, named "LSI1" lsis = Some index ∧ index_ok "PK" "LSI1SK" index) ∧
  missing_indexes desc ∈ [[]; ["GSI1"]; ["LSI1"]; ["GSI1"; "LSI1"]].
Proof.
  cbn zeta. unfold missing_indexes.
  pose proof (index_mismatch_false (default [] (Table desc ≫= GlobalSecondaryIndexes))
                "GSI1" "GSI1PK" "GSI1SK") as Hg.
  pose proof (index_mismatch_false (default [] (Table desc ≫= LocalSecondaryIndexes))
                "LSI1" "PK" "LSI1SK") as Hl.
  fold GSI1_schema in Hg. fold LSI1_schema in Hl.
  rewrite <- Hg, <- Hl.
  destruct (index_mismatch _ GSI1_schema), (index_mismatch _ LSI1_schema); cbn [app];
    rewrite ?elem_of_cons, ?elem_of_nil; intuition (try reflexivity; discriminate).
Qed.

(** ** Binary floating point: what rounding guarantees *)

Lemma inject_Z_nonpos (z : Z) : z ≤ 0 → (inject_Z z <= 0)%Q.
Proof. intros H. unfold Qle. cbn. lia. Qed.

Lemma inject_Z_nonneg (z : Z) : 0 ≤ z → (0 <= inject_Z z)%Q.
Proof. intros H. unfold Qle. cbn. lia. Qed.

Lemma inject_Z_pos (z : Z) : 0 < z → (0 < inject_Z z)%Q.
Proof. intros H. unfold Qlt. cbn. lia. Qed.

Lemma Qinv_pos_Z (p : positive) : (1 # p == / inject_Z (Z.pos p))%Q.
Proof. reflexivity. Qed.

Lemma pow_Qpower (a : Z) (e : Z) :
  0 < a →
  ((if 0 <=? e then inject_Z (a ^ e) else 1 # Z.to_pos (a ^ (- e))) == inject_Z a ^ e)%Q.
Proof.
  intros Ha. destruct (0 <=? e) eqn:He.
  - apply Z.leb_le in He. by rewrite Zpower_Qpower.
  - apply Z.leb_gt in He. destruct e as [|p|p]; [lia|lia|].
    change (- Z.neg p) with (Z.pos p).
    assert (0 < a ^ Z.pos p) as Hpos by (apply Z.pow_pos_nonneg; lia).
    destruct (a ^ Z.pos p) as [|q|q] eqn:Hq; [lia| |lia].
    cbn [Z.to_pos]. rewrite Qinv_pos_Z, <- Hq, Zpower_Qpower by lia.
    change (Z.neg p) with (- Z.pos p). by rewrite Qpower_opp.
Qed.

Lemma pow2_Qpower (e : Z) : (pow2 e == 2 ^ e)%Q.
Proof. apply (pow_Qpower 2). lia. Qed.

Lemma pow10_Qpower (e : Z) : (pow10 e == 10 ^ e)%Q.
Proof. apply (pow_Qpower 10). lia. Qed.

Lemma pow2_pos (e : Z) : (0 < pow2 e)%Q.
Proof. rewrite pow2_Qpower. by apply Qpower_0_lt. Qed.

Lemma pow2_add (a b : Z) : (pow2 (a + b) == pow2 a * pow2 b)%Q.
Proof. rewrite !pow2_Qpower. by apply Qpower_plus. Qed.

Lemma pow10_add (a b : Z) : (pow10 (a + b) == pow10 a * pow10 b)%Q.
Proof. rewrite !pow10_Qpower. by apply Qpower_plus. Qed.

Lemma pow2_lt (a b : Z) : a < b → (pow2 a < pow2 b)%Q.
Proof. intros H. rewrite !pow2_Qpower. by apply Qpower_lt_compat_l. Qed.

Lemma pow2_lt_inv (a b : Z) : (pow2 a < pow2 b)%Q → a < b.
Proof. rewrite !pow2_Qpower. intros H. by apply (Qpower_lt_compat_l_inv 2). Qed.

Lemma pow10_nonneg_eq (e : Z) : 0 ≤ e → pow10 e = inject_Z (10 ^ e).
Proof. intros He. unfold pow10. by rewrite (proj2 (Z.leb_le 0 e) He). Qed.

Lemma pow2_nonneg (e : Z) : 0 ≤ e → (pow2 e == inject_Z (2 ^ e))%Q.
Proof. intros He. unfold pow2. by rewrite (proj2 (Z.leb_le 0 e) He). Qed.

(** *** Nearest integer *)

(** [x] as its floor and the rest. *)
Lemma Q_div_mod (x : Q) :
  let d := Z.pos (Qden x) in
  (x == inject_Z (Qnum x / d)%Z + ((Qnum x mod d)%Z # Qden x))%Q ∧ 0 ≤ Qnum x mod d < d.
Proof.
  cbn zeta. split; [|apply Z.mod_pos_bound; lia].
  destruct x as [n d]. cbn [Qnum Qden]. unfold Qeq, Qplus, inject_Z. cbn [Qnum Qden].
  pose proof (Z.div_mod n (Z.pos d) ltac:(lia)). nia.
Qed.

Lemma round_half_even_near (x : Q) :
  (Qabs (x - inject_Z (round_half_even x)) <= 1 # 2)%Q.
Proof.
  destruct (Q_div_mod x) as [Hx Hr]. unfold round_half_even.
  cbn zeta in Hx, Hr. cbn zeta.
  set (q := Qnum x / Z.pos (Qden x)) in *. set (r := Qnum x mod Z.pos (Qden x)) in *.
  clearbody q r.
  assert (0 <= r # Qden x)%Q as H0 by (unfold Qle; cbn; lia).
  assert (r # Qden x < 1)%Q as H1 by (unfold Qlt; cbn; lia).
  apply Qabs_Qle_condition.
  assert (inject_Z (q + 1) == inject_Z q + 1)%Q as Hq1 by (by rewrite inject_Z_plus).
  destruct (2 * r ?= Z.pos (Qden x)) eqn:Hc.
  - apply Z.compare_eq in Hc.
    assert (r # Qden x == 1 # 2)%Q as Hhalf by (unfold Qeq; cbn; lia).
    destruct (Z.even q); [|rewrite Hq1]; split; lra.
  - rewrite Z.compare_lt_iff in Hc.
    assert (r # Qden x < 1 # 2)%Q as Hhalf by (unfold Qlt; cbn; lia).
    split; lra.
  - rewrite Z.compare_gt_iff in Hc.
    assert (1 # 2 < r # Qden x)%Q as Hhalf by (unfold Qlt; cbn; lia).
    rewrite Hq1. split; lra.
Qed.

Lemma Qabs_lt_1_Z (a b : Z) : (Qabs (inject_Z a - inject_Z b) < 1)%Q → a = b.
Proof.
  intros H.
  assert (inject_Z a - inject_Z b == inject_Z (a - b))%Q as Hd
      by (unfold Z.sub; rewrite inject_Z_plus, inject_Z_opp; reflexivity).
  rewrite Hd in H. apply Qabs_Qlt_condition in H as [H1 H2].
  change (- (1))%Q with (inject_Z (-1)) in H1. change 1%Q with (inject_Z 1) in H2.
  rewrite <- Zlt_Qlt in H1, H2. lia.
Qed.

Lemma round_half_even_unique (x : Q) (z : Z) :
  (Qabs (x - inject_Z z) < 1 # 2)%Q → round_half_even x = z.
Proof.
  intros Hz. pose proof (round_half_even_near x) as Hr.
  apply Qabs_lt_1_Z. apply Qabs_Qlt_condition in Hz as [Hz1 Hz2].
  apply Qabs_Qle_condition in Hr as [Hr1 Hr2].
  apply Qabs_Qlt_condition. split; lra.
Qed.

Lemma round_half_even_Z (x : Q) (z : Z) : (x == inject_Z z)%Q → round_half_even x = z.
Proof.
  intros Hx. apply round_half_even_unique. apply Qabs_Qlt_condition. split; lra.
Qed.

(** *** The exponent of a positive number *)

Lemma Q_pos_num (x : Q) : (0 < x)%Q ↔ 0 < Qnum x.
Proof. unfold Qlt. cbn. lia. Qed.

Lemma log2_quot (n d : Z) :
  0 < n → 0 < d →
  let e := Z.log2 n - Z.log2 d in
  (pow2 (e - 1) < n # Z.to_pos d)%Q ∧ (n # Z.to_pos d < pow2 (e + 1))%Q.
Proof.
  intros Hn Hd e.
  destruct (Z.log2_spec n Hn) as [Hn1 Hn2]. destruct (Z.log2_spec d Hd) as [Hd1 Hd2].
  pose proof (Z.log2_nonneg n). pose proof (Z.log2_nonneg d).
  assert (n # Z.to_pos d == inject_Z n / inject_Z d)%Q as ->.
  { rewrite Qmake_Qdiv. by rewrite Z2Pos.id. }
  assert (0 < inject_Z d)%Q as Hd0 by (by rewrite <- (Zlt_Qlt 0)).
  assert (inject_Z (2 ^ Z.log2 n) == pow2 (Z.log2 n))%Q as En by (by rewrite pow2_nonneg).
  assert (inject_Z (2 ^ Z.succ (Z.log2 n)) == pow2 (Z.log2 n + 1))%Q as En'
      by (rewrite pow2_nonneg by lia; reflexivity).
  assert (inject_Z (2 ^ Z.log2 d) == pow2 (Z.log2 d))%Q as Ed by (by rewrite pow2_nonneg).
  assert (inject_Z (2 ^ Z.succ (Z.log2 d)) == pow2 (Z.log2 d + 1))%Q as Ed'
      by (rewrite pow2_nonneg by lia; reflexivity).
  rewrite Zle_Qle, En in Hn1. rewrite Zlt_Qlt, En' in Hn2.
  rewrite Zle_Qle, Ed in Hd1. rewrite Zlt_Qlt, Ed' in Hd2.
  split.
  - apply Qlt_shift_div_l; [done|].
    eapply Qlt_le_trans; [|exact Hn1].
    assert (pow2 (Z.log2 n) == pow2 (e - 1) * pow2 (Z.log2 d + 1))%Q as ->.
    { rewrite <- pow2_add. by replace (e - 1 + (Z.log2 d + 1)) with (Z.log2 n) by (unfold e; lia). }
    apply Qmult_lt_l; [apply pow2_pos|done].
  - apply Qlt_shift_div_r; [done|].
    eapply Qlt_le_trans; [exact Hn2|].
    assert (pow2 (Z.log2 n + 1) == pow2 (e + 1) * pow2 (Z.log2 d))%Q as ->.
    { rewrite <- pow2_add. by replace (e + 1 + Z.log2 d) with (Z.log2 n + 1) by (unfold e; lia). }
    apply Qmult_le_l; [apply pow2_pos|done].
Qed.

Lemma binade_spec (x : Q) :
  (0 < x)%Q → (pow2 (binade x) <= x)%Q ∧ (x < pow2 (binade x + 1))%Q.
Proof.
  intros Hx. apply Q_pos_num in Hx.
  pose proof (log2_quot (Qnum x) (Z.pos (Qden x)) Hx ltac:(lia)) as [H1 H2].
  cbn [Z.to_pos] in H1, H2.
  assert (Qnum x # Qden x = x) as Ex by (by destruct x). rewrite Ex in H1, H2.
  unfold binade. cbn zeta.
  set (e := Z.log2 (Qnum x) - Z.log2 (Z.pos (Qden x))) in *. clearbody e.
  destruct (Qle_bool (pow2 e) x) eqn:Hle.
  - apply Qle_bool_iff in Hle. done.
  - split; [by apply Qlt_le_weak|].
    replace (e - 1 + 1) with e by lia.
    apply Qnot_le_lt. intros Hc. apply Qle_bool_iff in Hc. congruence.
Qed.

Lemma binade_unique (x : Q) (e : Z) :
  (pow2 e <= x)%Q → (x < pow2 (e + 1))%Q → binade x = e.
Proof.
  intros H1 H2.
  assert (0 < x)%Q as Hx by (eapply Qlt_le_trans; [apply pow2_pos|exact H1]).
  destruct (binade_spec x Hx) as [B1 B2].
  assert (pow2 e < pow2 (binade x + 1))%Q as L1 by (eapply Qle_lt_trans; eauto).
  assert (pow2 (binade x) < pow2 (e + 1))%Q as L2 by (eapply Qle_lt_trans; eauto).
  apply pow2_lt_inv in L1, L2. lia.
Qed.

Lemma binade_proper (x y : Q) : (0 < x)%Q → (x == y)%Q → binade x = binade y.
Proof.
  intros Hx Hxy. destruct (binade_spec x Hx) as [B1 B2]. symmetry.
  apply binade_unique; by rewrite <- Hxy.
Qed.

(** *** Rounding to 53 bits *)

Lemma round_half_even_proper (x y : Q) :
  (x == y)%Q → round_half_even x = round_half_even y.
Proof.
  intros Hxy. pose proof (Qfloor_comp _ _ Hxy) as Hq.
  destruct x as [nx dx], y as [ny dy]. unfold Qeq in Hxy. cbn in Hxy, Hq.
  unfold round_half_even. cbn [Qnum Qden]. rewrite !Z.mod_eq by lia. rewrite <- Hq.
  set (q := nx / Z.pos dx) in *. clearbody q.
  destruct (Z.compare_spec (2 * (nx - Z.pos dx * q)) (Z.pos dx)),
           (Z.compare_spec (2 * (ny - Z.pos dy * q)) (Z.pos dy));
    try reflexivity; exfalso; nia.
Qed.

Lemma round_pos_proper (x y : Q) : (0 < x)%Q → (x == y)%Q → round_pos x = round_pos y.
Proof.
  intros Hx Hxy. unfold round_pos. cbn zeta. rewrite <- (binade_proper x y Hx Hxy).
  f_equal. f_equal. apply round_half_even_proper. by apply Qmult_comp.
Qed.

Lemma binary64_proper (x y : Q) : (x == y)%Q → binary64 x = binary64 y.
Proof.
  intros Hxy. unfold binary64. f_equal.
  destruct (Qnum x) as [|p|p] eqn:Hnx, (Qnum y) as [|q|q] eqn:Hny;
    try (exfalso; unfold Qeq in Hxy; rewrite Hnx, Hny in Hxy; lia).
  - reflexivity.
  - apply round_pos_proper; [|done]. apply Q_pos_num. by rewrite Hnx.
  - f_equal. apply round_pos_proper; [|by rewrite Hxy].
    apply Q_pos_num. cbn. rewrite Hnx. lia.
Qed.

Lemma round_pos_error (x : Q) :
  (0 < x)%Q → (Qabs (round_pos x - x) <= pow2 (binade x - 53))%Q.
Proof.
  intros Hx. unfold round_pos. cbn zeta.
  set (e := binade x). set (t := (x * pow2 (52 - e))%Q).
  pose proof (round_half_even_near t) as Hn.
  pose proof (pow2_pos (e - 52)) as Hp.
  assert (x == t * pow2 (e - 52))%Q as Ex.
  { unfold t. rewrite <- Qmult_assoc, <- pow2_add.
    replace (52 - e + (e - 52)) with 0 by lia. change (pow2 0) with 1%Q. ring. }
  assert (pow2 (e - 53) == (1 # 2) * pow2 (e - 52))%Q as ->.
  { replace (e - 53) with (-1 + (e - 52)) by lia. by rewrite pow2_add. }
  assert (inject_Z (round_half_even t) * pow2 (e - 52) - x
          == - (t - inject_Z (round_half_even t)) * pow2 (e - 52))%Q as ->.
  { rewrite Ex at 1. ring. }
  rewrite Qabs_Qmult, Qabs_opp, (Qabs_pos (pow2 (e - 52))) by (by apply Qlt_le_weak).
  apply Qmult_le_compat_r; [done|by apply Qlt_le_weak].
Qed.

Definition ulp_half : Q := pow2 (-53).

Lemma binary64_error_pos (x : Q) :
  (0 < x)%Q → (Qabs (binary64 x - x) <= x * ulp_half)%Q.
Proof.
  intros Hx. unfold binary64.
  pose proof (proj1 (Q_pos_num x) Hx) as Hn.
  destruct (Qnum x) as [|p|p] eqn:Hnx; [lia| |lia].
  rewrite Qred_correct. eapply Qle_trans; [by apply round_pos_error|].
  replace (binade x - 53) with (binade x + -53) by lia. rewrite pow2_add.
  apply Qmult_le_compat_r; [apply (binade_spec x Hx)|apply Qlt_le_weak, pow2_pos].
Qed.

Lemma binary64_zero (x : Q) : (x == 0)%Q → binary64 x = 0%Q.
Proof. intros Hx. by rewrite (binary64_proper x 0 Hx). Qed.

Lemma binary64_opp (x : Q) : (binary64 (- x) == - binary64 x)%Q.
Proof.
  unfold binary64. rewrite !Qred_correct. destruct x as [[|p|p] d]; cbn [Qnum Qopp Z.opp].
  - reflexivity.
  - reflexivity.
  - change (- (Z.neg p # d))%Q with (Z.pos p # d). by rewrite Qopp_involutive.
Qed.

Lemma binary64_error (x : Q) : (Qabs (binary64 x - x) <= Qabs x * ulp_half)%Q.
Proof.
  destruct (Q_dec 0 x) as [[Hx|Hx]|Hx].
  - rewrite (Qabs_pos x) by (by apply Qlt_le_weak). by apply binary64_error_pos.
  - assert (0 < - x)%Q as Hx' by lra.
    pose proof (binary64_error_pos (- x) Hx') as H.
    rewrite binary64_opp in H.
    assert (- binary64 x - - x == - (binary64 x - x))%Q as E by ring.
    rewrite E, Qabs_opp in H. rewrite (Qabs_neg x) by (by apply Qlt_le_weak). exact H.
  - rewrite (binary64_zero x) by done. rewrite <- Hx. by vm_compute.
Qed.

(** A bound on [x] bounds the rounding error. *)
Lemma binary64_within (x m : Q) :
  (Qabs x <= m)%Q → (Qabs (binary64 x - x) <= m * ulp_half)%Q.
Proof.
  intros Hm. eapply Qle_trans; [apply binary64_error|].
  apply Qmult_le_compat_r; [done|by vm_compute].
Qed.

(** A number with a significand of at most 53 bits is not changed. *)
Lemma binary64_exact (x : Q) (m k : Z) :
  0 ≤ m ≤ 2 ^ 53 → (x == inject_Z m * pow2 k)%Q → (binary64 x == x)%Q.
Proof.
  intros Hm Hx. destruct (Z.eq_dec m 0) as [->|Hm0].
  { rewrite (binary64_zero x); [|rewrite Hx; ring]. rewrite Hx. ring. }
  assert (0 < x)%Q as Hx0.
  { rewrite Hx. apply Qmult_lt_0_compat; [|apply pow2_pos]. apply inject_Z_pos. lia. }
  unfold binary64. pose proof (proj1 (Q_pos_num x) Hx0) as Hn.
  destruct (Qnum x) as [|p|p] eqn:Hnx; [lia| |lia]. rewrite Qred_correct.
  unfold round_pos. cbn zeta. set (e := binade x).
  destruct (binade_spec x Hx0) as [B1 B2]. fold e in B1, B2.
  (* [m * 2^k >= 2^e] with [m <= 2^53] gives [e - 53 <= k], and equality only for 2^53 *)
  assert (inject_Z m <= pow2 53)%Q as Hm53.
  { rewrite pow2_nonneg by lia. rewrite <- Zle_Qle. lia. }
  assert (pow2 e <= pow2 (53 + k))%Q as Hle.
  { eapply Qle_trans; [exact B1|]. rewrite Hx, pow2_add.
    apply Qmult_le_compat_r; [done|apply Qlt_le_weak, pow2_pos]. }
  assert (e ≤ 53 + k) as Hek.
  { destruct (Z_le_gt_dec e (53 + k)); [done|].
    exfalso. apply (Qlt_not_le (pow2 (53 + k)) (pow2 e)); [apply pow2_lt; lia|done]. }
  destruct (Z.eq_dec e (53 + k)) as [Heq|Hne].
  - (* then [x = 2^e] *)
    assert (x == pow2 e)%Q as Exe.
    { apply Qle_antisym; [|done]. rewrite Hx, Heq, pow2_add.
      apply Qmult_le_compat_r; [done|apply Qlt_le_weak, pow2_pos]. }
    assert (x * pow2 (52 - e) == inject_Z (2 ^ 52))%Q as Et.
    { rewrite Exe, <- pow2_add. replace (e + (52 - e)) with 52 by lia. by rewrite pow2_nonneg. }
    rewrite (round_half_even_Z _ _ Et), <- pow2_nonneg, <- pow2_add by lia.
    replace (52 + (e - 52)) with e by lia. by rewrite Exe.
  - assert (0 ≤ k + 52 - e) as Hk by lia.
    assert (x * pow2 (52 - e) == inject_Z (m * 2 ^ (k + 52 - e)))%Q as Et.
    { rewrite Hx, <- Qmult_assoc, <- pow2_add, inject_Z_mult, <- pow2_nonneg by lia.
      by replace (k + (52 - e)) with (k + 52 - e) by lia. }
    rewrite (round_half_even_Z _ _ Et), inject_Z_mult, <- pow2_nonneg, <- Qmult_assoc,
      <- pow2_add by lia.
    replace (k + 52 - e + (e - 52)) with k by lia. by rewrite Hx.
Qed.

Lemma binary64_int (z : Z) : 0 ≤ z ≤ 2 ^ 53 → (binary64 (inject_Z z) == inject_Z z)%Q.
Proof.
  intros Hz. apply (binary64_exact _ z 0); [done|]. change (pow2 0) with 1%Q. ring.
Qed.

(** *** Prices *)

Lemma round_half_even_between (x : Q) (a b : Z) :
  (inject_Z a - (1 # 2) < x)%Q → (x < inject_Z b + (1 # 2))%Q →
  a ≤ round_half_even x ≤ b.
Proof.
  intros Ha Hb. pose proof (round_half_even_near x) as Hn.
  apply Qabs_Qle_condition in Hn as [H1 H2].
  assert (inject_Z (a - 1) < inject_Z (round_half_even x))%Q as L1.
  { unfold Z.sub. rewrite inject_Z_plus, inject_Z_opp. change (inject_Z 1) with 1%Q. lra. }
  assert (inject_Z (round_half_even x) < inject_Z (b + 1))%Q as L2.
  { rewrite inject_Z_plus. change (inject_Z 1) with 1%Q. lra. }
  rewrite <- Zlt_Qlt in L1, L2. lia.
Qed.

Lemma Qle_by_bool (x y : Q) : Qle_bool x y = true → (x <= y)%Q.
Proof. apply Qle_bool_iff. Qed.

Lemma draw_range (d : Z) :
  0 ≤ d < 2 ^ 53 → (0 <= d # Z.to_pos (2 ^ 53))%Q ∧ (d # Z.to_pos (2 ^ 53) <= 1)%Q.
Proof.
  intros Hd. change (2 ^ 53) with 9007199254740992 in *.
  change (Z.to_pos 9007199254740992) with 9007199254740992%positive.
  unfold Qle. cbn [Qnum Qden]. lia.
Qed.

(** [random.uniform(0.49, 1.99)] stays within a hair of its bounds. *)
Lemma uniform_price_range (d : Z) :
  0 ≤ d < 2 ^ 53 →
  (4899 # 10000 < uniform_price d)%Q ∧ (uniform_price d < 19901 # 10000)%Q.
Proof.
  intros Hd. destruct (draw_range d Hd) as [R0 R1].
  unfold uniform_price, fadd, fmul.
  set (r := (d # Z.to_pos (2 ^ 53))%Q) in *. clearbody r.
  assert (48999 # 100000 <= price_lo)%Q as L1 by (apply Qle_by_bool; vm_compute; reflexivity).
  assert (price_lo <= 49001 # 100000)%Q as L2 by (apply Qle_by_bool; vm_compute; reflexivity).
  assert (149999 # 100000 <= fsub price_hi price_lo)%Q as C1
      by (apply Qle_by_bool; vm_compute; reflexivity).
  assert (fsub price_hi price_lo <= 150001 # 100000)%Q as C2
      by (apply Qle_by_bool; vm_compute; reflexivity).
  set (c := fsub price_hi price_lo) in *. set (lo := price_lo) in *. clearbody lo c.
  assert (0 <= c * r)%Q as P0 by (apply Qmult_le_0_compat; lra).
  assert (c * r <= c)%Q as P1 by nra.
  pose proof (binary64_within (c * r) (150001 # 100000)) as Hm.
  rewrite (Qabs_pos (c * r)) in Hm by done. specialize (Hm ltac:(lra)).
  apply Qabs_Qle_condition in Hm as [M1 M2].
  set (m := binary64 (c * r)) in *. clearbody m.
  assert (ulp_half <= 1 # 1000000)%Q as Hu by (apply Qle_by_bool; vm_compute; reflexivity).
  assert (0 < ulp_half)%Q as Hu0 by (by vm_compute).
  pose proof (binary64_within (lo + m) 2) as Hs.
  rewrite (Qabs_pos (lo + m)) in Hs by lra. specialize (Hs ltac:(lra)).
  apply Qabs_Qle_condition in Hs as [S1 S2].
  set (s := binary64 (lo + m)) in *. clearbody s.
  split; lra.
Qed.

(** *** Floats next to a whole number of cents *)

Ltac ulp_numeral := change ulp_half with (1 # 9007199254740992)%Q in *.

Lemma Qmake_100 (z : Z) : (z # 100 == inject_Z z * (1 # 100))%Q.
Proof. unfold Qeq, Qmult, inject_Z. cbn [Qnum Qden]. lia. Qed.

Lemma inject_Z_bound (z b : Z) : z < b → (inject_Z z + 1 <= inject_Z b)%Q.
Proof.
  intros H. change 1%Q with (inject_Z 1). rewrite <- inject_Z_plus, <- Zle_Qle. lia.
Qed.

Lemma cents_near (K : Z) :
  0 ≤ K → (Qabs (binary64 (K # 100) - (K # 100)) <= (K # 100) * ulp_half)%Q.
Proof.
  intros HK. pose proof (binary64_error (K # 100)) as H.
  rewrite (Qabs_pos (K # 100)) in H; [done|]. unfold Qle. cbn. lia.
Qed.

Lemma cents_pos (K : Z) : 0 < K → (0 < binary64 (K # 100))%Q.
Proof.
  intros HK. pose proof (cents_near K ltac:(lia)) as H.
  apply Qabs_Qle_condition in H as [H _].
  assert (0 < K # 100)%Q as Hk by (unfold Qlt; cbn; lia).
  ulp_numeral. lra.
Qed.

Lemma cents_value (c e : Z) :
  -2 ≤ e → (inject_Z c * pow10 e == (c * 10 ^ (e + 2)) # 100)%Q.
Proof.
  intros He. rewrite Qmake_100, inject_Z_mult.
  assert (pow10 e == pow10 (e + 2) * pow10 (-2))%Q as ->.
  { rewrite <- pow10_add. by replace (e + 2 + -2) with e by lia. }
  unfold pow10 at 1. rewrite (proj2 (Z.leb_le 0 (e + 2))) by lia.
  change (pow10 (-2)) with (1 # 100)%Q. ring.
Qed.

(** Two decimals with two places that round to the same float are equal. *)
Lemma cents_inj (C K : Z) :
  0 < K < 10 ^ 13 → (binary64 (C # 100) == binary64 (K # 100))%Q → C = K.
Proof.
  intros HK Heq.
  pose proof (binary64_error (C # 100)) as EC. pose proof (cents_near K ltac:(lia)) as EK.
  pose proof (cents_pos K ltac:(lia)) as Hb.
  rewrite Heq in EC. set (b := binary64 (K # 100)) in *. clearbody b.
  rewrite Qmake_100 in EK. rewrite (Qmake_100 C) in EC.
  assert (inject_Z K + 1 <= inject_Z (10 ^ 13))%Q as HK' by (apply inject_Z_bound; lia).
  change (inject_Z (10 ^ 13)) with (10000000000000 # 1)%Q in HK'.
  assert (0 < inject_Z K)%Q as HK0 by (apply inject_Z_pos; lia).
  apply Qabs_Qle_condition in EK as [K1 K2].
  destruct (Z_lt_le_dec 0 C) as [HC|HC].
  - rewrite (Qabs_pos (inject_Z C * _)) in EC.
    2:{ apply Qmult_le_0_compat; [|done]. apply inject_Z_nonneg. lia. }
    apply Qabs_Qle_condition in EC as [C1 C2].
    destruct (Z.eq_dec C K) as [|Hne]; [done|exfalso].
    assert (C < K ∨ K < C) as [H|H] by lia; apply inject_Z_bound in H; ulp_numeral; lra.
  - exfalso. rewrite (Qabs_neg (inject_Z C * _)) in EC.
    2:{ pose proof (inject_Z_nonpos C HC). lra. }
    apply Qabs_Qle_condition in EC as [C1 C2].
    pose proof (inject_Z_nonpos C HC).
    ulp_numeral. lra.
Qed.

Lemma ok_cents (K c e : Z) :
  0 < K < 10 ^ 13 → -2 ≤ e →
  Qeq_bool (binary64 (inject_Z c * pow10 e)) (binary64 (K # 100)) = true →
  (inject_Z c * pow10 e == K # 100)%Q.
Proof.
  intros HK He Hok. apply Qeq_bool_iff in Hok.
  rewrite (binary64_proper _ _ (cents_value c e He)) in Hok.
  apply cents_inj in Hok; [|done]. rewrite cents_value by done. by rewrite Hok.
Qed.

Lemma floor_or_ceiling (s : Q) (K : Z) :
  (Qabs (s - inject_Z K) < 1)%Q → Qfloor s = K ∨ Qceiling s = K.
Proof.
  intros H. apply Qabs_Qlt_condition in H as [H1 H2].
  destruct (Qlt_le_dec s (inject_Z K)) as [Hlt|Hle].
  - right. pose proof (Qle_ceiling s) as L1. pose proof (Qceiling_lt s) as L2.
    assert (inject_Z (Qceiling s - 1) < inject_Z K)%Q as A by lra.
    assert (inject_Z (K - 1) < inject_Z (Qceiling s))%Q as B.
    { unfold Z.sub. rewrite inject_Z_plus, inject_Z_opp. change (inject_Z 1) with 1%Q. lra. }
    rewrite <- Zlt_Qlt in A, B. lia.
  - left. pose proof (Qfloor_le s) as L1. pose proof (Qlt_floor s) as L2.
    assert (inject_Z K < inject_Z (Qfloor s + 1))%Q as A by lra.
    assert (inject_Z (Qfloor s) < inject_Z (K + 1))%Q as B.
    { rewrite inject_Z_plus. change (inject_Z 1) with 1%Q. lra. }
    rewrite <- Zlt_Qlt in A, B. lia.
Qed.

(** At two decimal places the search for the shortest digits has an answer. *)
Lemma ok_at_cents (K : Z) :
  0 < K < 10 ^ 13 →
  let x := binary64 (K # 100) in
  let s := (x / pow10 (-2))%Q in
  Qeq_bool (binary64 (inject_Z (Qfloor s) * pow10 (-2))) x = true ∨
  Qeq_bool (binary64 (inject_Z (Qceiling s) * pow10 (-2))) x = true.
Proof.
  intros HK x s.
  assert (Qeq_bool (binary64 (inject_Z K * pow10 (-2))) x = true) as Hok.
  { apply Qeq_bool_iff. unfold x. rewrite (binary64_proper (inject_Z K * pow10 (-2)) (K # 100)).
    - reflexivity.
    - rewrite cents_value by lia. change (10 ^ (-2 + 2)) with 1. by rewrite Z.mul_1_r. }
  assert (Qabs (s - inject_Z K) < 1)%Q as Hs.
  { pose proof (cents_near K ltac:(lia)) as E. fold x in E.
    assert (s == x * 100)%Q as -> by (unfold s; reflexivity).
    rewrite Qmake_100 in E.
    assert (inject_Z K + 1 <= inject_Z (10 ^ 13))%Q as HK' by (apply inject_Z_bound; lia).
    change (inject_Z (10 ^ 13)) with (10000000000000 # 1)%Q in HK'.
    assert (0 < inject_Z K)%Q as HK0 by (apply inject_Z_pos; lia).
    apply Qabs_Qle_condition in E as [E1 E2]. apply Qabs_Qlt_condition.
    ulp_numeral. split; lra. }
  destruct (floor_or_ceiling s K Hs) as [-> | ->]; auto.
Qed.

Lemma shortest_from_cents (K : Z) (fuel : nat) :
  0 < K < 10 ^ 13 →
  ∀ e, -2 ≤ e → (Z.to_nat (e + 3) ≤ fuel)%nat →
       (inject_Z (shortest_from fuel (binary64 (K # 100)) e).1
        * pow10 (shortest_from fuel (binary64 (K # 100)) e).2 == K # 100)%Q.
Proof.
  intros HK. induction fuel as [|fuel IH]; intros e He Hfuel; [lia|].
  cbn [shortest_from]. cbn zeta.
  set (x := binary64 (K # 100)) in *. set (s := (x / pow10 e)%Q).
  destruct (Qeq_bool (binary64 (inject_Z (Qfloor s) * pow10 e)) x) eqn:Hlo,
           (Qeq_bool (binary64 (inject_Z (Qceiling s) * pow10 e)) x) eqn:Hhi.
  - destruct (s - inject_Z (Qfloor s) ?= inject_Z (Qceiling s) - s)%Q;
      [destruct (Z.even (Qfloor s))|..]; by apply ok_cents.
  - by apply ok_cents.
  - by apply ok_cents.
  - destruct (Z.eq_dec e (-2)) as [->|Hne].
    + destruct (ok_at_cents K HK) as [H|H]; fold x s in H; congruence.
    + apply IH; lia.
Qed.

Lemma decimal_of_pos_cents (K : Z) :
  0 < K < 10 ^ 13 → (dec_value (decimal_of_pos (binary64 (K # 100))) == K # 100)%Q.
Proof.
  intros HK. unfold decimal_of_pos, shortest_digits. cbn zeta.
  set (x := binary64 (K # 100)). set (b := Z.max 0 (binade x)).
  assert (0 ≤ b / 3 ≤ b) as Hb.
  { split; [apply Z.div_pos; lia|apply Z.div_le_upper_bound; lia]. }
  pose proof (shortest_from_cents K (Z.to_nat (b + 1100)) HK (b / 3 + 1) ltac:(lia) ltac:(lia))
    as H.
  fold x in H. destruct (shortest_from _ x _) as [d e]. cbn [fst snd] in H.
  destruct (_ && _ && (0 <=? e)) eqn:Hc; [|exact H].
  apply andb_prop in Hc as [_ He%Z.leb_le].
  unfold dec_value. cbn [dec_coef dec_exp]. rewrite <- H, inject_Z_mult, <- Qmult_assoc.
  apply Qmult_comp; [reflexivity|].
  rewrite <- pow10_nonneg_eq by lia. rewrite <- pow10_add.
  by replace (e + 1 + -1) with e by lia.
Qed.

Lemma Decimal_of_float_cents (K : Z) :
  0 ≤ K < 10 ^ 13 → (dec_value (Decimal_of_float (binary64 (K # 100))) == K # 100)%Q.
Proof.
  intros HK. destruct (Z.eq_dec K 0) as [->|HK0]; [by vm_compute|].
  pose proof (cents_pos K ltac:(lia)) as Hpos. apply Q_pos_num in Hpos.
  unfold Decimal_of_float.
  destruct (Qnum (binary64 (K # 100))) as [|p|p] eqn:Hn; [lia| |lia].
  apply decimal_of_pos_cents. lia.
Qed.

(** [round(price * 100)] gives the cents back. *)
Lemma py_round_cents (K : Z) :
  0 ≤ K < 10 ^ 13 → py_round (fmul (binary64 (K # 100)) (float_of_int 100)) = K.
Proof.
  intros HK. unfold py_round, fmul.
  assert (float_of_int 100 = 100%Q) as -> by (vm_compute; reflexivity).
  pose proof (cents_near K ltac:(lia)) as E.
  set (x := binary64 (K # 100)) in *. clearbody x. rewrite Qmake_100 in E.
  assert (inject_Z K + 1 <= inject_Z (10 ^ 13))%Q as HK' by (apply inject_Z_bound; lia).
  change (inject_Z (10 ^ 13)) with (10000000000000 # 1)%Q in HK'.
  pose proof (inject_Z_nonneg K ltac:(lia)) as HK0.
  apply Qabs_Qle_condition in E as [E1 E2].
  pose proof (binary64_within (x * 100) (inject_Z K * 2)) as Hm.
  ulp_numeral.
  rewrite (Qabs_pos (x * 100)) in Hm by lra. specialize (Hm ltac:(lra)).
  apply Qabs_Qle_condition in Hm as [M1 M2].
  apply round_half_even_unique. apply Qabs_Qlt_condition. split; lra.
Qed.

Lemma py_round2_eq (x : Q) : py_round2 x = binary64 (round_half_even (x * 100) # 100).
Proof. reflexivity. Qed.

(** The cents of the price drawn on [d]. *)
Definition price_cents_of (d : Z) : Z := round_half_even (uniform_price d * 100).

Lemma price_cents_range (d : Z) : 0 ≤ d < 2 ^ 53 → 49 ≤ price_cents_of d ≤ 199.
Proof.
  intros Hd. destruct (uniform_price_range d Hd) as [H1 H2].
  apply round_half_even_between.
  - change (inject_Z 49) with 49%Q. lra.
  - change (inject_Z 199) with 199%Q. lra.
Qed.

(** *** The timestamp of an invoice *)

Lemma Qfloor_unique (y : Q) (q : Z) :
  (inject_Z q <= y)%Q → (y < inject_Z q + 1)%Q → Qfloor y = q.
Proof.
  intros H1 H2. pose proof (Qfloor_le y) as L1. pose proof (Qlt_floor y) as L2.
  assert (inject_Z (Qfloor y) < inject_Z (q + 1))%Q as A.
  { rewrite inject_Z_plus. change (inject_Z 1) with 1%Q. lra. }
  assert (inject_Z q < inject_Z (Qfloor y + 1))%Q as B by lra.
  rewrite <- Zlt_Qlt in A, B. lia.
Qed.

Lemma truediv_seconds (dt : Z) :
  0 ≤ dt < 2 ^ 33 * 1000000 →
  let y := int_truediv dt 1000000 in
  (inject_Z (dt / 1000000) <= y)%Q ∧ (y < inject_Z (dt / 1000000) + 1)%Q.
Proof.
  intros Hdt. cbn zeta. unfold int_truediv.
  pose proof (Z.div_mod dt 1000000 ltac:(lia)) as Hdm.
  pose proof (Z.mod_pos_bound dt 1000000 ltac:(lia)) as Hr.
  set (q := dt / 1000000) in *. set (r := dt mod 1000000) in *. clearbody q r.
  assert (0 ≤ q < 2 ^ 33) as Hq by (change (2 ^ 33) with 8589934592 in *; lia).
  assert (dt # 1000000 == inject_Z q + inject_Z r * (1 # 1000000))%Q as Ex.
  { subst dt. unfold Qeq, Qplus, Qmult, inject_Z. cbn [Qnum Qden]. lia. }
  pose proof (inject_Z_nonneg q ltac:(lia)) as Q0.
  assert (inject_Z q + 1 <= inject_Z (2 ^ 33))%Q as Q1 by (apply inject_Z_bound; lia).
  change (inject_Z (2 ^ 33)) with (8589934592 # 1)%Q in Q1.
  destruct (Z.eq_dec r 0) as [->|Hr0].
  - assert (dt # 1000000 == inject_Z q)%Q as Eq by (rewrite Ex; change (inject_Z 0) with 0%Q; ring).
    rewrite (binary64_proper _ _ Eq), binary64_int.
    + split; lra.
    + change (2 ^ 33) with 8589934592 in Hq. change (2 ^ 53) with 9007199254740992. lia.
  - pose proof (inject_Z_bound 0 r ltac:(lia)) as R0.
    pose proof (inject_Z_bound r 1000000 ltac:(lia)) as R1.
    change (inject_Z 0) with 0%Q in R0. change (inject_Z 1000000) with (1000000 # 1)%Q in R1.
    pose proof (binary64_within (dt # 1000000) (8589934592 # 1)) as Hm.
    rewrite Ex in Hm at 1. rewrite Qabs_pos in Hm by lra. specialize (Hm ltac:(lra)).
    apply Qabs_Qle_condition in Hm as [M1 M2]. ulp_numeral.
    set (y := binary64 (dt # 1000000)) in *. clearbody y.
    split; lra.
Qed.

(** *** The running total of an invoice *)

(** What a stored line charges: its unit price times its quantity. *)
Definition line_amount (item : Item) : Q :=
  match attr_dec "unit_price" item, attr_dec "quantity" item with
  | Some p, Some q => dec_value p * dec_value q
  | _, _ => 0
  end.

Definition lines_total (lines : list Item) : Q :=
  foldr (fun item acc => line_amount item + acc)%Q 0%Q lines.

(** How far the float total may be from the exact one after [j] lines. *)
Definition drift (j : Z) : Q := inject_Z (3 * j * j + 17 * j) * ulp_half.

Lemma drift_succ (j : Z) :
  (drift (j + 1) == drift j + (6 * inject_Z j + 20) * ulp_half)%Q.
Proof.
  unfold drift.
  replace (3 * (j + 1) * (j + 1) + 17 * (j + 1)) with ((3 * j * j + 17 * j) + (6 * j + 20))
    by lia.
  rewrite !inject_Z_plus, !inject_Z_mult. change (inject_Z 6) with 6%Q.
  change (inject_Z 20) with 20%Q. ulp_numeral. lra.
Qed.

Lemma drift_small (j : Z) : 0 ≤ j ≤ 1000000 → (0 <= drift j)%Q ∧ (drift j <= 1 # 1000)%Q.
Proof.
  intros Hj. unfold drift.
  assert (0 ≤ 3 * j * j + 17 * j ≤ 3000017000000) as Hb by nia.
  pose proof (inject_Z_nonneg _ (proj1 Hb)) as B0.
  assert (inject_Z (3 * j * j + 17 * j) <= inject_Z 3000017000000)%Q as B1
      by (rewrite <- Zle_Qle; lia).
  change (inject_Z 3000017000000) with (3000017000000 # 1)%Q in B1.
  set (D := inject_Z (3 * j * j + 17 * j)) in *. clearbody D. ulp_numeral. split; lra.
Qed.

Lemma float_of_int_qty (qty : Z) : 1 ≤ qty ≤ 3 → float_of_int qty = inject_Z qty.
Proof.
  intros H. assert (qty = 1 ∨ qty = 2 ∨ qty = 3) as [-> | [-> | ->]] by lia;
    vm_compute; reflexivity.
Qed.

Lemma line_step (total : Q) (S K qty j : Z) :
  0 ≤ j < 1000000 → 0 ≤ S ≤ 597 * j → 49 ≤ K ≤ 199 → 1 ≤ qty ≤ 3 →
  (Qabs (total - (S # 100)) <= drift j)%Q →
  (Qabs (fadd total (fmul (binary64 (K # 100)) (float_of_int qty)) - ((S + K * qty) # 100))
   <= drift (j + 1))%Q.
Proof.
  intros Hj HS HK Hqty Ht. rewrite float_of_int_qty by done. unfold fadd, fmul.
  pose proof (cents_near K ltac:(lia)) as EK.
  set (x := binary64 (K # 100)) in *. clearbody x.
  rewrite drift_succ. destruct (drift_small j ltac:(lia)) as [D0 D1].
  set (D := drift j) in *. clearbody D.
  rewrite Qmake_100 in EK, Ht. rewrite Qmake_100, inject_Z_plus, inject_Z_mult.
  pose proof (inject_Z_nonneg j ltac:(lia)) as J0.
  assert (inject_Z S <= 597 * inject_Z j)%Q as S1.
  { change 597%Q with (inject_Z 597). rewrite <- inject_Z_mult, <- Zle_Qle. lia. }
  pose proof (inject_Z_nonneg S ltac:(lia)) as S0.
  assert (49 <= inject_Z K)%Q as K0 by (change 49%Q with (inject_Z 49); rewrite <- Zle_Qle; lia).
  assert (inject_Z K <= 199)%Q as K1
      by (change 199%Q with (inject_Z 199); rewrite <- Zle_Qle; lia).
  set (s := inject_Z S) in *. set (k := inject_Z K) in *. set (J := inject_Z j) in *.
  clearbody s k J.
  apply Qabs_Qle_condition in EK as [EK1 EK2]. apply Qabs_Qle_condition in Ht as [T1 T2].
  assert (∃ q : Q, inject_Z qty = q ∧ (q == 1 ∨ q == 2 ∨ q == 3)%Q) as (q & -> & Hq).
  { exists (inject_Z qty). split; [done|].
    assert (qty = 1 ∨ qty = 2 ∨ qty = 3) as [-> | [-> | ->]] by lia;
      [left|right; left|right; right]; reflexivity. }
  clear Hqty.
  ulp_numeral.
  destruct Hq as [Eq | [Eq | Eq]].
  all: pose proof (binary64_within (x * q) 6) as Hp.
  all: rewrite (Qabs_pos (x * q)) in Hp by (rewrite Eq; lra).
  all: specialize (Hp ltac:(rewrite Eq; lra)).
  all: apply Qabs_Qle_condition in Hp as [P1 P2].
  all: set (p := binary64 (x * q)) in *; clearbody p.
  all: rewrite Eq in P1, P2.
  all: pose proof (binary64_within (total + p) (s * (1 # 100) + 7)) as Hs.
  all: ulp_numeral.
  all: rewrite (Qabs_pos (total + p)) in Hs by lra.
  all: specialize (Hs ltac:(lra)).
  all: apply Qabs_Qle_condition in Hs as [A1 A2].
  all: set (t := binary64 (total + p)) in *; clearbody t.
  all: ulp_numeral; rewrite Eq; apply Qabs_Qle_condition; split; lra.
Qed.

Lemma line_item_price i n t p q c : attr_dec "unit_price" (line_item i n t p q c) = Some p.
Proof. reflexivity. Qed.

Lemma line_item_quantity i n t p q c : attr_dec "quantity" (line_item i n t p q c) = Some q.
Proof. reflexivity. Qed.

Lemma dec_value_int (z : Z) : (dec_value (Decimal_of_int z) == inject_Z z)%Q.
Proof.
  unfold dec_value, Decimal_of_int. cbn [dec_coef dec_exp]. change (pow10 0) with 1%Q. lra.
Qed.

Lemma line_item_amount inv_id ix trk (K qty cents : Z) :
  0 ≤ K < 10 ^ 13 →
  (line_amount (line_item inv_id ix trk (Decimal_of_float (binary64 (K # 100)))
                          (Decimal_of_int qty) cents)
   == (K * qty) # 100)%Q.
Proof.
  intros HK. unfold line_amount. rewrite line_item_price, line_item_quantity.
  rewrite Decimal_of_float_cents, dec_value_int by done.
  rewrite (Qmake_100 K), (Qmake_100 (K * qty)), inject_Z_mult. lra.
Qed.

Lemma lines_accumulate b inv_id pool (n : nat) :
  ∀ i total total' evl j acc,
    loopS (lineS b inv_id pool) i n total (Ret total') evl →
    0 ≤ j → j + Z.of_nat n ≤ 1000000 → 0 ≤ acc ≤ 597 * j →
    (Qabs (total - (acc # 100)) <= drift j)%Q →
    ∃ acc', 0 ≤ acc' ≤ 597 * (j + Z.of_nat n) ∧
            (lines_total (puts evl) == (acc' - acc) # 100)%Q ∧
            (Qabs (total' - (acc' # 100)) <= drift (j + Z.of_nat n))%Q.
Proof.
  induction n as [|n IH]; intros i total total' evl j acc; cbn [loopS].
  - intros [[= ->] ->] Hj Hn Hacc Ht. exists acc. split; [lia|].
    replace (acc - acc) with 0 by lia. replace (j + Z.of_nat 0) with j by lia. by split.
  - intros (r1 & evs1 & (trk & d & qty & _ & Hd & Hqty & pr & -> & ->) & H) Hj Hn Hacc Ht.
    destruct pr as [code|]; [by destruct H|].
    destruct H as (evs2 & H & ->).
    pose proof (price_cents_range d Hd) as HK.
    rewrite py_round2_eq in H. fold (price_cents_of d) in H.
    set (K := price_cents_of d) in *.
    pose proof (line_step total acc K qty j ltac:(lia) Hacc HK Hqty Ht) as Hstep.
    destruct (IH _ _ _ _ (j + 1) (acc + K * qty) H ltac:(lia) ltac:(lia) ltac:(nia) Hstep)
      as (acc' & Hacc' & Hsum & Hend).
    exists acc'. split; [lia|]. split.
    + cbn [app]. rewrite puts_cons_put. cbn [lines_total foldr]. fold (lines_total (puts evs2)).
      rewrite Hsum, py_round2_eq. fold (price_cents_of d). fold K.
      rewrite line_item_amount by lia. clearbody K.
      unfold Qeq, Qplus. cbn [Qnum Qden]. lia.
    + by replace (j + Z.of_nat (S n)) with (j + 1 + Z.of_nat n) by lia.
Qed.

(** The upsert stores the exact sum of what the lines between it and the
    insert charge. *)
Definition totals_lines (first : Item) (lines : list Item) (item : Item) : Prop :=
  ∃ total, attr_dec "total" item = Some total ∧ (dec_value total == lines_total lines)%Q.

Lemma invoice_total_item_total c i ts t l :
  attr_dec "total" (invoice_total_item c i ts t l) = Some t.
Proof. reflexivity. Qed.

Lemma invoice_total_exact b inv_id pool (n : nat) (total : Q) (evl : list event) :
  Z.of_nat n ≤ 1000000 →
  loopS (lineS b inv_id pool) 1 n 0%Q (Ret total) evl →
  (dec_value (Decimal_of_float (py_round2 total)) == lines_total (puts evl))%Q.
Proof.
  intros Hn Hloop.
  destruct (lines_accumulate b inv_id pool n 1 0%Q total evl 0 0 Hloop)
    as (acc & Hacc & Hsum & Hend); [lia|lia|lia|by vm_compute|].
  destruct (drift_small (0 + Z.of_nat n) ltac:(lia)) as [D0 D1].
  set (D := drift (0 + Z.of_nat n)) in *. clearbody D.
  rewrite Z.sub_0_r in Hsum. rewrite Hsum, py_round2_eq.
  assert (round_half_even (total * 100) = acc) as ->.
  { apply round_half_even_unique. rewrite Qmake_100 in Hend.
    apply Qabs_Qle_condition in Hend as [E1 E2]. apply Qabs_Qlt_condition. split; lra. }
  apply Decimal_of_float_cents. change (10 ^ 13) with 10000000000000. lia.
Qed.

(** ** seed_data: prices *)

(** The item carries the price of [cents] hundredths. *)
Definition priced (cents : Z) (item : Item) : Prop :=
  ∃ p, attr_dec "unit_price" item = Some p ∧ (dec_value p == cents # 100)%Q.

(** A line: a price, a quantity from one to three, and the sort value made of
    the price in cents and the number of the line. *)
Definition line_ok (item : Item) : Prop :=
  ∃ cents qty ix,
    49 ≤ cents ≤ 199 ∧ priced cents item ∧
    attr_dec "quantity" item = Some (mkDecimal qty 0) ∧ 1 ≤ qty ≤ 3 ∧
    attr_str "SK" item = Some ("LINE#" +:+ py_str_int ix) ∧
    attr_str "LSI1SK" item
    = Some ("PRICE#" +:+ py_format_0d 5 cents +:+ "#LINE#" +:+ py_format_0d 3 ix).

Definition prices_ok (item : Item) : Prop :=
  (item_type item = Some "Track" → ∃ cents, 49 ≤ cents ≤ 199 ∧ priced cents item) ∧
  (item_type item = Some "InvoiceLine" → line_ok item).

Lemma priced_draw (d : Z) (item : Item) :
  0 ≤ d < 2 ^ 53 →
  attr_dec "unit_price" item = Some (Decimal_of_float (py_round2 (uniform_price d))) →
  priced (price_cents_of d) item.
Proof.
  intros Hd Hp. pose proof (price_cents_range d Hd) as HK.
  eexists. split; [exact Hp|]. rewrite py_round2_eq. fold (price_cents_of d).
  apply Decimal_of_float_cents. change (10 ^ 13) with 10000000000000. lia.
Qed.

(** X18: every track and every invoice line that [seed_data] puts has a
    unit price of a whole number of cents from 49 to 199: the decimal stored
    is exactly that many hundredths.  A line has a quantity of 1, 2 or 3 and
    the sort value PRICE#cents#LINE#number, made of the cents of its own
    price, padded to five digits, and of its line number, padded to three. *)
Theorem prices_are_whole_cents {W : Type} (E : Env W) (table : string) (sizes : Sizes)
        (w : W) :
  Forall prices_ok (puts (trace (seed_data E table sizes (mkState w [])).2)).
Proof.
  apply (seed_data_values E prices_ok sizes).
  - intros a n c f m _ _ _ _ _ _ _. by split; intros [=].
  - intros a b t y g _ _ _ _ _. by split; intros [=].
  - intros a t n ms by_ d _ _ _ _ _ Hd. split; [|by intros [=]].
    intros _. exists (price_cents_of d). split; [by apply price_cents_range|].
    by apply priced_draw.
  - intros c n e ci _ _ _ _. by split; intros [=].
  - intros c i w0 days _ _ _ ts. by split; intros [=].
  - intros c i w0 days total _ _ _ ts. by split; intros [=].
  - intros i n t d q _ _ Hd Hq price. split; [by intros [=]|].
    intros _. pose proof (price_cents_range d Hd) as HK.
    exists (price_cents_of d), q, n. split; [done|]. split; [by apply priced_draw|].
    split; [reflexivity|]. split; [done|]. split; [reflexivity|].
    subst price. rewrite py_round2_eq. fold (price_cents_of d).
    rewrite py_round_cents; [reflexivity|]. change (10 ^ 13) with 10000000000000. lia.
Qed.

(** ** seed_data: the timestamp of an invoice *)

Lemma days_back_exact (now days : Z) :
  0 ≤ now - days * 86400000000 < 2 ^ 33 * 1000000 →
  days_back now days = (now - days * 86400000000) / 1000000.
Proof.
  intros Hdt. unfold days_back, py_int.
  destruct (truediv_seconds _ Hdt) as [H1 H2].
  set (y := int_truediv (now - days * 86400000000) 1000000) in *. clearbody y.
  assert (0 <= inject_Z ((now - days * 86400000000) / 1000000))%Q as H0.
  { apply inject_Z_nonneg. apply Z.div_pos; lia. }
  rewrite (proj2 (Qle_bool_iff 0 y)) by lra. by apply Qfloor_unique.
Qed.

(** The invoice item is dated at the whole second [days] days before the
    clock reading of the world [w]. *)
Definition dated {W : Type} (E : Env W) (item : Item) : Prop :=
  ∃ w days inv_id ts,
    0 ≤ days ≤ 365 ∧
    item !! "ts" = Some (AInt ts) ∧
    attr_str "invoice_id" item = Some inv_id ∧
    attr_str "LSI1SK" item = Some ("INVOICE#" +:+ py_format_0d 10 ts +:+ "#" +:+ inv_id) ∧
    (0 ≤ env_clock E w - days * 86400000000 < 2 ^ 33 * 1000000 →
     ts = (env_clock E w - days * 86400000000) / 1000000).

(** X19: every invoice item that [seed_data] puts, insert and upsert, is
    dated from a reading of the clock and a number of days from 0 to 365:
    its sort value is INVOICE#, the timestamp padded to ten digits, # and
    the invoice id, and whenever the moment that many days before the
    reading lies between the epoch and [2^33] seconds after it, the
    timestamp is the whole seconds of that moment: the float division of
    [timestamp()] does not move it. *)
Theorem invoice_timestamps {W : Type} (E : Env W) (table : string) (sizes : Sizes) (w : W) :
  Forall (fun item => item_type item = Some "Invoice" → dated E item)
         (puts (trace (seed_data E table sizes (mkState w [])).2)).
Proof.
  apply (seed_data_values E (fun item => item_type item = Some "Invoice" → dated E item) sizes).
  - by intros a n c f m _ _ _ _ _ _ _ [=].
  - by intros a b t y g _ _ _ _ _ [=].
  - by intros a t n ms by_ d _ _ _ _ _ _ [=].
  - by intros c n e ci _ _ _ _ [=].
  - intros c i w0 days _ _ Hdays ts _. exists w0, days, i, ts.
    split; [done|]. split; [reflexivity|]. split; [reflexivity|]. split; [reflexivity|].
    apply days_back_exact.
  - intros c i w0 days total _ _ Hdays ts _. exists w0, days, i, ts.
    split; [done|]. split; [reflexivity|]. split; [reflexivity|]. split; [reflexivity|].
    apply days_back_exact.
  - by intros i n t d q _ _ _ _ price [=].
Qed.

(** ** seed_data: the total of an invoice *)

(** X20: with at most 1,000,000 lines per invoice, the total that the final
    upsert of an invoice stores equals, as a decimal, the exact sum of unit
    price times quantity over the lines put between the insert and the
    upsert: the float accumulation and [round(total, 2)] lose nothing. *)
Theorem invoice_total_is_the_sum {W : Type} (E : Env W) (table : string) (sizes : Sizes)
        (w : W) (l1 l2 : list Item) (item : Item) :
  lines_per_invoice sizes ≤ 1000000 →
  puts (trace (seed_data E table sizes (mkState w [])).2) = l1 ++ item :: l2 →
  is_upsert item →
  ∃ l0 first lines,
    l1 = l0 ++ first :: lines ∧ overwrites first item ∧ totals_lines first lines item.
Proof.
  intros Hlines.
  destruct (seed_data_spec E table sizes (mkState w [])) as (evs & -> & H).
  cbn [trace app]. revert H l1 item l2.
  apply (seedS_upserts
           (fun first lines item => overwrites first item ∧ totals_lines first lines item)
           sizes).
  intros b cust_id inv_id ts pool total evl _ _ Hloop. cbn zeta.
  split; [apply invoice_total_overwrites|].
  eexists. split; [apply invoice_total_item_total|].
  eapply invoice_total_exact; [|exact Hloop]. lia.
Qed.

Lemma invoice_total_is_the_sum_witness :
  lines_per_invoice (mkSizes 2 1 1 1 1 2) ≤ 1000000 ∧
  puts (trace demo_seed.2) = take 10 demo_items ++ demo_upsert :: drop 11 demo_items ∧
  is_upsert demo_upsert ∧
  ∃ l0 first lines,
    take 10 demo_items = l0 ++ first :: lines ∧ overwrites first demo_upsert ∧
    totals_lines first lines demo_upsert.
Proof.
  unfold demo_upsert, demo_items, demo_seed.
  pose proof (split_at_index ∅ 10 _ ltac:(rewrite demo_length; lia)) as Heq.
  assert (is_upsert (default ∅ (puts (trace (seed_data Sim.env "music" (mkSizes 2 1 1 1 1 2)
                                 (mkState demo_world [])).2) !! 10%nat))) as Hup.
  { split; [vm_compute; reflexivity|]. vm_compute. eexists. reflexivity. }
  assert (lines_per_invoice (mkSizes 2 1 1 1 1 2) ≤ 1000000) as Hl by (cbn; lia).
  split; [exact Hl|]. split; [exact Heq|]. split; [exact Hup|].
  exact (invoice_total_is_the_sum Sim.env "music" (mkSizes 2 1 1 1 1 2) demo_world _ _ _
           Hl Heq Hup).
Defined.
